(** * Bus adapters of the cocotb test-bench framework

    A shallow embedding of
      - [cocotbext/wishbone/driver.py]  (the Wishbone master),
      - [cocotbext/avalon/monitor.py]   (the packetised Avalon-ST monitor),
      - [cocotb/monitor.py]             (the common [Monitor._recv] sink),
    followed by the properties established about them.

    Coroutines are modelled by explicit state passing.  The simulator is a
    finite list of input samples, one per clock edge still to come: waiting
    for [self.bus.clock_event] consumes the next sample, and a coroutine that
    waits when no sample is left ends in [SimEnd]. *)

From Stdlib Require Import ZArith List String Bool Lia Ascii DecimalString.
Import ListNotations.
Local Open Scope Z_scope.

(** ** Python-level plumbing shared by the three files *)

(** The exceptions the modelled code raises.  Messages are kept as the
    format templates of the source; the formatted arguments are dropped. *)
Inductive exn : Type :=
| TestFailure (msg : string)
| AvalonProtocolError (msg : string)
| UnboundLocalError (var : string)
| TypeError (msg : string)
| ValueError (msg : string).

Inductive level : Type := ERROR | INFO | DEBUG.

Definition log_record : Type := (level * string)%type.

(** ** cocotbext/wishbone/driver.py *)

Module WBOp.
(** [class WBOp]: [dat = None] is a read; [idle] may be [None]. *)
Record t : Type := mk { adr : Z; dat : option Z; idle : option Z; sel : Z }.
End WBOp.

Module WBAux.
(** [class WBAux], positional order of its constructor. *)
Record t : Type := mk
  { sel : Z; adr : Z; datwr : Z; waitStall : Z; waitIdle : option Z; ts : Z }.
End WBAux.

Module WBRes.
(** [class WBRes]; [None] fields are Python's [None]. *)
Record t : Type := mk
  { ack : Z; sel : option Z; adr : option Z; datrd : Z; datwr : option Z;
    waitIdle : option Z; waitStall : option Z; waitAck : Z }.
End WBRes.

Module Bus.
(** Lines driven by the master. *)
Record out : Type := mk_out
  { cyc : Z; stb : Z; we : Z; adr : Z; datwr : Z; sel : Z }.

(** Lines sampled by the master at one clock edge. *)
Record inp : Type := mk_inp
  { ack : Z; err : Z; rty : Z; stall : Z; datrd : Z }.

(** Which optional signals exist: [hasattr(self.bus, ...)]. *)
Record shape : Type := mk_shape
  { has_err : bool; has_rty : bool; has_stall : bool }.

Definition set_cyc v o := mk_out v (stb o) (we o) (adr o) (datwr o) (sel o).
Definition set_stb v o := mk_out (cyc o) v (we o) (adr o) (datwr o) (sel o).
Definition set_we v o := mk_out (cyc o) (stb o) v (adr o) (datwr o) (sel o).
Definition set_adr v o := mk_out (cyc o) (stb o) (we o) v (datwr o) (sel o).
Definition set_datwr v o := mk_out (cyc o) (stb o) (we o) (adr o) v (sel o).
Definition set_sel v o := mk_out (cyc o) (stb o) (we o) (adr o) (datwr o) v.
End Bus.

(** The values [send_cycle] can be handed. *)
#[warnings="-register-all"]
Inductive pyval : Type :=
| PyNone
| PyInt (z : Z)
| PyStr (s : string)
| PyList (l : list pyval)
| PyWBOp (op : WBOp.t).

Definition has_strip (v : pyval) : bool :=
  match v with PyStr _ => true | _ => false end.

Definition has_getitem (v : pyval) : bool :=
  match v with PyStr _ | PyList _ => true | _ => false end.

Definition has_iter (v : pyval) : bool :=
  match v with PyStr _ | PyList _ => true | _ => false end.

(** [not hasattr(arg, "strip") and hasattr(arg, "__getitem__") or
    hasattr(arg, "__iter__")] *)
Definition is_sequence (arg : pyval) : bool :=
  (negb (has_strip arg) && has_getitem arg) || has_iter arg.

(** [len(arg)]; [None] where Python raises [TypeError]. *)
Definition py_len (arg : pyval) : option Z :=
  match arg with
  | PyStr s => Some (Z.of_nat (String.length s))
  | PyList l => Some (Z.of_nat (List.length l))
  | _ => None
  end.

(** The items [for op in arg] visits. *)
Definition py_iter (arg : pyval) : list pyval :=
  match arg with
  | PyStr s => map (fun c => PyStr (String c EmptyString)) (list_ascii_of_string s)
  | PyList l => l
  | _ => []
  end.

Definition isinstance_WBOp (v : pyval) : bool :=
  match v with PyWBOp _ => true | _ => false end.

(** The master object together with the simulation it runs in. *)
Record master : Type := mk_master
  { bus : Bus.out;
    shape : Bus.shape;
    _timeout : option Z;
    busy : bool;
    busy_event : bool;          (* [Event.fired] *)
    _acked_ops : Z;
    _res_buf : list WBRes.t;
    _aux_buf : list WBAux.t;
    _op_cnt : Z;
    _clk_cycle_count : Z;
    log : list log_record;
    reader_waiting : bool;      (* a forked [_read] is parked on the clock *)
    counter_waiting : bool;     (* a forked [_clk_cycle_counter] is parked *)
    now : Bus.inp;              (* the sample of the current edge *)
    pending : list Bus.inp;     (* the samples of the edges to come *)
    edges : nat }.              (* clock edges waited for so far *)

Definition set_bus v s := mk_master v (shape s) (_timeout s) (busy s) (busy_event s)
  (_acked_ops s) (_res_buf s) (_aux_buf s) (_op_cnt s) (_clk_cycle_count s) (log s)
  (reader_waiting s) (counter_waiting s) (now s) (pending s) (edges s).
Definition set_busy v s := mk_master (bus s) (shape s) (_timeout s) v (busy_event s)
  (_acked_ops s) (_res_buf s) (_aux_buf s) (_op_cnt s) (_clk_cycle_count s) (log s)
  (reader_waiting s) (counter_waiting s) (now s) (pending s) (edges s).
Definition set_busy_event v s := mk_master (bus s) (shape s) (_timeout s) (busy s) v
  (_acked_ops s) (_res_buf s) (_aux_buf s) (_op_cnt s) (_clk_cycle_count s) (log s)
  (reader_waiting s) (counter_waiting s) (now s) (pending s) (edges s).
Definition set_acked_ops v s := mk_master (bus s) (shape s) (_timeout s) (busy s)
  (busy_event s) v (_res_buf s) (_aux_buf s) (_op_cnt s) (_clk_cycle_count s) (log s)
  (reader_waiting s) (counter_waiting s) (now s) (pending s) (edges s).
Definition set_res_buf v s := mk_master (bus s) (shape s) (_timeout s) (busy s)
  (busy_event s) (_acked_ops s) v (_aux_buf s) (_op_cnt s) (_clk_cycle_count s) (log s)
  (reader_waiting s) (counter_waiting s) (now s) (pending s) (edges s).
Definition set_aux_buf v s := mk_master (bus s) (shape s) (_timeout s) (busy s)
  (busy_event s) (_acked_ops s) (_res_buf s) v (_op_cnt s) (_clk_cycle_count s) (log s)
  (reader_waiting s) (counter_waiting s) (now s) (pending s) (edges s).
Definition set_op_cnt v s := mk_master (bus s) (shape s) (_timeout s) (busy s)
  (busy_event s) (_acked_ops s) (_res_buf s) (_aux_buf s) v (_clk_cycle_count s) (log s)
  (reader_waiting s) (counter_waiting s) (now s) (pending s) (edges s).
Definition set_clk_cycle_count v s := mk_master (bus s) (shape s) (_timeout s) (busy s)
  (busy_event s) (_acked_ops s) (_res_buf s) (_aux_buf s) (_op_cnt s) v (log s)
  (reader_waiting s) (counter_waiting s) (now s) (pending s) (edges s).
Definition set_log v s := mk_master (bus s) (shape s) (_timeout s) (busy s)
  (busy_event s) (_acked_ops s) (_res_buf s) (_aux_buf s) (_op_cnt s)
  (_clk_cycle_count s) v (reader_waiting s) (counter_waiting s) (now s) (pending s)
  (edges s).
Definition set_reader_waiting v s := mk_master (bus s) (shape s) (_timeout s) (busy s)
  (busy_event s) (_acked_ops s) (_res_buf s) (_aux_buf s) (_op_cnt s)
  (_clk_cycle_count s) (log s) v (counter_waiting s) (now s) (pending s) (edges s).
Definition set_counter_waiting v s := mk_master (bus s) (shape s) (_timeout s) (busy s)
  (busy_event s) (_acked_ops s) (_res_buf s) (_aux_buf s) (_op_cnt s)
  (_clk_cycle_count s) (log s) (reader_waiting s) v (now s) (pending s) (edges s).
(** The simulator moves on to the next edge, whose sample is [i]. *)
Definition advance (i : Bus.inp) (rest : list Bus.inp) s := mk_master (bus s) (shape s)
  (_timeout s) (busy s) (busy_event s) (_acked_ops s) (_res_buf s) (_aux_buf s)
  (_op_cnt s) (_clk_cycle_count s) (log s) (reader_waiting s) (counter_waiting s)
  i rest (S (edges s)).

(** How a coroutine of the driver can end. *)
Inductive outcome (A : Type) : Type :=
| Ret (a : A) (s : master)        (* returned [a] *)
| Raise (e : exn) (s : master)    (* an exception ended the test *)
| SimEnd (s : master)             (* waiting for an edge that never comes *)
| Blocked (s : master)            (* waiting for an event nobody sets *)
| OutOfFuel (s : master).         (* the model's loop bound was too small *)
Arguments Ret {A} a s.
Arguments Raise {A} e s.
Arguments SimEnd {A} s.
Arguments Blocked {A} s.
Arguments OutOfFuel {A} s.

Definition final_state {A : Type} (o : outcome A) : master :=
  match o with
  | Ret _ s | Raise _ s | SimEnd s | Blocked s | OutOfFuel s => s
  end.

Definition M (A : Type) : Type := master -> outcome A.

Definition ret {A : Type} (a : A) : M A := fun s => Ret a s.

Definition bind {A B : Type} (m : M A) (k : A -> M B) : M B :=
  fun s =>
    match m s with
    | Ret a s' => k a s'
    | Raise e s' => Raise e s'
    | SimEnd s' => SimEnd s'
    | Blocked s' => Blocked s'
    | OutOfFuel s' => OutOfFuel s'
    end.

Notation "x <- m ;; k" := (bind m (fun x => k))
  (at level 61, m at next level, right associativity).
Notation "m ;; k" := (bind m (fun _ => k))
  (at level 61, right associativity).

Definition raise {A : Type} (e : exn) : M A := fun s => Raise e s.
Definition get : M master := fun s => Ret s s.
Definition modify (f : master -> master) : M unit := fun s => Ret tt (f s).
Definition out_of_fuel {A : Type} : M A := fun s => OutOfFuel s.

Definition log_msg (lvl : level) (msg : string) : M unit :=
  modify (fun s => set_log (log s ++ [(lvl, msg)]) s).

(** [self.bus.<sig> <= v] *)
Definition drive_sig (f : Z -> Bus.out -> Bus.out) (v : Z) : M unit :=
  modify (fun s => set_bus (f v (bus s)) s).

(** [WishboneMaster._get_reply] on the sample of the current edge. *)
Definition _get_reply (sh : Bus.shape) (i : Bus.inp) : exn + (bool * Z) :=
  let ack := Bus.ack i =? 1 in
  let code := if ack then 1 else 0 in
  match
    (if Bus.has_err sh && (Bus.err i =? 1)
     then if ack then inl (TestFailure "Slave raised ACK and ERR line")
          else inr (true, 2)
     else inr (ack, code))
  with
  | inl e => inl e
  | inr (ack, code) =>
      if Bus.has_rty sh && (Bus.rty i =? 1)
      then if ack
           then inl (TestFailure
                       ("Slave raised " ++ (if code =? 1 then "ACK" else "ERR")
                                        ++ " and RTY line"))
           else inr (true, 3)
      else inr (ack, code)
  end.

Definition get_reply : M (bool * Z) :=
  fun s => match _get_reply (shape s) (now s) with
           | inl e => Raise e s
           | inr r => Ret r s
           end.

(** One turn of the [while self.busy] loop of [_read], from the loop test to
    the [yield]. *)
Definition _read : M unit :=
  s <- get ;;
  if busy s then
    r <- get_reply ;;
    (if fst r then
       modify (fun s =>
         let tmpRes := WBRes.mk (snd r) None None (Bus.datrd (now s)) None None None
                                (_clk_cycle_count s) in
         set_acked_ops (_acked_ops s + 1) (set_res_buf (_res_buf s ++ [tmpRes]) s))
     else ret tt) ;;
    modify (set_reader_waiting true)
  else modify (set_reader_waiting false).

(** One turn of the [while self.busy] loop of [_clk_cycle_counter]. *)
Definition _clk_cycle_counter : M unit :=
  s <- get ;;
  modify (set_counter_waiting (busy s)).

(** Modelled from the spec: the scheduler (not part of the sources) runs a
    forked coroutine at once up to its first wait, and at a clock edge resumes
    the coroutines parked on it in the order in which they parked, so that the
    reply collector and the cycle counter run before the driving coroutine. *)
Definition fork_read : M unit := _read.

Definition fork_clk_cycle_counter : M unit :=
  modify (set_clk_cycle_count 0) ;; _clk_cycle_counter.

Definition resume_parked : M unit :=
  s <- get ;;
  (if reader_waiting s then _read else ret tt) ;;
  s <- get ;;
  (if counter_waiting s
   then modify (fun s => set_clk_cycle_count (_clk_cycle_count s + 1) s) ;;
        _clk_cycle_counter
   else ret tt).

(** [yield self.bus.clock_event] in the driving coroutine. *)
Definition clock_event : M unit :=
  fun s =>
    match pending s with
    | [] => SimEnd s
    | i :: rest => resume_parked (advance i rest s)
    end.

(** [yield self.busy_event.wait()] *)
Definition busy_event_wait : M unit :=
  fun s => if busy_event s then Ret tt s else Blocked s.

Definition _open_cycle : M unit :=
  s <- get ;;
  (if busy s
   then log_msg ERROR "Opening Cycle, but WB Driver is already busy. Someting's wrong" ;;
        busy_event_wait
   else ret tt) ;;
  modify (set_busy_event false) ;;
  modify (set_busy true) ;;
  fork_read ;;
  fork_clk_cycle_counter ;;
  drive_sig Bus.set_cyc 1 ;;
  modify (set_acked_ops 0) ;;
  modify (set_res_buf []) ;;
  modify (set_aux_buf []) ;;
  log_msg DEBUG "Opening cycle, %u Ops".

Definition timed_out (timeout : option Z) (count : Z) : bool :=
  match timeout with
  | Some t => count >? t
  | None => false
  end.

Fixpoint close_wait (fuel : nat) (count last_acked_ops : Z) : M unit :=
  s <- get ;;
  if _acked_ops s <? _op_cnt s then
    match fuel with
    | O => out_of_fuel
    | S fuel' =>
        (if negb (last_acked_ops =? _acked_ops s)
         then log_msg DEBUG "Waiting for missing acks: %u/%u" else ret tt) ;;
        let last_acked_ops := _acked_ops s in
        let count := count + 1 in
        (if timed_out (_timeout s) count
         then raise (TestFailure
           "Timeout of %u clock cycles reached when waiting for reply from slave")
         else ret tt) ;;
        clock_event ;;
        close_wait fuel' count last_acked_ops
    end
  else ret tt.

Definition _close_cycle : M unit :=
  s <- get ;;
  close_wait (S (List.length (pending s))) 0 0 ;;
  modify (set_busy false) ;;
  modify (set_busy_event true) ;;
  drive_sig Bus.set_cyc 0 ;;
  log_msg DEBUG "Closing cycle" ;;
  clock_event.

Fixpoint stall_wait (fuel : nat) (count : Z) : M Z :=
  s <- get ;;
  if Bus.stall (now s) =? 1 then
    match fuel with
    | O => out_of_fuel
    | S fuel' =>
        clock_event ;;
        let count := count + 1 in
        s <- get ;;
        if timed_out (_timeout s) count
        then raise (TestFailure
          "Timeout of %u clock cycles reached when on stall from slave")
        else stall_wait fuel' count
    end
  else ret count.

Definition _wait_stall : M Z :=
  s <- get ;;
  if Bus.has_stall (shape s) then
    count <- stall_wait (S (List.length (pending s))) 0 ;;
    log_msg DEBUG "Stalled for %u cycles" ;;
    ret count
  else ret 0.

Fixpoint ack_wait (fuel : nat) (count : Z) : M Z :=
  r <- get_reply ;;
  if negb (fst r) then
    match fuel with
    | O => out_of_fuel
    | S fuel' => clock_event ;; ack_wait fuel' (count + 1)
    end
  else ret count.

Definition _wait_ack : M Z :=
  s <- get ;;
  if negb (Bus.has_stall (shape s)) then
    count <- ack_wait (S (List.length (pending s))) 0 ;;
    log_msg DEBUG "Waited %u cycles for ackknowledge" ;;
    ret count
  else ret 0.

(** [while idlecnt > 0: idlecnt -= 1; yield self.bus.clock_event] *)
Fixpoint idle_wait (idlecnt : nat) : M unit :=
  match idlecnt with
  | O => ret tt
  | S idlecnt' => clock_event ;; idle_wait idlecnt'
  end.

Definition _drive (we adr datwr sel : Z) (idle : option Z) : M unit :=
  s <- get ;;
  if busy s then
    (match idle with
     | Some idlecnt => idle_wait (Z.to_nat idlecnt)
     | None => ret tt
     end) ;;
    drive_sig Bus.set_stb 1 ;;
    drive_sig Bus.set_adr adr ;;
    drive_sig Bus.set_sel sel ;;
    drive_sig Bus.set_datwr datwr ;;
    drive_sig Bus.set_we we ;;
    clock_event ;;
    stalled <- _wait_stall ;;
    modify (fun s =>
      set_aux_buf (_aux_buf s ++
                   [WBAux.mk sel adr datwr stalled idle (_clk_cycle_count s)]) s) ;;
    _wait_ack ;;
    drive_sig Bus.set_stb 0 ;;
    drive_sig Bus.set_we 0
  else log_msg ERROR "Cannot drive the Wishbone bus outside a cycle!".

Definition usage_fault : exn :=
  TestFailure "Sorry, argument must be a list of WBOp (Wishbone Operation) objects!".

(** [we, dat] as [send_cycle] derives them from an operation. *)
Definition we_of (op : WBOp.t) : Z :=
  match WBOp.dat op with Some _ => 1 | None => 0 end.
Definition dat_of (op : WBOp.t) : Z :=
  match WBOp.dat op with Some d => d | None => 0 end.

(** The body of [for op in arg]. *)
Fixpoint drive_ops (cnt : Z) (items : list pyval) : M unit :=
  match items with
  | [] => ret tt
  | PyWBOp op :: rest =>
      _drive (we_of op) (WBOp.adr op) (dat_of op) (WBOp.sel op) (WBOp.idle op) ;;
      (* the debug line formats [op.idle] with [%3u] *)
      (match WBOp.idle op with
       | Some _ => log_msg DEBUG "#%3u WE: %s ADR: 0x%08x DAT: 0x%08x SEL: 0x%1x IDLE: %3u"
       | None => raise (TypeError "%u format: a number is required, not NoneType")
       end) ;;
      drive_ops (cnt + 1) rest
  | _ :: _ => raise usage_fault
  end.

(** The body of [for res, aux in zip(self._res_buf, self._aux_buf)]. *)
Definition mix (ra : WBRes.t * WBAux.t) : WBRes.t :=
  let (res, aux) := ra in
  WBRes.mk (WBRes.ack res) (Some (WBAux.sel aux)) (Some (WBAux.adr aux))
           (WBRes.datrd res) (Some (WBAux.datwr aux)) (WBAux.waitIdle aux)
           (Some (WBAux.waitStall aux)) (WBRes.waitAck res - WBAux.ts aux).

Definition pick_and_mix (res_buf : list WBRes.t) (aux_buf : list WBAux.t)
  : list WBRes.t :=
  map mix (combine res_buf aux_buf).

Definition send_cycle (arg : pyval) : M (list WBRes.t) :=
  clock_event ;;
  if is_sequence arg then
    match py_len arg with
    | None => raise (TypeError "object has no len()")
    | Some n =>
        modify (set_op_cnt n) ;;
        if n <? 1 then
          log_msg ERROR "List contains no operations to carry out" ;;
          (* [result] is only bound in the other branch *)
          raise (UnboundLocalError "result")
        else
          _open_cycle ;;
          drive_ops 0 (py_iter arg) ;;
          _close_cycle ;;
          s <- get ;;
          let result := pick_and_mix (_res_buf s) (_aux_buf s) in
          (* the results are the objects of [_res_buf], updated in place *)
          modify (set_res_buf
                    (result ++ skipn (List.length result) (_res_buf s))) ;;
          ret result
    end
  else raise usage_fault.

(** ** cocotb/monitor.py *)

Module Monitor.
Section Sink.
(** [T]: the transactions; [W]: whatever the callbacks act upon. *)
Variables T W : Type.

(** Modelled from the spec: [cocotb.triggers.Event] (not part of the
    sources), the readiness event of the transaction sink: [set] fires it
    and stores the data, [clear] re-arms it and keeps the data. *)
Record Event : Type := mk_event { fired : bool; data : option T }.

Definition Event_new : Event := mk_event false None.
Definition Event_set (d : T) (ev : Event) : Event := mk_event true (Some d).
Definition Event_clear (ev : Event) : Event := mk_event false (data ev).

(** A registered callable; it may raise. *)
Record callback : Type := mk_callback
  { name : string; call : T -> W -> exn + W }.

Record t : Type := mk
  { _event : option Event;
    _wait_event : option Event;
    _recvQ : list T;
    _callbacks : list callback;
    received_transactions : Z;       (* [self.stats.received_transactions] *)
    consumers : W;
    invoked : list (string * T) }.   (* the calls made, oldest first *)

(** [Monitor.__init__] *)
Definition init (event : option Event) (cb : option callback) (w : W) : t :=
  mk event (Some Event_new) []
     (match cb with Some c => [c] | None => [] end) 0 w [].

Definition add_callback (cb : callback) (m : t) : t :=
  mk (_event m) (_wait_event m) (_recvQ m) (_callbacks m ++ [cb])
     (received_transactions m) (consumers m) (invoked m).

(** [for callback in self._callbacks: callback(transaction)] *)
Fixpoint run_callbacks (transaction : T) (cbs : list callback)
         (w : W) (calls : list (string * T)) : exn + (W * list (string * T)) :=
  match cbs with
  | [] => inr (w, calls)
  | cb :: rest =>
      match call cb transaction w with
      | inl e => inl e
      | inr w' => run_callbacks transaction rest w' (calls ++ [(name cb, transaction)])
      end
  end.

Definition _recv (transaction : T) (m : t) : exn + t :=
  let n := received_transactions m + 1 in
  match run_callbacks transaction (_callbacks m) (consumers m) (invoked m) with
  | inl e => inl e
  | inr (w, calls) =>
      let q := match _callbacks m with
               | [] => _recvQ m ++ [transaction]
               | _ :: _ => _recvQ m
               end in
      let ev := match _event m with
                | Some ev => Some (Event_set transaction ev)
                | None => None
                end in
      let wev := match _wait_event m with
                 | Some ev => Some (Event_clear (Event_set transaction ev))
                 | None => None
                 end in
      inr (mk ev wev q (_callbacks m) n w calls)
  end.
End Sink.
Arguments fired {T} _.
Arguments data {T} _.
Arguments Event_new {T}.
Arguments Event_set {T} _ _.
Arguments Event_clear {T} _.
Arguments name {T W} _.
Arguments call {T W} _ _ _.
Arguments _event {T W} _.
Arguments _wait_event {T W} _.
Arguments _recvQ {T W} _.
Arguments _callbacks {T W} _.
Arguments received_transactions {T W} _.
Arguments consumers {T W} _.
Arguments invoked {T W} _.
Arguments init {T W} _ _ _.
Arguments add_callback {T W} _ _.
Arguments run_callbacks {T W} _ _ _ _.
Arguments _recv {T W} _ _.
End Monitor.

(** ** cocotbext/avalon/monitor.py *)

Module Avalon.

(** Modelled from the spec: the protocol value model ([BinaryValue], not
    part of the sources): a binary string, most significant bit first, whose
    characters are 0, 1 or unresolvable (x, z, u, w), with its [buff] view. *)
Inductive bit : Type := b0 | b1 | bX.

Definition binstr : Type := list bit.

Definition resolved (b : bit) : bool :=
  match b with bX => false | _ => true end.

(** [BinaryValue.is_resolvable] *)
Definition is_resolvable (v : binstr) : bool := forallb resolved v.

Definition bit_val (b : bit) : Z := match b with b1 => 1 | _ => 0 end.

Definition int_of (v : binstr) : Z :=
  fold_left (fun acc b => 2 * acc + bit_val b) v 0.

Fixpoint chunk8 (fuel : nat) (v : binstr) : list Z :=
  match fuel, v with
  | S fuel', _ :: _ => int_of (firstn 8 v) :: chunk8 fuel' (skipn 8 v)
  | _, _ => []
  end.

(** [BinaryValue.buff]: pad on the left to whole bytes, one character per
    8 bits, in string order when [big_endian], reversed otherwise;
    resolving an unresolvable bit raises [ValueError]. *)
Definition buff (big_endian : bool) (v : binstr) : exn + list Z :=
  if is_resolvable v then
    let pad := ((8 - List.length v mod 8) mod 8)%nat in
    let bytes := chunk8 (List.length v) (repeat b0 pad ++ v) in
    inr (if big_endian then bytes else rev bytes)
  else inl (ValueError "Unable to resolve to binary").

(** [self.config] as [_monitor_recv] reads it, with [len(self.bus.data)]
    and the optional signals the bus has. *)
Record config : Type := mk_config
  { dataBitsPerSymbol : nat;
    firstSymbolInHighOrderBits : bool;
    maxChannel : Z;
    readyLatency : Z;
    invalidTimeout : Z;
    data_width : nat;
    has_ready : bool;           (* [hasattr(self.bus, 'ready')] *)
    has_channel : bool;         (* [hasattr(self.bus, 'channel')] *)
    report_channel : bool }.

(** [num_data_symbols > 1], for a positive symbol width. *)
Definition useEmpty (cfg : config) : bool :=
  ((0 <? dataBitsPerSymbol cfg) && (dataBitsPerSymbol cfg <? data_width cfg))%nat.

(** What the monitor reads at one clock edge, after [ReadOnly]. *)
Record sample : Type := mk_sample
  { reset_n : option Z;         (* [None]: no such handle *)
    reset : option Z;
    valid : bool;               (* truth value of [self.bus.valid.value] *)
    ready : bool;
    startofpacket : bool;
    endofpacket : bool;
    data : binstr;
    empty : nat;                (* [self.bus.empty.value.integer] *)
    channel : Z }.

(** [BusMonitor.in_reset] *)
Definition in_reset (smp : sample) : bool :=
  match reset_n smp with
  | Some v => negb (negb (v =? 0))
  | None =>
      match reset smp with
      | Some v => negb (v =? 0)
      | None => false
      end
  end.

(** The local [valid()] of [_monitor_recv]. *)
Definition is_valid (cfg : config) (smp : sample) : bool :=
  if has_ready cfg then valid smp && ready smp else valid smp.

Inductive transaction : Type :=
| Packet (pkt : list Z)                                (* [self._recv(pkt)] *)
| PacketOnChannel (pkt : list Z) (channel : option Z). (* the dict *)

(** The locals of [_monitor_recv]. *)
Record state : Type := mk_state
  { pkt : list Z;
    in_pkt : bool;
    invalid_cyclecount : Z;
    cur_channel : option Z;     (* the local [channel] *)
    empty_bound : bool }.       (* the local [empty] has been assigned *)

Definition initial : state := mk_state [] false 0 None false.

(** [value[:-n]] and [value[n:]] of Python, for [n >= 0]. *)
Definition drop_last (n : nat) (v : binstr) : binstr :=
  match n with
  | O => []
  | _ => firstn (List.length v - n) v
  end.
Definition drop_first (n : nat) (v : binstr) : binstr := skipn n v.

(** [if self.bus.startofpacket.value: ...] *)
Definition on_startofpacket (smp : sample) (st : state) : exn + state :=
  if startofpacket smp then
    match pkt st with
    | _ :: _ => inl (AvalonProtocolError "Duplicate start-of-packet received on %s")
    | [] => inr (mk_state [] true (invalid_cyclecount st) (cur_channel st)
                          (empty_bound st))
    end
  else inr st.

Definition masks (cfg : config) (smp : sample) : bool :=
  useEmpty cfg && negb (empty smp =? 0)%nat.

(** The [value] handed to [vec.assign] on an end-of-packet cycle. *)
Definition masked (cfg : config) (smp : sample) : binstr :=
  let value := data smp in
  if masks cfg smp then
    let empty := (empty smp * dataBitsPerSymbol cfg)%nat in
    if firstSymbolInHighOrderBits cfg
    then drop_last empty value
    else drop_first empty value
  else value.

(** "Handle empty and X's in empty / data": the [vec] of this cycle.  The
    message of the exception formats the local [empty], which is assigned
    only where a word is masked: it is bound if this cycle masks or an
    earlier end of packet did. *)
Definition data_word (cfg : config) (smp : sample) (st : state) : exn + binstr :=
  if negb (endofpacket smp) then inr (data smp)
  else
    let value := masked cfg smp in
    if negb (is_resolvable value) then
      if masks cfg smp || empty_bound st
      then inl (AvalonProtocolError
                  "After empty masking value is still bad?  Had empty {:d}, got value {:s}")
      else inl (UnboundLocalError "empty")
    else inr value.

(** [if hasattr(self.bus, 'channel'): ...] *)
Definition on_channel (cfg : config) (smp : sample) (st : state) : exn + state :=
  if has_channel cfg then
    match cur_channel st with
    | None =>
        let channel := channel smp in
        if channel >? maxChannel cfg
        then inl (AvalonProtocolError
                    "Channel value (%d) is greater than maxChannel (%d)")
        else inr (mk_state (pkt st) (in_pkt st) (invalid_cyclecount st)
                           (Some channel) (empty_bound st))
    | Some c =>
        if negb (channel smp =? c)
        then inl (AvalonProtocolError "Channel value changed during packet")
        else inr st
    end
  else inr st.

(** [if self.bus.endofpacket.value: ...] *)
Definition on_endofpacket (cfg : config) (smp : sample) (st : state)
  : state * option transaction :=
  if endofpacket smp then
    (mk_state [] false (invalid_cyclecount st) None (empty_bound st),
     Some (if report_channel cfg
           then PacketOnChannel (pkt st) (cur_channel st)
           else Packet (pkt st)))
  else (st, None).

(** The branch [if valid(): ...]. *)
Definition on_valid (cfg : config) (smp : sample) (st : state)
  : exn + (state * option transaction) :=
  let st := mk_state (pkt st) (in_pkt st) 0 (cur_channel st) (empty_bound st) in
  match on_startofpacket smp st with
  | inl e => inl e
  | inr st =>
      if negb (in_pkt st)
      then inl (AvalonProtocolError "Data transfer outside of packet")
      else
        match data_word cfg smp st with
        | inl e => inl e
        | inr vec =>
            match buff (firstSymbolInHighOrderBits cfg) vec with
            | inl e => inl e
            | inr bytes =>
                let st := mk_state (pkt st ++ bytes) (in_pkt st)
                                   (invalid_cyclecount st) (cur_channel st)
                                   (empty_bound st
                                    || (endofpacket smp && masks cfg smp)) in
                match on_channel cfg smp st with
                | inl e => inl e
                | inr st => inr (on_endofpacket cfg smp st)
                end
            end
        end
  end.

(** The branch [else: if in_pkt: ...]. *)
Definition on_invalid (cfg : config) (st : state)
  : exn + (state * option transaction) :=
  if in_pkt st then
    let invalid_cyclecount := invalid_cyclecount st + 1 in
    if negb (invalidTimeout cfg =? 0)
       && (invalid_cyclecount >=? invalidTimeout cfg)
    then inl (AvalonProtocolError
                "In-Packet Timeout. Didn't receive any valid data for %d cycles!")
    else inr (mk_state (pkt st) (in_pkt st) invalid_cyclecount (cur_channel st)
                       (empty_bound st),
              None)
  else inr (st, None).

(** One turn of [while True] in [_monitor_recv], at one clock edge. *)
Definition edge (cfg : config) (smp : sample) (st : state)
  : exn + (state * option transaction) :=
  if in_reset smp then inr (st, None)
  else if is_valid cfg smp then on_valid cfg smp st
  else on_invalid cfg st.

(** [_monitor_recv] over the edges of a simulation, handing every packet to
    [Monitor._recv]. *)
Fixpoint _monitor_recv {W : Type} (cfg : config) (smps : list sample)
         (st : state) (m : Monitor.t transaction W)
  : exn + (state * Monitor.t transaction W) :=
  match smps with
  | [] => inr (st, m)
  | smp :: rest =>
      match edge cfg smp st with
      | inl e => inl e
      | inr (st', None) => _monitor_recv cfg rest st' m
      | inr (st', Some tr) =>
          match Monitor._recv tr m with
          | inl e => inl e
          | inr m' => _monitor_recv cfg rest st' m'
          end
      end
  end.

(** The states the loop can be in at the top of a turn, on a bus whose data
    signal is [data_width cfg] bits wide. *)
Inductive reachable (cfg : config) : state -> Prop :=
| reach_initial : reachable cfg initial
| reach_edge : forall smp st st' tr,
    reachable cfg st ->
    List.length (data smp) = data_width cfg ->
    edge cfg smp st = inr (st', tr) ->
    reachable cfg st'.
End Avalon.

(** * Properties *)

(** ** The monad of the driver *)

Ltac unfold_monad :=
  unfold bind, ret, get, modify, raise, log_msg, drive_sig, out_of_fuel in *.

Lemma bind_ret {A B : Type} (m : M A) (k : A -> M B) s b s' :
  bind m k s = Ret b s' ->
  exists a s1, m s = Ret a s1 /\ k a s1 = Ret b s'.
Proof.
  unfold bind. destruct (m s) as [a s1| | | |]; try discriminate.
  intros H. exists a, s1. split; [reflexivity | exact H].
Qed.

Lemma bind_eq {A B : Type} (m : M A) (k : A -> M B) s a s1 :
  m s = Ret a s1 -> bind m k s = k a s1.
Proof. unfold bind. intros ->. reflexivity. Qed.

(** ** Reply arbitration *)

(** The three reply lines as [_get_reply] tests them. *)
Definition ack_line (i : Bus.inp) : bool := Bus.ack i =? 1.
Definition err_line (sh : Bus.shape) (i : Bus.inp) : bool :=
  Bus.has_err sh && (Bus.err i =? 1).
Definition rty_line (sh : Bus.shape) (i : Bus.inp) : bool :=
  Bus.has_rty sh && (Bus.rty i =? 1).

(** C3: [_get_reply] reports code 0 when none of ack, err, rty is asserted,
    the code of the line (1, 2, 3) when exactly one is, and raises a test
    failure whenever two of them are asserted together; the reply collector
    [_read] of an open cycle ends the test with that failure. *)
Theorem get_reply_one_line_per_edge (sh : Bus.shape) (i : Bus.inp) :
  _get_reply sh i =
    match ack_line i, err_line sh i, rty_line sh i with
    | false, false, false => inr (false, 0)
    | true, false, false => inr (true, 1)
    | false, true, false => inr (true, 2)
    | false, false, true => inr (true, 3)
    | true, true, _ => inl (TestFailure "Slave raised ACK and ERR line")
    | true, false, true => inl (TestFailure "Slave raised ACK and RTY line")
    | false, true, true => inl (TestFailure "Slave raised ERR and RTY line")
    end
  /\ (forall s e, busy s = true -> _get_reply (shape s) (now s) = inl e ->
                  _read s = Raise e s).
Proof.
  split.
  - unfold _get_reply, ack_line, err_line, rty_line.
    destruct (Bus.ack i =? 1), (Bus.has_err sh && (Bus.err i =? 1)),
      (Bus.has_rty sh && (Bus.rty i =? 1)); reflexivity.
  - intros s e Hb He. unfold _read, get_reply. unfold_monad.
    rewrite Hb, He. reflexivity.
Qed.

(** ** Driving outside a cycle *)

(** C10: while no cycle is open, [_drive] waits for no clock edge and assigns
    no bus signal; it only logs an error. *)
Theorem drive_outside_cycle (we adr datwr sel : Z) (idle : option Z) (s : master) :
  busy s = false ->
  exists s',
    _drive we adr datwr sel idle s = Ret tt s'
    /\ s' = set_log (log s ++ [(ERROR,
             "Cannot drive the Wishbone bus outside a cycle!"%string)]) s
    /\ bus s' = bus s
    /\ edges s' = edges s
    /\ pending s' = pending s.
Proof.
  intros Hb. eexists. split.
  - unfold _drive. unfold_monad. rewrite Hb. reflexivity.
  - repeat split.
Qed.

(** ** The transaction sink *)

Section SinkProperties.
Context {T W : Type}.

Lemma run_callbacks_returns (tr : T) (cbs : list (Monitor.callback T W)) :
  (forall cb w, In cb cbs -> exists w', Monitor.call cb tr w = inr w') ->
  forall w calls, exists w',
    Monitor.run_callbacks tr cbs w calls
    = inr (w', calls ++ map (fun cb => (Monitor.name cb, tr)) cbs).
Proof.
  induction cbs as [|cb rest IH]; intros Hall w calls; simpl.
  - exists w. now rewrite app_nil_r.
  - destruct (Hall cb w (or_introl eq_refl)) as [w1 Hw1]. rewrite Hw1.
    destruct (IH (fun c w0 Hin => Hall c w0 (or_intror Hin)) w1
                 (calls ++ [(Monitor.name cb, tr)])) as [w2 Hw2].
    exists w2. rewrite Hw2, <- app_assoc. reflexivity.
Qed.

(** What the callbacks, called in turn with the transaction, make of what
    they act upon; an exception of one of them ends the turn. *)
Definition called_in_turn (tr : T) (cbs : list (Monitor.callback T W)) (w : W)
  : exn + W :=
  fold_left (fun acc cb => match acc with
                           | inr w => Monitor.call cb tr w
                           | inl e => inl e
                           end)
            cbs (inr w).

Lemma run_callbacks_in_turn (tr : T) (cbs : list (Monitor.callback T W)) :
  forall w calls w' calls',
    Monitor.run_callbacks tr cbs w calls = inr (w', calls') ->
    called_in_turn tr cbs w = inr w'.
Proof.
  unfold called_in_turn.
  induction cbs as [|cb rest IH]; intros w calls w' calls' H; simpl in *.
  - injection H as <- _. reflexivity.
  - destruct (Monitor.call cb tr w) as [e|w1]; [discriminate|].
    eapply IH. exact H.
Qed.

(** C9: when the registered callbacks return, [_recv] invokes each of them
    with the transaction, in the order of registration, each acting on what
    the one before it left; it queues the transaction exactly when no
    callback is registered, sets the wait event with the transaction as its
    data and counts one more received transaction. *)
Theorem recv_sink (tr : T) (m : Monitor.t T W) :
  (forall cb w, In cb (Monitor._callbacks m) ->
                exists w', Monitor.call cb tr w = inr w') ->
  exists m',
    Monitor._recv tr m = inr m'
    /\ Monitor.invoked m'
       = Monitor.invoked m ++ map (fun cb => (Monitor.name cb, tr)) (Monitor._callbacks m)
    /\ called_in_turn tr (Monitor._callbacks m) (Monitor.consumers m)
       = inr (Monitor.consumers m')
    /\ (Monitor._callbacks m = [] -> Monitor._recvQ m' = Monitor._recvQ m ++ [tr])
    /\ (Monitor._callbacks m <> [] -> Monitor._recvQ m' = Monitor._recvQ m)
    /\ (forall ev, Monitor._wait_event m = Some ev ->
          Monitor._wait_event m' = Some (Monitor.Event_clear (Monitor.Event_set tr ev))
          /\ Monitor.data (Monitor.Event_set tr ev) = Some tr
          /\ Monitor.fired (Monitor.Event_set tr ev) = true)
    /\ Monitor.received_transactions m' = Monitor.received_transactions m + 1.
Proof.
  intros Hall.
  destruct (run_callbacks_returns tr (Monitor._callbacks m) Hall
              (Monitor.consumers m) (Monitor.invoked m)) as [w' Hrun].
  pose proof (run_callbacks_in_turn _ _ _ _ _ _ Hrun) as Hturn.
  unfold Monitor._recv. rewrite Hrun. eexists. split; [reflexivity|].
  cbn. repeat split.
  - exact Hturn.
  - intros ->. reflexivity.
  - destruct (Monitor._callbacks m); [congruence | reflexivity].
  - rewrite H. reflexivity.
Qed.
End SinkProperties.

(** ** Packet framing of the Avalon-ST monitor *)

Section Framing.
Import Avalon.

Lemma buff_nonempty (big_endian : bool) (v : binstr) (bytes : list Z) :
  v <> [] -> buff big_endian v = inr bytes -> bytes <> [].
Proof.
  unfold buff. intros Hv. destruct (is_resolvable v); [|discriminate].
  generalize ((8 - List.length v mod 8) mod 8)%nat. intros pad Heq.
  assert (Hc : exists y l, chunk8 (List.length v) (repeat b0 pad ++ v) = y :: l).
  { destruct v as [|x v']; [congruence|]. destruct pad; simpl; eauto. }
  destruct Hc as (y & l & Hc). rewrite Hc in Heq.
  destruct big_endian; injection Heq as <-; [discriminate|].
  simpl. intros Hrev. apply app_eq_nil in Hrev. destruct Hrev; discriminate.
Qed.

(** What holds of the locals at the top of every turn of the loop. *)
Definition framed (st : state) : Prop :=
  if in_pkt st then pkt st <> [] else pkt st = [] /\ cur_channel st = None.

Lemma on_valid_inr (cfg : config) (smp : sample) (st st' : state) tr :
  on_valid cfg smp st = inr (st', tr) ->
  exists st1 vec bytes st2,
    on_startofpacket smp (mk_state (pkt st) (in_pkt st) 0 (cur_channel st)
                                   (empty_bound st)) = inr st1
    /\ in_pkt st1 = true
    /\ data_word cfg smp st1 = inr vec
    /\ buff (firstSymbolInHighOrderBits cfg) vec = inr bytes
    /\ on_channel cfg smp (mk_state (pkt st1 ++ bytes) (in_pkt st1)
                                    (invalid_cyclecount st1) (cur_channel st1)
                                    (empty_bound st1
                                     || (endofpacket smp && masks cfg smp)))
       = inr st2
    /\ on_endofpacket cfg smp st2 = (st', tr).
Proof.
  unfold on_valid.
  destruct (on_startofpacket smp _) as [e|st1] eqn:Hsop; [discriminate|].
  destruct (in_pkt st1) eqn:Hin; [|discriminate]. cbn [negb].
  destruct (data_word cfg smp st1) as [e|vec] eqn:Hw; [discriminate|].
  destruct (buff _ vec) as [e|bytes] eqn:Hb; [discriminate|].
  destruct (on_channel cfg smp _) as [e|st2] eqn:Hc; [discriminate|].
  intros H.
  exists st1, vec, bytes, st2. rewrite Hin. repeat split; auto. congruence.
Qed.

Lemma on_channel_frame (cfg : config) (smp : sample) (st st' : state) :
  on_channel cfg smp st = inr st' ->
  pkt st' = pkt st /\ in_pkt st' = in_pkt st
  /\ invalid_cyclecount st' = invalid_cyclecount st
  /\ (cur_channel st = None ->
      cur_channel st' = if has_channel cfg then Some (channel smp) else None).
Proof.
  unfold on_channel. destruct (has_channel cfg).
  - destruct (cur_channel st) as [c|] eqn:Hc.
    + destruct (negb (channel smp =? c)); [discriminate|].
      intros H; injection H as <-. repeat split; congruence.
    + destruct (channel smp >? maxChannel cfg); [discriminate|].
      intros H; injection H as <-. repeat split; reflexivity.
  - intros H; injection H as <-. repeat split; auto.
Qed.

Lemma reachable_framed (cfg : config) (st : state) :
  (0 < data_width cfg)%nat -> reachable cfg st -> framed st.
Proof.
  intros Hw Hr. induction Hr as [|smp st st' tr Hr IH Hlen Hedge].
  - unfold framed; simpl; auto.
  - unfold edge in Hedge. destruct (in_reset smp).
    { injection Hedge as <- _. exact IH. }
    destruct (is_valid cfg smp).
    + apply on_valid_inr in Hedge.
      destruct Hedge as (st1 & vec & bytes & st2 & Hsop & Hin & Hword & Hbuff & Hch & Heop).
      apply on_channel_frame in Hch. cbn in Hch.
      destruct Hch as (Hpkt & Hinp & _ & _).
      unfold on_endofpacket in Heop.
      destruct (endofpacket smp) eqn:He.
      * injection Heop as <- _. unfold framed; simpl; auto.
      * injection Heop as <- _. unfold framed. rewrite Hinp, Hin, Hpkt.
        unfold data_word in Hword. rewrite He in Hword. cbn in Hword.
        injection Hword as <-.
        assert (Hne : data smp <> []).
        { intros Hnil. rewrite Hnil in Hlen. simpl in Hlen. lia. }
        pose proof (buff_nonempty _ _ _ Hne Hbuff) as Hb.
        intros Happ. apply app_eq_nil in Happ. tauto.
    + unfold on_invalid in Hedge. unfold framed in *.
      destruct (in_pkt st) eqn:Hin.
      * destruct (_ && _); [discriminate|].
        injection Hedge as <- _. simpl. exact IH.
      * injection Hedge as <- _. rewrite Hin. exact IH.
Qed.

(** C6: on a valid cycle of a monitor out of reset, a start-of-packet while
    a packet is open is a fatal duplicate start, a transfer without
    start-of-packet while no packet is open is fatal, and a start-of-packet
    while idle opens a packet with an empty accumulator and no channel
    latched, so that the cycle's own word is the first of the packet; hence
    a turn that goes through with start-of-packet started from idle. *)
Theorem one_packet_at_a_time (cfg : config) (smp : sample) (st : state) :
  (0 < data_width cfg)%nat ->
  reachable cfg st ->
  in_reset smp = false ->
  is_valid cfg smp = true ->
  (startofpacket smp = true -> in_pkt st = true ->
   edge cfg smp st
   = inl (AvalonProtocolError "Duplicate start-of-packet received on %s"))
  /\ (startofpacket smp = false -> in_pkt st = false ->
      edge cfg smp st = inl (AvalonProtocolError "Data transfer outside of packet"))
  /\ (startofpacket smp = true -> in_pkt st = false ->
      on_startofpacket smp (mk_state (pkt st) (in_pkt st) 0 (cur_channel st)
                                     (empty_bound st))
      = inr (mk_state [] true 0 None (empty_bound st))
      /\ forall st' tr, edge cfg smp st = inr (st', tr) -> endofpacket smp = false ->
           in_pkt st' = true
           /\ buff (firstSymbolInHighOrderBits cfg) (data smp) = inr (pkt st')
           /\ cur_channel st'
              = if has_channel cfg then Some (channel smp) else None)
  /\ (forall st' tr, startofpacket smp = true ->
                     edge cfg smp st = inr (st', tr) -> in_pkt st = false).
Proof.
  intros Hw Hr Hreset Hvalid.
  pose proof (reachable_framed cfg st Hw Hr) as Hf. unfold framed in Hf.
  assert (Hdup : startofpacket smp = true -> in_pkt st = true ->
                 edge cfg smp st
                 = inl (AvalonProtocolError "Duplicate start-of-packet received on %s")).
  { intros Hsop Hin. rewrite Hin in Hf.
    unfold edge. rewrite Hreset, Hvalid. unfold on_valid, on_startofpacket.
    rewrite Hsop. cbn. destruct (pkt st); [congruence | reflexivity]. }
  split; [exact Hdup|]. split; [|split].
  - intros Hsop Hin. unfold edge. rewrite Hreset, Hvalid.
    unfold on_valid, on_startofpacket. rewrite Hsop. cbn. rewrite Hin. reflexivity.
  - intros Hsop Hin. rewrite Hin in Hf. destruct Hf as [Hpkt Hch].
    assert (Hopen : on_startofpacket smp (mk_state (pkt st) (in_pkt st) 0 (cur_channel st)
                                                   (empty_bound st))
                    = inr (mk_state [] true 0 None (empty_bound st))).
    { unfold on_startofpacket. rewrite Hsop. cbn. rewrite Hpkt, Hch. reflexivity. }
    split; [exact Hopen|].
    intros st' tr Hedge Heop. unfold edge in Hedge. rewrite Hreset, Hvalid in Hedge.
    apply on_valid_inr in Hedge.
    destruct Hedge as (st1 & vec & bytes & st2 & Hsop' & _ & Hword & Hbuff & Hc & He).
    rewrite Hopen in Hsop'. injection Hsop' as <-.
    unfold data_word in Hword. rewrite Heop in Hword. cbn in Hword.
    injection Hword as <-.
    apply on_channel_frame in Hc. cbn in Hc. destruct Hc as (Hp & Hi & _ & Hcc).
    unfold on_endofpacket in He. rewrite Heop in He. injection He as <- _.
    rewrite Hi, Hp, Hbuff, (Hcc eq_refl). auto.
  - intros st' tr Hsop Hedge. destruct (in_pkt st) eqn:Hin; [|reflexivity].
    rewrite (Hdup Hsop eq_refl) in Hedge. discriminate.
Qed.
End Framing.

(** ** Invalid cycles and reset *)

Section InvalidCycles.
Import Avalon.

Definition timeout_error : exn :=
  AvalonProtocolError "In-Packet Timeout. Didn't receive any valid data for %d cycles!".

Definition counted (st : state) : state :=
  mk_state (pkt st) (in_pkt st) (invalid_cyclecount st + 1) (cur_channel st)
           (empty_bound st).

(** The timeout test read as "a positive timeout is exceeded". *)
Definition exceeded (cfg : config) (count : Z) : bool :=
  (0 <? invalidTimeout cfg) && (count >? invalidTimeout cfg).

(** The timeout test read as "a positive timeout is reached". *)
Definition reached (cfg : config) (count : Z) : bool :=
  (0 <? invalidTimeout cfg) && (count >=? invalidTimeout cfg).

(** The invalid in-packet turn as a monitor that fails once the timeout is
    exceeded would take it. *)
Definition fails_once_exceeded (cfg : config) (smp : sample) (st : state) : Prop :=
  edge cfg smp st
  = if exceeded cfg (invalid_cyclecount st + 1)
    then inl timeout_error
    else inr (counted st, None).

Definition timeout3 : config := mk_config 8 true 0 0 3 8 false false false.

Definition byte_12 : binstr := [b0; b0; b0; b1; b0; b0; b1; b0].

Definition first_word : sample :=
  mk_sample None None true true true false byte_12 0 0.

Definition no_word : sample :=
  mk_sample None None false true false false byte_12 0 0.

Definition two_invalid : state := mk_state [18] true 2 None false.

Lemma two_invalid_reachable : reachable timeout3 two_invalid.
Proof.
  assert (H0 : reachable timeout3 (mk_state [18] true 0 None false)).
  { eapply reach_edge with (smp := first_word);
      [apply reach_initial | reflexivity | reflexivity]. }
  assert (H1 : reachable timeout3 (mk_state [18] true 1 None false)).
  { eapply reach_edge with (smp := no_word); [exact H0 | reflexivity | reflexivity]. }
  eapply reach_edge with (smp := no_word); [exact H1 | reflexivity | reflexivity].
Qed.

(** With a timeout of 3, the third invalid cycle inside a packet is fatal
    although the counter, then 3, does not exceed the timeout. *)
Lemma invalid_timeout_fails_when_reached :
  reachable timeout3 two_invalid
  /\ in_reset no_word = false
  /\ is_valid timeout3 no_word = false
  /\ in_pkt two_invalid = true
  /\ exceeded timeout3 (invalid_cyclecount two_invalid + 1) = false
  /\ edge timeout3 no_word two_invalid = inl timeout_error
  /\ ~ fails_once_exceeded timeout3 no_word two_invalid.
Proof.
  split; [exact two_invalid_reachable|].
  repeat split; try reflexivity.
  unfold fails_once_exceeded. cbn. discriminate.
Qed.

(** C7 (amended): in reset the turn changes nothing; out of reset, an
    invalid cycle inside a packet increments the invalid-cycle counter and
    is fatal as soon as the counter has reached a positive timeout
    (counter >= timeout); a valid cycle that goes through leaves the
    counter at zero. *)
Theorem invalid_cycle_timeout (cfg : config) (smp : sample) (st : state) :
  (in_reset smp = true -> edge cfg smp st = inr (st, None))
  /\ (in_reset smp = false -> is_valid cfg smp = false -> in_pkt st = true ->
      0 <= invalidTimeout cfg ->
      edge cfg smp st
      = if reached cfg (invalid_cyclecount st + 1)
        then inl timeout_error
        else inr (counted st, None))
  /\ (in_reset smp = false -> is_valid cfg smp = true ->
      forall st' tr, edge cfg smp st = inr (st', tr) -> invalid_cyclecount st' = 0).
Proof.
  split; [|split].
  - intros Hr. unfold edge. rewrite Hr. reflexivity.
  - intros Hr Hv Hin Ht. unfold edge, on_invalid, reached, counted, timeout_error.
    rewrite Hr, Hv, Hin.
    replace (negb (invalidTimeout cfg =? 0)) with (0 <? invalidTimeout cfg).
    + reflexivity.
    + destruct (Z.eqb_spec (invalidTimeout cfg) 0) as [->|Hne]; [reflexivity|].
      cbn. apply Z.ltb_lt. lia.
  - intros Hr Hv st' tr Hedge. unfold edge in Hedge. rewrite Hr, Hv in Hedge.
    apply on_valid_inr in Hedge.
    destruct Hedge as (st1 & vec & bytes & st2 & Hsop & _ & _ & _ & Hc & He).
    apply on_channel_frame in Hc. cbn in Hc. destruct Hc as (_ & _ & Hcnt & _).
    assert (H1 : invalid_cyclecount st1 = 0).
    { unfold on_startofpacket in Hsop. cbn in Hsop.
      destruct (startofpacket smp).
      - destruct (pkt st); [|discriminate]. injection Hsop as <-. reflexivity.
      - injection Hsop as <-. reflexivity. }
    unfold on_endofpacket in He. destruct (endofpacket smp).
    + assert (Hst : st' = mk_state [] false (invalid_cyclecount st2) None
                                   (empty_bound st2)) by congruence.
      rewrite Hst. cbn. congruence.
    + assert (Hst : st' = st2) by congruence. congruence.
Qed.
End InvalidCycles.

(** ** Masking the empty symbols *)

Section EmptyMasking.
Import Avalon.

Lemma buff_resolvable (big_endian : bool) (v : binstr) :
  is_resolvable v = true -> exists bytes, buff big_endian v = inr bytes.
Proof. unfold buff. intros ->. eexists. reflexivity. Qed.


End EmptyMasking.

(** ** Clock edges as the driving coroutine sees them *)

(** What a clock edge leaves alone: the parked coroutines touch neither the
    bus outputs nor the auxiliary buffer, and they append to the reply buffer
    exactly when they count a reply. *)
Record evolves (s s' : master) : Prop := mk_evolves
  { ev_bus : bus s' = bus s;
    ev_shape : shape s' = shape s;
    ev_timeout : _timeout s' = _timeout s;
    ev_busy : busy s' = busy s;
    ev_aux : _aux_buf s' = _aux_buf s;
    ev_op_cnt : _op_cnt s' = _op_cnt s;
    ev_balance : Z.of_nat (List.length (_res_buf s')) - _acked_ops s'
                 = Z.of_nat (List.length (_res_buf s)) - _acked_ops s;
    ev_idle : busy s = false ->
              _res_buf s' = _res_buf s /\ _acked_ops s' = _acked_ops s }.

Lemma evolves_refl s : evolves s s.
Proof. constructor; auto. Qed.

Lemma evolves_trans s1 s2 s3 : evolves s1 s2 -> evolves s2 s3 -> evolves s1 s3.
Proof.
  intros [] []. constructor; try congruence.
  intros Hb. destruct (ev_idle0 Hb) as [? ?].
  assert (Hb2 : busy s2 = false) by congruence.
  destruct (ev_idle1 Hb2) as [? ?]. split; congruence.
Qed.

(** [keeps R m]: however [m] ends, it ends in an [R]-successor. *)
Definition keeps (R : master -> master -> Prop) {A : Type} (m : M A) : Prop :=
  forall s, R s (final_state (m s)).

(** [harmless m]: [m] never raises the usage fault. *)
Definition harmless {A : Type} (m : M A) : Prop :=
  forall s e s', m s = Raise e s' -> e <> usage_fault.

Section Keeps.
Variable R : master -> master -> Prop.
Hypothesis R_refl : forall s, R s s.
Hypothesis R_trans : forall s1 s2 s3, R s1 s2 -> R s2 s3 -> R s1 s3.

Lemma keeps_ret {A : Type} (a : A) : keeps R (ret a).
Proof. intros s. apply R_refl. Qed.

Lemma keeps_get : keeps R get.
Proof. intros s. apply R_refl. Qed.

Lemma keeps_raise {A : Type} (e : exn) : keeps R (@raise A e).
Proof. intros s. apply R_refl. Qed.

Lemma keeps_out_of_fuel {A : Type} : keeps R (@out_of_fuel A).
Proof. intros s. apply R_refl. Qed.

Lemma keeps_modify (f : master -> master) :
  (forall s, R s (f s)) -> keeps R (modify f).
Proof. intros H s. apply H. Qed.

Lemma keeps_bind {A B : Type} (m : M A) (k : A -> M B) :
  keeps R m -> (forall a, keeps R (k a)) -> keeps R (bind m k).
Proof.
  intros Hm Hk s. specialize (Hm s). unfold bind.
  destruct (m s) as [a s1| | | |]; cbn in *; auto.
  eapply R_trans; [exact Hm | apply Hk].
Qed.

Lemma keeps_get_bind {B : Type} (k : master -> M B) :
  (forall s, R s (final_state (k s s))) -> keeps R (bind get k).
Proof. intros H s. apply H. Qed.
End Keeps.

Lemma harmless_ret {A : Type} (a : A) : harmless (ret a).
Proof. intros s e s'. discriminate. Qed.

Lemma harmless_modify f : harmless (modify f).
Proof. intros s e s'. discriminate. Qed.

Lemma harmless_out_of_fuel {A : Type} : harmless (@out_of_fuel A).
Proof. intros s e s'. discriminate. Qed.

Lemma harmless_raise {A : Type} (e : exn) : e <> usage_fault -> harmless (@raise A e).
Proof. intros He s e' s' H. injection H as <- _. exact He. Qed.

Lemma harmless_bind {A B : Type} (m : M A) (k : A -> M B) :
  harmless m -> (forall a, harmless (k a)) -> harmless (bind m k).
Proof.
  intros Hm Hk s e s'. unfold bind.
  destruct (m s) as [a s1|e1 s1| | |] eqn:Hms; try discriminate.
  - apply Hk.
  - intros H. injection H as <- _. eapply Hm; eauto.
Qed.

Lemma harmless_get_bind {B : Type} (k : master -> M B) :
  (forall s, harmless (k s)) -> harmless (bind get k).
Proof. intros H s e s'. unfold bind, get. apply H. Qed.

Lemma get_reply_harmless : harmless get_reply.
Proof.
  intros s e s'. unfold get_reply, _get_reply.
  destruct (Bus.ack (now s) =? 1), (Bus.has_err (shape s) && (Bus.err (now s) =? 1)),
    (Bus.has_rty (shape s) && (Bus.rty (now s) =? 1)); cbn;
    intros H; try discriminate; injection H as <- _; discriminate.
Qed.

Lemma get_reply_keeps : keeps evolves get_reply.
Proof.
  intros s. unfold get_reply. destruct (_get_reply _ _); apply evolves_refl.
Qed.

Lemma read_keeps : keeps evolves _read.
Proof.
  intros s. unfold _read, get_reply. unfold_monad.
  destruct (busy s) eqn:Hb.
  - destruct (_get_reply (shape s) (now s)) as [e|[ack code]]; cbn.
    + apply evolves_refl.
    + destruct ack; cbn; constructor; cbn; auto; try congruence.
      rewrite length_app. cbn. lia.
  - cbn. constructor; cbn; auto.
Qed.

Lemma read_harmless : harmless _read.
Proof.
  unfold _read. apply harmless_get_bind. intros s0.
  destruct (busy s0); [|apply harmless_modify].
  apply harmless_bind; [apply get_reply_harmless|]. intros r.
  apply harmless_bind; [|intros; apply harmless_modify].
  destruct (fst r); [apply harmless_modify | apply harmless_ret].
Qed.

Lemma resume_parked_keeps : keeps evolves resume_parked.
Proof.
  unfold resume_parked.
  apply keeps_get_bind. intros s.
  apply (keeps_bind evolves evolves_trans).
  - destruct (reader_waiting s); [apply read_keeps | apply keeps_ret, evolves_refl].
  - intros _. apply keeps_get_bind. intros s1.
    destruct (counter_waiting s1); [|apply evolves_refl].
    unfold _clk_cycle_counter. unfold_monad. cbn. constructor; cbn; auto.
Qed.

Lemma resume_parked_harmless : harmless resume_parked.
Proof.
  unfold resume_parked. apply harmless_get_bind. intros s0.
  apply harmless_bind.
  - destruct (reader_waiting s0); [apply read_harmless | apply harmless_ret].
  - intros _. apply harmless_get_bind. intros s1.
    destruct (counter_waiting s1); [|apply harmless_ret].
    apply harmless_bind; [apply harmless_modify|]. intros _.
    unfold _clk_cycle_counter. apply harmless_get_bind. intros. apply harmless_modify.
Qed.

Lemma advance_evolves i rest s : evolves s (advance i rest s).
Proof. constructor; cbn; auto. Qed.

Lemma clock_event_keeps : keeps evolves clock_event.
Proof.
  intros s. unfold clock_event. destruct (pending s) as [|i rest].
  - apply evolves_refl.
  - eapply evolves_trans; [apply (advance_evolves i rest)|apply resume_parked_keeps].
Qed.

Lemma clock_event_harmless : harmless clock_event.
Proof.
  intros s e s'. unfold clock_event. destruct (pending s); [discriminate|].
  apply resume_parked_harmless.
Qed.

(** Where the simulation stands after an edge has been waited for. *)
Lemma resume_parked_time s a s' :
  resume_parked s = Ret a s' ->
  now s' = now s /\ pending s' = pending s /\ edges s' = edges s.
Proof.
  unfold resume_parked, _read, _clk_cycle_counter, get_reply. unfold_monad.
  destruct (reader_waiting s); [destruct (busy s)|].
  - destruct (_get_reply (shape s) (now s)) as [e|[ack code]]; [discriminate|].
    destruct ack; cbn; destruct (counter_waiting s); cbn;
      intros H; injection H as _ <-; cbn; auto.
  - cbn. destruct (counter_waiting s); cbn; intros H; injection H as _ <-; cbn; auto.
  - cbn. destruct (counter_waiting s); cbn; intros H; injection H as _ <-; cbn; auto.
Qed.

Lemma clock_event_time s a s' :
  clock_event s = Ret a s' ->
  pending s = now s' :: pending s' /\ edges s' = S (edges s).
Proof.
  unfold clock_event. destruct (pending s) as [|i rest]; [discriminate|].
  intros H. apply resume_parked_time in H. cbn in H.
  destruct H as (-> & -> & ->). auto.
Qed.

(** An edge whose reply lines do not conflict is waited for successfully. *)
Definition unambiguous (sh : Bus.shape) (i : Bus.inp) : Prop :=
  exists r, _get_reply sh i = inr r.

Lemma clock_event_runs s i rest :
  pending s = i :: rest ->
  unambiguous (shape s) i ->
  exists s', clock_event s = Ret tt s'.
Proof.
  intros Hp [r Hr]. unfold clock_event. rewrite Hp.
  unfold resume_parked, _read, _clk_cycle_counter, get_reply. unfold_monad.
  cbn -[_get_reply].
  destruct (reader_waiting s); cbn -[_get_reply];
    [destruct (busy s); cbn -[_get_reply];
     [rewrite Hr; cbn -[_get_reply]; destruct (fst r); cbn -[_get_reply]|]|];
    destruct (counter_waiting s); cbn; eexists; reflexivity.
Qed.

(** ** Stall handling *)

Definition stall_timeout : exn :=
  TestFailure "Timeout of %u clock cycles reached when on stall from slave".

Lemma gtb_false a b : a <= b -> (a >? b) = false.
Proof. intros H. rewrite Z.gtb_ltb. apply Z.ltb_ge. exact H. Qed.

Lemma gtb_true a b : b < a -> (a >? b) = true.
Proof. intros H. rewrite Z.gtb_ltb. apply Z.ltb_lt. exact H. Qed.

Lemma stall_wait_step fuel count s s1 :
  Bus.stall (now s) = 1 ->
  clock_event s = Ret tt s1 ->
  stall_wait (S fuel) count s
  = if timed_out (_timeout s1) (count + 1)
    then Raise stall_timeout s1
    else stall_wait fuel (count + 1) s1.
Proof.
  intros Hst Hck. cbn [stall_wait]. unfold bind at 1. unfold get at 1.
  rewrite Hst. cbn [Z.eqb Pos.eqb].
  rewrite (bind_eq _ _ _ _ _ Hck). unfold bind at 1. unfold get at 1.
  destruct (timed_out (_timeout s1) (count + 1)); reflexivity.
Qed.

Lemma stall_wait_done fuel count s :
  Bus.stall (now s) <> 1 -> stall_wait fuel count s = Ret count s.
Proof.
  intros Hst. apply Z.eqb_neq in Hst.
  destruct fuel; cbn [stall_wait]; unfold bind, get; rewrite Hst; reflexivity.
Qed.

Lemma stall_wait_counts (held : list Bus.inp) :
  forall s fuel count T last rest,
    _timeout s = Some T ->
    Bus.stall (now s) = 1 ->
    pending s = held ++ last :: rest ->
    (List.length held < fuel)%nat ->
    Forall (fun i => Bus.stall i = 1) held ->
    Forall (unambiguous (shape s)) (held ++ [last]) ->
    count + Z.of_nat (List.length held) <= T ->
    exists s',
      stall_wait fuel count s
      = (if count + Z.of_nat (List.length held) =? T then Raise stall_timeout s'
         else if Bus.stall last =? 1
              then stall_wait (fuel - S (List.length held))
                              (count + Z.of_nat (List.length held) + 1) s'
              else Ret (count + Z.of_nat (List.length held) + 1) s')
      /\ now s' = last /\ pending s' = rest
      /\ edges s' = (edges s + List.length held + 1)%nat
      /\ evolves s s'.
Proof.
  induction held as [|i held IH]; intros s fuel count T last rest Hto Hst Hp Hf Hheld Hun Hle.
  - cbn [app List.length] in *. destruct fuel as [|fuel]; [lia|].
    inversion Hun as [|? ? Hlast _]; subst.
    destruct (clock_event_runs s last rest Hp Hlast) as [s1 Hck].
    pose proof (clock_event_time _ _ _ Hck) as [Hpn He].
    pose proof (clock_event_keeps s) as Hev. rewrite Hck in Hev. cbn in Hev.
    rewrite Hp in Hpn. injection Hpn as Hn Hr.
    exists s1. rewrite (stall_wait_step _ _ _ _ Hst Hck).
    rewrite (ev_timeout _ _ Hev), Hto. unfold timed_out.
    replace (count + Z.of_nat 0) with count by lia.
    split; [|refine (conj _ (conj _ (conj _ _))); auto; try congruence; lia].
    destruct (Z.eqb_spec count T) as [->|Hne].
    + rewrite gtb_true by lia. reflexivity.
    + rewrite gtb_false by lia.
      destruct (Z.eqb_spec (Bus.stall last) 1) as [H1|H1].
      * replace (S fuel - 1)%nat with fuel by lia. reflexivity.
      * apply stall_wait_done. congruence.
  - cbn [app List.length] in *. destruct fuel as [|fuel]; [lia|].
    inversion Hheld as [|? ? Hi Hheld']; subst.
    inversion Hun as [|? ? Hui Hun']; subst.
    destruct (clock_event_runs s i _ Hp Hui) as [s1 Hck].
    pose proof (clock_event_time _ _ _ Hck) as [Hpn He].
    pose proof (clock_event_keeps s) as Hev. rewrite Hck in Hev. cbn in Hev.
    rewrite Hp in Hpn. injection Hpn as Hn Hr.
    rewrite (stall_wait_step _ _ _ _ Hst Hck).
    rewrite (ev_timeout _ _ Hev), Hto. unfold timed_out.
    rewrite gtb_false by lia.
    destruct (IH s1 fuel (count + 1) T last rest) as (s' & Hrun & Hnow & Hpend & Hedges & Hev');
      try (rewrite (ev_shape _ _ Hev)); auto; try congruence; try lia.
    + rewrite (ev_timeout _ _ Hev). exact Hto.
    + exists s'. rewrite Hrun.
      replace (count + 1 + Z.of_nat (List.length held))
        with (count + Z.of_nat (S (List.length held))) by lia.
      replace (fuel - S (List.length held))%nat
        with (S fuel - S (S (List.length held)))%nat by lia.
      split; [reflexivity|].
      refine (conj _ (conj _ (conj _ _))); auto; try lia.
      eapply evolves_trans; eauto.
Qed.

(** C5: on a bus with a stall signal and a timeout [T], [_wait_stall] waits
    one clock edge per sample at which stall is high, without touching the
    bus outputs (strobe stays asserted), and counts them; once stall has been
    sampled high [T + 1] times the count exceeds [T] and the stall timeout is
    raised at the [T + 1]-th edge waited for; if stall drops after fewer
    edges, the count of stalled cycles is returned. *)
Theorem wait_stall_timeout (s : master) (T : Z) (held : list Bus.inp)
        (last : Bus.inp) (rest : list Bus.inp) :
  Bus.has_stall (shape s) = true ->
  _timeout s = Some T ->
  Bus.stall (now s) = 1 ->
  pending s = held ++ last :: rest ->
  Forall (fun i => Bus.stall i = 1) held ->
  Forall (unambiguous (shape s)) (held ++ [last]) ->
  Z.of_nat (List.length held) <= T ->
  (Z.of_nat (List.length held) = T ->
   exists s', _wait_stall s = Raise stall_timeout s'
              /\ bus s' = bus s
              /\ now s' = last /\ pending s' = rest
              /\ Z.of_nat (edges s') = Z.of_nat (edges s) + T + 1)
  /\ (Z.of_nat (List.length held) < T -> Bus.stall last <> 1 ->
      exists s', _wait_stall s = Ret (Z.of_nat (List.length held) + 1) s'
                 /\ bus s' = bus s
                 /\ now s' = last /\ pending s' = rest
                 /\ edges s' = (edges s + List.length held + 1)%nat).
Proof.
  intros Hhas Hto Hst Hp Hheld Hun Hle.
  destruct (stall_wait_counts held s (S (List.length (pending s))) 0 T last rest)
    as (s' & Hrun & Hnow & Hpend & Hedges & Hev); auto.
  { rewrite Hp, length_app. cbn. lia. }
  cbn [Z.add] in Hrun.
  split.
  - intros HT. exists s'. rewrite HT, Z.eqb_refl in Hrun.
    split.
    + unfold _wait_stall. unfold bind at 1. unfold get at 1. rewrite Hhas.
      unfold bind. rewrite Hrun. reflexivity.
    + repeat split; auto; [apply (ev_bus _ _ Hev) | lia].
  - intros HT Hlast.
    replace (Z.of_nat (List.length held) =? T) with false in Hrun
      by (symmetry; apply Z.eqb_neq; lia).
    replace (Bus.stall last =? 1) with false in Hrun
      by (symmetry; apply Z.eqb_neq; exact Hlast).
    eexists. split.
    + unfold _wait_stall. unfold bind at 1. unfold get at 1. rewrite Hhas.
      unfold bind at 1. rewrite Hrun. unfold_monad. reflexivity.
    + cbn. repeat split; auto. apply (ev_bus _ _ Hev).
Qed.

(** ** What the waits of a cycle leave alone *)

Lemma keeps_ret_inv (R : master -> master -> Prop) {A : Type} (m : M A) s a s' :
  keeps R m -> m s = Ret a s' -> R s s'.
Proof. intros Hk Hm. specialize (Hk s). rewrite Hm in Hk. exact Hk. Qed.

Lemma bind_raise {A B : Type} (m : M A) (k : A -> M B) s e s' :
  bind m k s = Raise e s' ->
  m s = Raise e s' \/ exists a s1, m s = Ret a s1 /\ k a s1 = Raise e s'.
Proof.
  unfold bind. destruct (m s) as [a s1|e1 s1| | |]; try discriminate.
  - intros H. right. eauto.
  - intros H. left. injection H as -> ->. reflexivity.
Qed.

Ltac keeps_auto Rrefl Rtrans :=
  repeat first
    [ assumption
    | apply (keeps_ret _ Rrefl)
    | apply (keeps_raise _ Rrefl)
    | apply (keeps_out_of_fuel _ Rrefl)
    | apply (keeps_get _ Rrefl)
    | apply (keeps_bind _ Rtrans); [|intros ?]
    | match goal with |- keeps _ (if ?b then _ else _) => destruct b end
    | match goal with |- keeps _ (match ?x with _ => _ end) => destruct x end ].

Ltac harmless_auto :=
  repeat first
    [ assumption
    | match goal with H : forall _, harmless _ |- _ => apply H end
    | match goal with H : forall _ _, harmless _ |- _ => apply H end
    | apply harmless_ret
    | apply harmless_modify
    | apply harmless_out_of_fuel
    | apply harmless_raise; discriminate
    | apply harmless_bind; [|intros ?]
    | match goal with |- harmless (if ?b then _ else _) => destruct b end
    | match goal with |- harmless (match ?x with _ => _ end) => destruct x end ].

Lemma harmless_get : harmless get.
Proof. intros s e s'. discriminate. Qed.

Lemma log_msg_keeps lvl msg : keeps evolves (log_msg lvl msg).
Proof. intros s. constructor; cbn; auto. Qed.

Lemma log_msg_harmless lvl msg : harmless (log_msg lvl msg).
Proof. apply harmless_modify. Qed.

Lemma drive_sig_harmless f v : harmless (drive_sig f v).
Proof. apply harmless_modify. Qed.

Lemma idle_wait_keeps n : keeps evolves (idle_wait n).
Proof.
  induction n as [|n IH]; cbn [idle_wait];
    pose proof clock_event_keeps; keeps_auto evolves_refl evolves_trans.
Qed.

Lemma idle_wait_harmless n : harmless (idle_wait n).
Proof.
  induction n as [|n IH]; cbn [idle_wait];
    pose proof clock_event_harmless; harmless_auto.
Qed.

Lemma stall_wait_keeps fuel : forall count, keeps evolves (stall_wait fuel count).
Proof.
  induction fuel as [|fuel IH]; intros count; cbn [stall_wait];
    pose proof clock_event_keeps; try pose proof (IH (count + 1));
    keeps_auto evolves_refl evolves_trans.
Qed.

Lemma stall_wait_harmless fuel : forall count, harmless (stall_wait fuel count).
Proof.
  induction fuel as [|fuel IH]; intros count; cbn [stall_wait];
    pose proof clock_event_harmless; pose proof harmless_get;
    try pose proof (IH (count + 1)); harmless_auto.
Qed.

Lemma wait_stall_keeps : keeps evolves _wait_stall.
Proof.
  unfold _wait_stall.
  apply (keeps_bind _ evolves_trans); [apply keeps_get, evolves_refl|]. intros s.
  pose proof (stall_wait_keeps (S (List.length (pending s))) 0).
  pose proof (log_msg_keeps DEBUG "Stalled for %u cycles").
  keeps_auto evolves_refl evolves_trans.
Qed.

Lemma wait_stall_harmless : harmless _wait_stall.
Proof.
  unfold _wait_stall. apply harmless_bind; [apply harmless_get|]. intros s.
  pose proof (stall_wait_harmless (S (List.length (pending s))) 0).
  pose proof (log_msg_harmless DEBUG "Stalled for %u cycles").
  harmless_auto.
Qed.

Lemma ack_wait_keeps fuel : forall count, keeps evolves (ack_wait fuel count).
Proof.
  induction fuel as [|fuel IH]; intros count; cbn [ack_wait];
    pose proof clock_event_keeps; pose proof get_reply_keeps;
    try pose proof (IH (count + 1)); keeps_auto evolves_refl evolves_trans.
Qed.

Lemma ack_wait_harmless fuel : forall count, harmless (ack_wait fuel count).
Proof.
  induction fuel as [|fuel IH]; intros count; cbn [ack_wait];
    pose proof clock_event_harmless; pose proof get_reply_harmless;
    try pose proof (IH (count + 1)); harmless_auto.
Qed.

Lemma wait_ack_keeps : keeps evolves _wait_ack.
Proof.
  unfold _wait_ack.
  apply (keeps_bind _ evolves_trans); [apply keeps_get, evolves_refl|]. intros s.
  pose proof (ack_wait_keeps (S (List.length (pending s))) 0).
  pose proof (log_msg_keeps DEBUG "Waited %u cycles for ackknowledge").
  keeps_auto evolves_refl evolves_trans.
Qed.

Lemma wait_ack_harmless : harmless _wait_ack.
Proof.
  unfold _wait_ack. apply harmless_bind; [apply harmless_get|]. intros s.
  pose proof (ack_wait_harmless (S (List.length (pending s))) 0).
  pose proof (log_msg_harmless DEBUG "Waited %u cycles for ackknowledge").
  harmless_auto.
Qed.

Lemma close_wait_keeps fuel :
  forall count last_acked_ops, keeps evolves (close_wait fuel count last_acked_ops).
Proof.
  induction fuel as [|fuel IH]; intros count last_acked_ops; cbn [close_wait].
  - keeps_auto evolves_refl evolves_trans.
  - apply (keeps_bind _ evolves_trans); [apply keeps_get, evolves_refl|]. intros s.
    pose proof clock_event_keeps.
    pose proof (log_msg_keeps DEBUG "Waiting for missing acks: %u/%u").
    pose proof (IH (count + 1) (_acked_ops s)).
    keeps_auto evolves_refl evolves_trans.
Qed.

Lemma close_wait_harmless fuel :
  forall count last_acked_ops, harmless (close_wait fuel count last_acked_ops).
Proof.
  induction fuel as [|fuel IH]; intros count last_acked_ops; cbn [close_wait].
  - pose proof harmless_get. harmless_auto.
  - apply harmless_bind; [apply harmless_get|]. intros s.
    pose proof clock_event_harmless.
    pose proof (log_msg_harmless DEBUG "Waiting for missing acks: %u/%u").
    pose proof (IH (count + 1) (_acked_ops s)).
    harmless_auto.
Qed.

(** When the wait of [_close_cycle] is over, every operation counted in
    [_op_cnt] has been answered. *)
Lemma close_wait_ret fuel :
  forall count last_acked_ops s a s',
    close_wait fuel count last_acked_ops s = Ret a s' ->
    _op_cnt s' <= _acked_ops s'.
Proof.
  induction fuel as [|fuel IH]; intros count last s a s'; cbn [close_wait];
    unfold bind at 1; unfold get at 1.
  - destruct (_acked_ops s <? _op_cnt s) eqn:Hlt; [discriminate|].
    intros H. injection H as _ <-. apply Z.ltb_ge. exact Hlt.
  - destruct (_acked_ops s <? _op_cnt s) eqn:Hlt.
    + intros H. apply bind_ret in H. destruct H as (? & s1 & _ & H).
      apply bind_ret in H. destruct H as (? & s2 & _ & H).
      apply bind_ret in H. destruct H as (? & s3 & _ & H).
      eapply IH. exact H.
    + intros H. injection H as _ <-. apply Z.ltb_ge. exact Hlt.
Qed.

(** ** Driving the operations of a cycle *)

(** What driving an operation leaves alone: the cycle stays as it is (open
    or not), and replies are still counted as they are buffered. *)
Record drives (s s' : master) : Prop := mk_drives
  { dr_cyc : Bus.cyc (bus s') = Bus.cyc (bus s);
    dr_busy : busy s' = busy s;
    dr_op_cnt : _op_cnt s' = _op_cnt s;
    dr_balance : Z.of_nat (List.length (_res_buf s')) - _acked_ops s'
                 = Z.of_nat (List.length (_res_buf s)) - _acked_ops s }.

Lemma drives_refl s : drives s s.
Proof. constructor; auto. Qed.

Lemma drives_trans s1 s2 s3 : drives s1 s2 -> drives s2 s3 -> drives s1 s3.
Proof. intros [] []. constructor; congruence. Qed.

Lemma evolves_drives s s' : evolves s s' -> drives s s'.
Proof. intros []. constructor; congruence. Qed.

Lemma keeps_evolves_drives {A : Type} (m : M A) : keeps evolves m -> keeps drives m.
Proof. intros H s. apply evolves_drives, H. Qed.

Lemma get_ret s a s' : get s = Ret a s' -> a = s /\ s' = s.
Proof. unfold get. intros H. injection H as <- <-. auto. Qed.

Lemma modify_ret f s a s' : modify f s = Ret a s' -> s' = f s.
Proof. unfold modify. intros H. injection H as _ <-. auto. Qed.

Ltac split_bind H a s1 H1 :=
  apply bind_ret in H; destruct H as (a & s1 & H1 & H).

Lemma drive_keeps we adr datwr sel idle : keeps drives (_drive we adr datwr sel idle).
Proof.
  unfold _drive.
  apply (keeps_bind _ drives_trans); [apply keeps_get, drives_refl|]. intros s.
  pose proof (keeps_evolves_drives _ clock_event_keeps).
  pose proof (keeps_evolves_drives _ wait_stall_keeps).
  pose proof (keeps_evolves_drives _ wait_ack_keeps).
  pose proof (fun n => keeps_evolves_drives _ (idle_wait_keeps n)).
  assert (Hsig : forall f v, (forall o, Bus.cyc (f v o) = Bus.cyc o) ->
                             keeps drives (drive_sig f v)).
  { intros f v Hf s0. constructor; cbn; auto. }
  pose proof (Hsig Bus.set_stb 1 (fun o => eq_refl)).
  pose proof (Hsig Bus.set_stb 0 (fun o => eq_refl)).
  pose proof (Hsig Bus.set_we we (fun o => eq_refl)).
  pose proof (Hsig Bus.set_we 0 (fun o => eq_refl)).
  pose proof (Hsig Bus.set_adr adr (fun o => eq_refl)).
  pose proof (Hsig Bus.set_sel sel (fun o => eq_refl)).
  pose proof (Hsig Bus.set_datwr datwr (fun o => eq_refl)).
  destruct (busy s).
  - repeat first [assumption | apply (keeps_bind _ drives_trans); [|intros ?]].
    + destruct idle; [auto | apply keeps_ret, drives_refl].
    + intros s0. constructor; cbn; auto.
  - intros s0. constructor; cbn; auto.
Qed.

Lemma drive_harmless we adr datwr sel idle : harmless (_drive we adr datwr sel idle).
Proof.
  unfold _drive. apply harmless_bind; [apply harmless_get|]. intros s.
  pose proof clock_event_harmless. pose proof wait_stall_harmless.
  pose proof wait_ack_harmless. pose proof idle_wait_harmless.
  pose proof drive_sig_harmless. pose proof log_msg_harmless.
  harmless_auto.
Qed.

(** A completed [_drive] of an open cycle has recorded its operation. *)
Lemma drive_ret we adr datwr sel idle s s' :
  busy s = true ->
  _drive we adr datwr sel idle s = Ret tt s' ->
  exists stalled ts,
    _aux_buf s' = _aux_buf s ++ [WBAux.mk sel adr datwr stalled idle ts].
Proof.
  intros Hb H. unfold _drive in H.
  split_bind H s0 s0' H0. apply get_ret in H0. destruct H0 as [-> ->].
  rewrite Hb in H.
  split_bind H u1 s1 H1.
  assert (E1 : _aux_buf s1 = _aux_buf s).
  { destruct idle.
    - apply (keeps_ret_inv evolves) in H1; [apply (ev_aux _ _ H1)|apply idle_wait_keeps].
    - injection H1 as _ <-. reflexivity. }
  split_bind H u2 s2 H2. apply modify_ret in H2.
  split_bind H u3 s3 H3. apply modify_ret in H3.
  split_bind H u4 s4 H4. apply modify_ret in H4.
  split_bind H u5 s5 H5. apply modify_ret in H5.
  split_bind H u6 s6 H6. apply modify_ret in H6.
  assert (E6 : _aux_buf s6 = _aux_buf s) by (subst; cbn; exact E1).
  split_bind H u7 s7 H7.
  apply (keeps_ret_inv evolves) in H7; [|apply clock_event_keeps].
  split_bind H stalled s8 H8.
  apply (keeps_ret_inv evolves) in H8; [|apply wait_stall_keeps].
  split_bind H u9 s9 H9. apply modify_ret in H9.
  split_bind H u10 s10 H10.
  apply (keeps_ret_inv evolves) in H10; [|apply wait_ack_keeps].
  split_bind H u11 s11 H11. apply modify_ret in H11.
  apply modify_ret in H.
  exists stalled, (_clk_cycle_count s8).
  rewrite H, H11. cbn. rewrite (ev_aux _ _ H10), H9. cbn.
  rewrite (ev_aux _ _ H8), (ev_aux _ _ H7), E6. reflexivity.
Qed.

(** How an auxiliary record relates to the operation it was made for. *)
Definition issued (op : WBOp.t) (aux : WBAux.t) : Prop :=
  WBAux.sel aux = WBOp.sel op
  /\ WBAux.adr aux = WBOp.adr op
  /\ WBAux.datwr aux = dat_of op
  /\ WBAux.waitIdle aux = WBOp.idle op.

Lemma drive_ops_keeps items : forall cnt, keeps drives (drive_ops cnt items).
Proof.
  induction items as [|v rest IH]; intros cnt; cbn [drive_ops].
  - apply keeps_ret, drives_refl.
  - destruct v; try (apply keeps_raise, drives_refl).
    apply (keeps_bind _ drives_trans); [apply drive_keeps|]. intros _.
    apply (keeps_bind _ drives_trans); [|intros _; apply IH].
    destruct (WBOp.idle op); [|apply keeps_raise, drives_refl].
    apply keeps_evolves_drives, log_msg_keeps.
Qed.

Lemma drive_ops_ret items :
  forall cnt s s',
    busy s = true ->
    drive_ops cnt items s = Ret tt s' ->
    exists ops auxs,
      items = map PyWBOp ops
      /\ _aux_buf s' = _aux_buf s ++ auxs
      /\ Forall2 issued ops auxs.
Proof.
  induction items as [|v rest IH]; intros cnt s s' Hb H; cbn [drive_ops] in H.
  - injection H as <-. exists [], []. rewrite app_nil_r. auto.
  - destruct v; try discriminate.
    split_bind H u1 s1 H1. destruct u1.
    pose proof (keeps_ret_inv drives _ _ _ _ (drive_keeps _ _ _ _ _) H1) as Hd.
    apply drive_ret in H1; [|exact Hb]. destruct H1 as (stalled & ts & Haux).
    split_bind H u2 s2 H2.
    destruct (WBOp.idle op) eqn:Hidle; [|discriminate].
    apply modify_ret in H2.
    assert (Hb2 : busy s2 = true).
    { rewrite H2. cbn. rewrite (dr_busy _ _ Hd). exact Hb. }
    destruct (IH _ _ _ Hb2 H) as (ops & auxs & -> & Haux' & Hall).
    exists (op :: ops), (WBAux.mk (WBOp.sel op) (WBOp.adr op) (dat_of op) stalled
                                  (Some z) ts :: auxs).
    split; [reflexivity|]. split.
    + rewrite Haux', H2. cbn. rewrite Haux, <- app_assoc. reflexivity.
    + constructor; [|exact Hall]. unfold issued. cbn. auto.
Qed.

(** ** Opening and closing a cycle *)

Lemma busy_event_wait_keeps : keeps evolves busy_event_wait.
Proof. intros s. unfold busy_event_wait. destruct (busy_event s); apply evolves_refl. Qed.

Lemma busy_event_wait_harmless : harmless busy_event_wait.
Proof.
  intros s e s'. unfold busy_event_wait. destruct (busy_event s); discriminate.
Qed.

Lemma fork_clk_cycle_counter_keeps : keeps evolves fork_clk_cycle_counter.
Proof.
  intros s. unfold fork_clk_cycle_counter, _clk_cycle_counter. unfold_monad. cbn.
  constructor; cbn; auto.
Qed.

Lemma open_cycle_harmless : harmless _open_cycle.
Proof.
  unfold _open_cycle. apply harmless_bind; [apply harmless_get|]. intros s.
  pose proof busy_event_wait_harmless. pose proof read_harmless.
  pose proof log_msg_harmless. pose proof drive_sig_harmless.
  unfold fork_read, fork_clk_cycle_counter, _clk_cycle_counter.
  pose proof harmless_get. harmless_auto.
Qed.

(** A cycle that has been opened is busy, asserts cyc and starts from empty
    buffers. *)
Lemma open_cycle_ret s s' :
  _open_cycle s = Ret tt s' ->
  Bus.cyc (bus s') = 1 /\ busy s' = true /\ _op_cnt s' = _op_cnt s
  /\ _acked_ops s' = 0 /\ _res_buf s' = [] /\ _aux_buf s' = [].
Proof.
  intros H. unfold _open_cycle in H.
  split_bind H s0 s0' H0. apply get_ret in H0. destruct H0 as [-> ->].
  split_bind H u1 s1 H1.
  assert (E1 : evolves s s1).
  { destruct (busy s).
    - eapply (keeps_ret_inv evolves); [|exact H1].
      apply (keeps_bind _ evolves_trans);
        [apply log_msg_keeps | intros _; apply busy_event_wait_keeps].
    - injection H1 as _ <-. apply evolves_refl. }
  split_bind H u2 s2 H2. apply modify_ret in H2.
  split_bind H u3 s3 H3. apply modify_ret in H3.
  split_bind H u4 s4 H4.
  apply (keeps_ret_inv evolves) in H4; [|apply read_keeps].
  split_bind H u5 s5 H5.
  apply (keeps_ret_inv evolves) in H5; [|apply fork_clk_cycle_counter_keeps].
  split_bind H u6 s6 H6. apply modify_ret in H6.
  split_bind H u7 s7 H7. apply modify_ret in H7.
  split_bind H u8 s8 H8. apply modify_ret in H8.
  split_bind H u9 s9 H9. apply modify_ret in H9.
  apply modify_ret in H.
  rewrite H, H9, H8, H7, H6. cbn.
  rewrite (ev_busy _ _ H5), (ev_busy _ _ H4), (ev_op_cnt _ _ H5), (ev_op_cnt _ _ H4).
  rewrite H3, H2. cbn. rewrite (ev_op_cnt _ _ E1). auto 6.
Qed.

Lemma close_cycle_harmless : harmless _close_cycle.
Proof.
  unfold _close_cycle. apply harmless_bind; [apply harmless_get|]. intros s.
  pose proof (close_wait_harmless (S (List.length (pending s))) 0 0).
  pose proof clock_event_harmless. pose proof log_msg_harmless.
  pose proof drive_sig_harmless. harmless_auto.
Qed.

(** A cycle whose replies were counted as they were buffered is closed with
    at least [_op_cnt] buffered replies, and an untouched auxiliary buffer. *)
Lemma close_cycle_ret s s' :
  Z.of_nat (List.length (_res_buf s)) = _acked_ops s ->
  _close_cycle s = Ret tt s' ->
  _aux_buf s' = _aux_buf s
  /\ _op_cnt s <= Z.of_nat (List.length (_res_buf s'))
  /\ Bus.cyc (bus s') = 0 /\ busy s' = false.
Proof.
  intros Hbal H. unfold _close_cycle in H.
  split_bind H s0 s0' H0. apply get_ret in H0. destruct H0 as [-> ->].
  split_bind H u1 s1 H1.
  pose proof (close_wait_ret _ _ _ _ _ _ H1) as Hack.
  apply (keeps_ret_inv evolves) in H1; [|apply close_wait_keeps].
  split_bind H u2 s2 H2. apply modify_ret in H2.
  split_bind H u3 s3 H3. apply modify_ret in H3.
  split_bind H u4 s4 H4. apply modify_ret in H4.
  split_bind H u5 s5 H5. apply modify_ret in H5.
  apply (keeps_ret_inv evolves) in H; [|apply clock_event_keeps].
  assert (Hb5 : busy s5 = false) by (subst; reflexivity).
  destruct (ev_idle _ _ H Hb5) as [Hres Hacked].
  pose proof (ev_balance _ _ H1) as Hbal1.
  rewrite (ev_aux _ _ H), (ev_bus _ _ H), (ev_busy _ _ H), Hres.
  subst s5 s4 s3 s2. cbn in *.
  rewrite (ev_aux _ _ H1). rewrite (ev_op_cnt _ _ H1) in Hack.
  repeat split; auto. lia.
Qed.

(** ** Partial correctness: what a coroutine that returns has kept *)

Definition yields (R : master -> master -> Prop) {A : Type} (m : M A) : Prop :=
  forall s a s', m s = Ret a s' -> R s s'.

Section Yields.
Variable R : master -> master -> Prop.
Hypothesis R_refl : forall s, R s s.
Hypothesis R_trans : forall s1 s2 s3, R s1 s2 -> R s2 s3 -> R s1 s3.

Lemma yields_ret {A : Type} (a : A) : yields R (ret a).
Proof. intros s a' s' H. injection H as _ <-. apply R_refl. Qed.

Lemma yields_get : yields R get.
Proof. intros s a' s' H. injection H as _ <-. apply R_refl. Qed.

Lemma yields_raise {A : Type} (e : exn) : yields R (@raise A e).
Proof. intros s a' s' H. discriminate. Qed.

Lemma yields_out_of_fuel {A : Type} : yields R (@out_of_fuel A).
Proof. intros s a' s' H. discriminate. Qed.

Lemma yields_modify (f : master -> master) :
  (forall s, R s (f s)) -> yields R (modify f).
Proof. intros Hf s a' s' H. injection H as _ <-. apply Hf. Qed.

Lemma yields_bind {A B : Type} (m : M A) (k : A -> M B) :
  yields R m -> (forall a, yields R (k a)) -> yields R (bind m k).
Proof.
  intros Hm Hk s b s' H. apply bind_ret in H. destruct H as (a & s1 & H1 & H2).
  eapply R_trans; [eapply Hm | eapply Hk]; eauto.
Qed.
End Yields.

Ltac yields_auto Rrefl Rtrans :=
  repeat first
    [ assumption
    | match goal with H : forall _, yields _ _ |- _ => apply H end
    | match goal with H : forall _ _, yields _ _ |- _ => apply H end
    | apply (yields_ret _ Rrefl)
    | apply (yields_raise _)
    | apply (yields_out_of_fuel _)
    | apply (yields_get _ Rrefl)
    | apply (yields_bind _ Rtrans); [|intros ?]
    | match goal with |- yields _ (if ?b then _ else _) => destruct b end
    | match goal with |- yields _ (match ?x with _ => _ end) => destruct x end ].

(** ** The replies collected during a cycle *)

(** The records the reply collector buffers over a run of clock edges of an
    open cycle, the cycle counter being at [count] at the first of them: one
    for every edge that shows a reply, in the order of the edges, with the
    reply code, the read data of that edge and the count at that edge. *)
Fixpoint collected (sh : Bus.shape) (count : Z) (samples : list Bus.inp)
  : list WBRes.t :=
  match samples with
  | [] => []
  | i :: rest =>
      match _get_reply sh i with
      | inr (true, code) =>
          WBRes.mk code None None (Bus.datrd i) None None None count
            :: collected sh (count + 1) rest
      | _ => collected sh (count + 1) rest
      end
  end.

Lemma collected_app sh seen1 :
  forall count seen2,
    collected sh count (seen1 ++ seen2)
    = collected sh count seen1
        ++ collected sh (count + Z.of_nat (List.length seen1)) seen2.
Proof.
  induction seen1 as [|i seen1 IH]; intros count seen2.
  - cbn. now rewrite Z.add_0_r.
  - cbn [app collected List.length]. rewrite IH.
    replace (count + 1 + Z.of_nat (List.length seen1))
      with (count + Z.of_nat (S (List.length seen1))) by lia.
    destruct (_get_reply sh i) as [e|[[] code]]; reflexivity.
Qed.

(** [collects s s']: in an open cycle whose reply collector and cycle counter
    are parked on the clock, the cycle is still open in [s'], and the reply
    buffer has grown by what the edges in between showed. *)
Definition collects (s s' : master) : Prop :=
  busy s = true -> reader_waiting s = true -> counter_waiting s = true ->
  busy s' = true /\ reader_waiting s' = true /\ counter_waiting s' = true
  /\ shape s' = shape s
  /\ exists seen,
       pending s = seen ++ pending s'
       /\ _res_buf s' = _res_buf s ++ collected (shape s) (_clk_cycle_count s) seen
       /\ _clk_cycle_count s' = _clk_cycle_count s + Z.of_nat (List.length seen).

Lemma collects_refl s : collects s s.
Proof.
  intros Hb Hr Hc. repeat split; auto.
  exists []. cbn. rewrite app_nil_r. repeat split; auto. lia.
Qed.

Lemma collects_trans s1 s2 s3 : collects s1 s2 -> collects s2 s3 -> collects s1 s3.
Proof.
  intros H12 H23 Hb Hr Hc.
  destruct (H12 Hb Hr Hc) as (Hb2 & Hr2 & Hc2 & Hsh2 & seen1 & Hp1 & Hres1 & Hk1).
  destruct (H23 Hb2 Hr2 Hc2) as (Hb3 & Hr3 & Hc3 & Hsh3 & seen2 & Hp2 & Hres2 & Hk2).
  repeat split; auto; try congruence.
  exists (seen1 ++ seen2). split; [|split].
  - rewrite Hp1, Hp2, app_assoc. reflexivity.
  - rewrite Hres2, Hres1, Hsh2, Hk1, collected_app, app_assoc. reflexivity.
  - rewrite Hk2, Hk1, length_app. lia.
Qed.

Lemma collects_same s s' :
  busy s' = busy s -> reader_waiting s' = reader_waiting s ->
  counter_waiting s' = counter_waiting s -> shape s' = shape s ->
  pending s' = pending s -> _res_buf s' = _res_buf s ->
  _clk_cycle_count s' = _clk_cycle_count s -> collects s s'.
Proof.
  intros Hb Hr Hc Hsh Hp Hres Hk Hb0 Hr0 Hc0.
  repeat split; try congruence.
  exists []. cbn. rewrite app_nil_r, Hp, Hres, Hk. repeat split; auto. lia.
Qed.

Lemma clock_event_collects : yields collects clock_event.
Proof.
  intros s a s'. unfold clock_event. destruct (pending s) as [|i rest] eqn:Hp;
    [discriminate|].
  intros H Hb Hr Hc. revert H.
  unfold resume_parked, _read, get_reply, _clk_cycle_counter. unfold_monad.
  cbn -[_get_reply]. rewrite Hr. cbn -[_get_reply]. rewrite Hb. cbn -[_get_reply].
  destruct (_get_reply (shape s) i) as [e|[ack code]] eqn:Hg; cbn -[_get_reply];
    [discriminate|].
  destruct ack; cbn -[_get_reply]; rewrite Hc; cbn -[_get_reply Z.of_nat];
    rewrite ?Hb; intros H; injection H as _ <-; cbn -[_get_reply Z.of_nat];
    (repeat split; auto); exists [i]; cbn -[Z.of_nat]; rewrite Hg;
    (repeat split; auto; try lia); now rewrite ?app_nil_r.
Qed.

Lemma modify_collects f :
  (forall s, busy (f s) = busy s /\ reader_waiting (f s) = reader_waiting s
             /\ counter_waiting (f s) = counter_waiting s /\ shape (f s) = shape s
             /\ pending (f s) = pending s /\ _res_buf (f s) = _res_buf s
             /\ _clk_cycle_count (f s) = _clk_cycle_count s) ->
  yields collects (modify f).
Proof.
  intros Hf. apply yields_modify. intros s.
  destruct (Hf s) as (? & ? & ? & ? & ? & ? & ?). apply collects_same; assumption.
Qed.

Lemma log_msg_collects lvl msg : yields collects (log_msg lvl msg).
Proof. apply modify_collects. intros s. cbn. auto 8. Qed.

Lemma drive_sig_collects f v : yields collects (drive_sig f v).
Proof. apply modify_collects. intros s. cbn. auto 8. Qed.

Lemma get_reply_collects : yields collects get_reply.
Proof.
  intros s a s'. unfold get_reply. destruct (_get_reply _ _); [discriminate|].
  intros H. injection H as _ <-. apply collects_refl.
Qed.

Lemma idle_wait_collects n : yields collects (idle_wait n).
Proof.
  induction n as [|n IH]; cbn [idle_wait];
    pose proof clock_event_collects; yields_auto collects_refl collects_trans.
Qed.

Lemma stall_wait_collects fuel : forall count, yields collects (stall_wait fuel count).
Proof.
  induction fuel as [|fuel IH]; intros count; cbn [stall_wait];
    pose proof clock_event_collects; yields_auto collects_refl collects_trans.
Qed.

Lemma wait_stall_collects : yields collects _wait_stall.
Proof.
  unfold _wait_stall.
  pose proof stall_wait_collects. pose proof log_msg_collects.
  yields_auto collects_refl collects_trans.
Qed.

Lemma ack_wait_collects fuel : forall count, yields collects (ack_wait fuel count).
Proof.
  induction fuel as [|fuel IH]; intros count; cbn [ack_wait];
    pose proof clock_event_collects; pose proof get_reply_collects;
    yields_auto collects_refl collects_trans.
Qed.

Lemma wait_ack_collects : yields collects _wait_ack.
Proof.
  unfold _wait_ack.
  pose proof ack_wait_collects. pose proof log_msg_collects.
  yields_auto collects_refl collects_trans.
Qed.

Lemma close_wait_collects fuel :
  forall count last_acked_ops, yields collects (close_wait fuel count last_acked_ops).
Proof.
  induction fuel as [|fuel IH]; intros count last_acked_ops; cbn [close_wait];
    pose proof clock_event_collects; pose proof log_msg_collects;
    yields_auto collects_refl collects_trans.
Qed.

Lemma drive_collects we adr datwr sel idle :
  yields collects (_drive we adr datwr sel idle).
Proof.
  unfold _drive.
  pose proof clock_event_collects. pose proof wait_stall_collects.
  pose proof wait_ack_collects. pose proof idle_wait_collects.
  pose proof log_msg_collects. pose proof drive_sig_collects.
  assert (Haux : forall stalled,
             yields collects
               (modify (fun s =>
                  set_aux_buf (_aux_buf s ++
                    [WBAux.mk sel adr datwr stalled idle (_clk_cycle_count s)]) s))).
  { intros stalled. apply modify_collects. intros s. cbn. auto 8. }
  yields_auto collects_refl collects_trans.
Qed.

Lemma drive_ops_collects items : forall cnt, yields collects (drive_ops cnt items).
Proof.
  induction items as [|v rest IH]; intros cnt; cbn [drive_ops].
  - apply (yields_ret _ collects_refl).
  - destruct v; try apply yields_raise.
    apply (yields_bind _ collects_trans); [apply drive_collects|]. intros _.
    apply (yields_bind _ collects_trans); [|intros _; apply IH].
    destruct (WBOp.idle op); [apply log_msg_collects | apply yields_raise].
Qed.

(** A clock edge outside a cycle: the parked coroutines, if any, end. *)
Lemma clock_event_idle s u s' :
  busy s = false ->
  clock_event s = Ret u s' ->
  exists i,
    pending s = i :: pending s'
    /\ busy s' = false /\ reader_waiting s' = false /\ counter_waiting s' = false
    /\ shape s' = shape s /\ _res_buf s' = _res_buf s /\ _aux_buf s' = _aux_buf s.
Proof.
  intros Hb. unfold clock_event. destruct (pending s) as [|i rest] eqn:Hp;
    [discriminate|].
  unfold resume_parked, _read, get_reply, _clk_cycle_counter. unfold_monad.
  cbn -[_get_reply].
  destruct (reader_waiting s) eqn:Hr; cbn -[_get_reply]; rewrite ?Hb;
    cbn -[_get_reply];
    destruct (counter_waiting s) eqn:Hc; cbn -[_get_reply]; rewrite ?Hb;
    intros H; injection H as _ <-; exists i; cbn; auto 8.
Qed.

Lemma read_parks s u s' :
  busy s = true ->
  _read s = Ret u s' ->
  busy s' = true /\ reader_waiting s' = true
  /\ pending s' = pending s /\ shape s' = shape s.
Proof.
  intros Hb. unfold _read, get_reply. unfold_monad. rewrite Hb.
  destruct (_get_reply (shape s) (now s)) as [e|[ack code]]; [discriminate|].
  destruct ack; cbn -[_get_reply]; intros H; injection H as _ <-; cbn; auto.
Qed.

Lemma fork_clk_cycle_counter_parks s u s' :
  busy s = true ->
  fork_clk_cycle_counter s = Ret u s' ->
  busy s' = true /\ reader_waiting s' = reader_waiting s
  /\ counter_waiting s' = true /\ _clk_cycle_count s' = 0
  /\ pending s' = pending s /\ shape s' = shape s.
Proof.
  intros Hb. unfold fork_clk_cycle_counter, _clk_cycle_counter. unfold_monad. cbn.
  rewrite Hb. intros H; injection H as _ <-; cbn; auto 8.
Qed.

(** Opening a cycle on a master that is not busy: the collector and the
    counter are parked, the counter at 0, and the reply buffer is empty
    (what the collector read when it was forked is dropped). *)
Lemma open_cycle_collecting s s' :
  busy s = false ->
  _open_cycle s = Ret tt s' ->
  busy s' = true /\ reader_waiting s' = true /\ counter_waiting s' = true
  /\ _clk_cycle_count s' = 0 /\ _res_buf s' = []
  /\ pending s' = pending s /\ shape s' = shape s.
Proof.
  intros Hb H. unfold _open_cycle in H.
  split_bind H s0 s0' H0. apply get_ret in H0. destruct H0 as [-> ->].
  rewrite Hb in H.
  split_bind H u1 s1 H1. injection H1 as _ <-.
  split_bind H u2 s2 H2. apply modify_ret in H2.
  split_bind H u3 s3 H3. apply modify_ret in H3.
  split_bind H u4 s4 H4.
  apply read_parks in H4; [|rewrite H3; reflexivity].
  destruct H4 as (Hb4 & Hr4 & Hp4 & Hsh4).
  split_bind H u5 s5 H5.
  apply fork_clk_cycle_counter_parks in H5; [|exact Hb4].
  destruct H5 as (Hb5 & Hr5 & Hc5 & Hk5 & Hp5 & Hsh5).
  split_bind H u6 s6 H6. apply modify_ret in H6.
  split_bind H u7 s7 H7. apply modify_ret in H7.
  split_bind H u8 s8 H8. apply modify_ret in H8.
  split_bind H u9 s9 H9. apply modify_ret in H9.
  apply modify_ret in H.
  rewrite H, H9, H8, H7, H6. cbn.
  rewrite Hb5, Hr5, Hr4, Hc5, Hk5, Hp5, Hp4, Hsh5, Hsh4, H3, H2. cbn. auto 8.
Qed.

(** Closing a cycle: the collector buffers the replies of the edges waited
    for, but not that of the edge at which the cycle is closed. *)
Lemma close_cycle_collects s s' :
  busy s = true -> reader_waiting s = true -> counter_waiting s = true ->
  _close_cycle s = Ret tt s' ->
  exists seen last,
    pending s = seen ++ last :: pending s'
    /\ _res_buf s' = _res_buf s ++ collected (shape s) (_clk_cycle_count s) seen.
Proof.
  intros Hb Hr Hc H. unfold _close_cycle in H.
  split_bind H s0 s0' H0. apply get_ret in H0. destruct H0 as [-> ->].
  split_bind H u6 s6 H6. apply close_wait_collects in H6.
  destruct (H6 Hb Hr Hc) as (_ & _ & _ & _ & seen & Hp6 & Hres6 & _).
  split_bind H u7 s7 H7. apply modify_ret in H7.
  split_bind H u8 s8 H8. apply modify_ret in H8.
  split_bind H u9 s9 H9. apply modify_ret in H9.
  split_bind H u10 s10 H10. apply modify_ret in H10.
  apply clock_event_idle in H; [|subst; reflexivity].
  destruct H as (last & Hp & _ & _ & _ & _ & Hres & _).
  exists seen, last. split.
  - rewrite Hp6, <- Hp. subst s10 s9 s8 s7. reflexivity.
  - rewrite Hres, <- Hres6. subst s10 s9 s8 s7. reflexivity.
Qed.

Lemma frame_unique {A : Type} (first first' last last' : A) during during' rest :
  first :: during ++ last :: rest = first' :: during' ++ last' :: rest ->
  during' = during.
Proof.
  intros H. injection H as _ H.
  change (during ++ [last] ++ rest = during' ++ [last'] ++ rest) in H.
  rewrite !app_assoc in H. apply app_inv_tail in H.
  apply app_inj_tail in H. symmetry. apply H.
Qed.

Lemma map_fst_combine {A B C : Type} (f : A -> C) (l1 : list A) :
  forall l2 : list B,
    map (fun p => f (fst p)) (combine l1 l2) = firstn (List.length l2) (map f l1).
Proof.
  induction l1 as [|a l1 IH]; intros [|b l2]; cbn; auto.
  - f_equal. apply IH.
Qed.

(** ** A completed cycle *)

Lemma pick_and_mix_length rb ab :
  List.length (pick_and_mix rb ab) = Nat.min (List.length rb) (List.length ab).
Proof. unfold pick_and_mix. now rewrite length_map, length_combine. Qed.

Lemma pick_and_mix_nth rb :
  forall ab i r0 a,
    nth_error rb i = Some r0 -> nth_error ab i = Some a ->
    nth_error (pick_and_mix rb ab) i = Some (mix (r0, a)).
Proof.
  induction rb as [|r rb IH]; intros ab i r0 a Hr Ha.
  - destruct i; discriminate.
  - destruct ab as [|a' ab]; [destruct i; discriminate|].
    destruct i as [|i]; cbn in *.
    + injection Hr as ->. injection Ha as ->. reflexivity.
    + apply IH; assumption.
Qed.

Lemma Forall2_nth {A B : Type} (P : A -> B -> Prop) (l : list A) :
  forall (l' : list B) i x,
    Forall2 P l l' -> nth_error l i = Some x ->
    exists y, nth_error l' i = Some y /\ P x y.
Proof.
  induction l as [|x0 l IH]; intros l' i x H Hx.
  - destruct i; discriminate.
  - inversion H as [|? y0 ? l0 Hp Hrest]; subst.
    destruct i as [|i]; cbn in *.
    + injection Hx as ->. eauto.
    + eapply IH; eauto.
Qed.

Lemma Forall2_same_length {A B : Type} (P : A -> B -> Prop) (l : list A) (l' : list B) :
  Forall2 P l l' -> List.length l = List.length l'.
Proof. induction 1; cbn; congruence. Qed.

Lemma nth_error_within {A : Type} (l : list A) i :
  (i < List.length l)%nat -> exists x, nth_error l i = Some x.
Proof.
  intros H. destruct (nth_error l i) eqn:E; [eauto|].
  apply nth_error_None in E. lia.
Qed.

(** The shape of every completed [send_cycle] on a list: the list held
    operations only, and the result is the zip of a reply buffer at least as
    long as the list with the auxiliary records of the operations, in the
    order of issue.  On a master that was not busy, the samples consumed are
    the one of the first clock edge, those of the open cycle and the one at
    which the cycle is closed, and the reply buffer is what the collector
    gathered from those of the open cycle. *)
Lemma send_cycle_completed (items : list pyval) (s : master) res s' :
  send_cycle (PyList items) s = Ret res s' ->
  exists ops rb ab,
    items = map PyWBOp ops
    /\ ops <> []
    /\ res = pick_and_mix rb ab
    /\ Forall2 issued ops ab
    /\ (List.length ops <= List.length rb)%nat
    /\ _aux_buf s' = ab
    /\ _res_buf s' = res ++ skipn (List.length res) rb
    /\ (busy s = false ->
        exists first during last,
          pending s = first :: during ++ last :: pending s'
          /\ rb = collected (shape s) 0 during).
Proof.
  intros H. unfold send_cycle in H.
  split_bind H u1 s1 H1. cbn [is_sequence has_strip has_getitem has_iter negb andb orb
                                py_len py_iter] in H.
  split_bind H u2 s2 H2. apply modify_ret in H2.
  destruct (Z.of_nat (List.length items) <? 1) eqn:Hn.
  { split_bind H u3 s3 H3. discriminate. }
  apply Z.ltb_ge in Hn.
  split_bind H u3 s3 H3. destruct u3.
  pose proof H3 as Hopen.
  apply open_cycle_ret in H3.
  destruct H3 as (Hcyc & Hbusy & Hcnt & Hack & Hres & Haux).
  split_bind H u4 s4 H4. destruct u4.
  pose proof H4 as Hdrive.
  pose proof (keeps_ret_inv drives _ _ _ _ (drive_ops_keeps _ _) H4) as Hd.
  apply drive_ops_ret in H4; [|exact Hbusy].
  destruct H4 as (ops & auxs & Hitems & Haux4 & Hall).
  split_bind H u5 s5 H5. destruct u5.
  pose proof H5 as Hclose.
  assert (Hbal : Z.of_nat (List.length (_res_buf s4)) = _acked_ops s4).
  { pose proof (dr_balance _ _ Hd) as Hb. rewrite Hres, Hack in Hb. cbn in Hb. lia. }
  apply close_cycle_ret in H5; [|exact Hbal].
  destruct H5 as (Haux5 & Hlen & _ & _).
  split_bind H s6 s6' H6. apply get_ret in H6. destruct H6 as [-> ->].
  split_bind H u7 s7 H7. apply modify_ret in H7. injection H as <- <-.
  exists ops, (_res_buf s5), (_aux_buf s5).
  assert (Hops : List.length items = List.length ops).
  { rewrite Hitems. now rewrite length_map. }
  split; [exact Hitems|]. split.
  { intros ->. cbn in Hops. lia. }
  split; [reflexivity|]. split.
  { rewrite Haux5, Haux4, Haux. exact Hall. }
  split.
  { rewrite (dr_op_cnt _ _ Hd), Hcnt, H2 in Hlen. cbn in Hlen. lia. }
  split; [rewrite H7; reflexivity|]. split; [rewrite H7; reflexivity|].
  intros Hb.
  apply clock_event_idle in H1; [|exact Hb].
  destruct H1 as (first & Hp1 & Hb1 & _ & _ & Hsh1 & _).
  apply open_cycle_collecting in Hopen; [|rewrite H2; exact Hb1].
  destruct Hopen as (Hb3 & Hr3 & Hc3 & Hk3 & _ & Hp3 & Hsh3).
  apply drive_ops_collects in Hdrive.
  destruct (Hdrive Hb3 Hr3 Hc3)
    as (Hb4 & Hr4 & Hc4 & Hsh4 & seen1 & Hp4 & Hres4 & Hk4).
  apply close_cycle_collects in Hclose; auto.
  destruct Hclose as (seen2 & last & Hp5 & Hres5).
  exists first, (seen1 ++ seen2), last. split.
  - rewrite Hp1, <- app_assoc. f_equal. f_equal.
    rewrite H7. cbn [pending set_res_buf]. rewrite <- Hp5, <- Hp4, Hp3, H2.
    reflexivity.
  - rewrite Hres5, Hres4, Hres, Hk4, Hk3, Hsh4, Hsh3, H2.
    cbn [shape set_op_cnt app]. rewrite Hsh1, collected_app. reflexivity.
Qed.

Lemma pick_and_mix_nth_inv rb :
  forall ab i r,
    nth_error (pick_and_mix rb ab) i = Some r ->
    exists r0 a,
      nth_error rb i = Some r0 /\ nth_error ab i = Some a /\ r = mix (r0, a).
Proof.
  induction rb as [|r1 rb IH]; intros ab i r H.
  - destruct i; discriminate.
  - destruct ab as [|a1 ab]; [destruct i; discriminate|].
    destruct i as [|i]; cbn in H.
    + injection H as <-. exists r1, a1. auto.
    + apply IH in H. exact H.
Qed.

Lemma map_PyWBOp_inj (ops ops' : list WBOp.t) :
  map PyWBOp ops = map PyWBOp ops' -> ops' = ops.
Proof.
  revert ops'. induction ops as [|op ops IH]; intros [|op' ops'] H;
    try discriminate; auto.
  cbn in H. injection H as -> H. f_equal. auto.
Qed.

(** C1: a [send_cycle] that runs to completion on a list of [N] operations
    returns exactly [N] results, and the [i]-th result carries the address,
    select mask, write data and idle count of the [i]-th operation
    submitted.  It is paired with the [i]-th reply to arrive: on a master
    that was not busy, the samples consumed are the one of the first clock
    edge, those of the open cycle and the one at which the cycle is closed,
    and the [i]-th result carries the reply code and the read data of the
    [i]-th of the edges of the open cycle that show a reply. *)
Theorem send_cycle_results_in_order (ops : list WBOp.t) (s : master) res s' :
  send_cycle (PyList (map PyWBOp ops)) s = Ret res s' ->
  List.length res = List.length ops
  /\ (forall i op, nth_error ops i = Some op ->
        exists r, nth_error res i = Some r
                  /\ WBRes.adr r = Some (WBOp.adr op)
                  /\ WBRes.sel r = Some (WBOp.sel op)
                  /\ WBRes.datwr r = Some (dat_of op)
                  /\ WBRes.waitIdle r = WBOp.idle op)
  /\ (busy s = false ->
      (exists first during last,
          pending s = first :: during ++ last :: pending s')
      /\ forall first during last,
           pending s = first :: during ++ last :: pending s' ->
           forall i r, nth_error res i = Some r ->
             exists reply,
               nth_error (collected (shape s) 0 during) i = Some reply
               /\ WBRes.ack r = WBRes.ack reply
               /\ WBRes.datrd r = WBRes.datrd reply).
Proof.
  intros H. apply send_cycle_completed in H.
  destruct H as (ops' & rb & ab & Hmap & _ & -> & Hall & Hlen & _ & _ & Hcol).
  apply map_PyWBOp_inj in Hmap. subst ops'.
  pose proof (Forall2_same_length _ _ _ Hall) as Hab.
  split; [|split].
  - rewrite pick_and_mix_length. lia.
  - intros i op Hop.
    destruct (Forall2_nth _ _ _ _ _ Hall Hop) as (a & Ha & Hsel & Hadr & Hdat & Hidle).
    destruct (nth_error_within rb i) as [r0 Hr0].
    { assert (i < List.length ops)%nat by (apply nth_error_Some; congruence). lia. }
    exists (mix (r0, a)). split; [apply pick_and_mix_nth; assumption|].
    cbn. repeat split; congruence.
  - intros Hb. destruct (Hcol Hb) as (first & during & last & Hp & Hrb).
    split; [eauto|].
    intros first' during' last' Hp' i r Hr.
    rewrite Hp in Hp'. apply frame_unique in Hp'. subst during'.
    apply pick_and_mix_nth_inv in Hr. destruct Hr as (r0 & a & Hr0 & _ & ->).
    exists r0. rewrite <- Hrb. auto.
Qed.

(** C4: a reply counted by the collector is buffered with the value the
    cycle counter has at that edge; and the results of a completed cycle are
    the reply buffer and the auxiliary buffer zipped by position: the [i]-th
    result takes write data, address, select mask, idle count and stall count
    from the record of the [i]-th operation issued (so a write operation gets
    its own data and address back), and its [waitAck] is the counter buffered
    with the [i]-th reply minus the time stamp of the [i]-th issue.  The
    reply buffer zipped is the one the collector filled: on a master that was
    not busy, the records of the edges of the open cycle that show a reply,
    in the order of those edges, each with the count of its edge. *)
Theorem results_zip_buffers :
  (forall s code,
      busy s = true ->
      _get_reply (shape s) (now s) = inr (true, code) ->
      exists s1,
        _read s = Ret tt s1
        /\ _res_buf s1
           = _res_buf s ++ [WBRes.mk code None None (Bus.datrd (now s)) None None None
                                     (_clk_cycle_count s)])
  /\ (forall (ops : list WBOp.t) (s : master) res s',
      send_cycle (PyList (map PyWBOp ops)) s = Ret res s' ->
      exists rb ab,
        res = map mix (combine rb ab)
        /\ _aux_buf s' = ab
        /\ List.length ab = List.length ops
        /\ (List.length ops <= List.length rb)%nat
        /\ (forall i op, nth_error ops i = Some op ->
             exists r0 a r,
               nth_error rb i = Some r0
               /\ nth_error ab i = Some a
               /\ nth_error res i = Some r
               /\ issued op a
               /\ WBRes.datwr r = Some (WBAux.datwr a)
               /\ WBRes.adr r = Some (WBAux.adr a)
               /\ WBRes.sel r = Some (WBAux.sel a)
               /\ WBRes.waitIdle r = WBAux.waitIdle a
               /\ WBRes.waitStall r = Some (WBAux.waitStall a)
               /\ WBRes.waitAck r = WBRes.waitAck r0 - WBAux.ts a
               /\ (forall d, WBOp.dat op = Some d ->
                     WBRes.datwr r = Some d /\ WBRes.adr r = Some (WBOp.adr op)))
        /\ (busy s = false ->
            (exists first during last,
                pending s = first :: during ++ last :: pending s')
            /\ forall first during last,
                 pending s = first :: during ++ last :: pending s' ->
                 rb = collected (shape s) 0 during)).
Proof.
  split.
  - intros s code Hb Hr. unfold _read, get_reply. unfold_monad.
    rewrite Hb, Hr. cbn. eexists. split; reflexivity.
  - intros ops s res s' H. apply send_cycle_completed in H.
    destruct H as (ops' & rb & ab & Hmap & _ & -> & Hall & Hlen & Haux & _ & Hcol).
    apply map_PyWBOp_inj in Hmap. subst ops'.
    pose proof (Forall2_same_length _ _ _ Hall) as Hab.
    exists rb, ab. split; [reflexivity|]. split; [exact Haux|].
    split; [lia|]. split; [exact Hlen|].
    split.
    2:{ intros Hb. destruct (Hcol Hb) as (first & during & last & Hp & Hrb).
        split; [eauto|].
        intros first' during' last' Hp'.
        rewrite Hp in Hp'. apply frame_unique in Hp'. subst during'. exact Hrb. }
    intros i op Hop.
    destruct (Forall2_nth _ _ _ _ _ Hall Hop) as (a & Ha & Hiss).
    destruct (nth_error_within rb i) as [r0 Hr0].
    { assert (i < List.length ops)%nat by (apply nth_error_Some; congruence). lia. }
    exists r0, a, (mix (r0, a)).
    split; [exact Hr0|]. split; [exact Ha|].
    split; [apply pick_and_mix_nth; assumption|].
    split; [exact Hiss|]. cbn.
    destruct Hiss as (Hsel & Hadr & Hdat & Hidle).
    repeat split; auto.
    + rewrite Hdat. unfold dat_of. rewrite H. reflexivity.
    + congruence.
Qed.

(** ** Usage faults *)

(** A malformed argument refused before the bus is touched: the call ends in
    an exception and the bus outputs are as they were. *)
Definition refused_before_bus_activity (arg : pyval) (s : master) : Prop :=
  exists e s', send_cycle arg s = Raise e s' /\ bus s' = bus s.

(** A master at rest, with the edges [trace] still to come. *)
Definition quiet_edge : Bus.inp := Bus.mk_inp 0 0 0 0 0.
Definition ack_edge : Bus.inp := Bus.mk_inp 1 0 0 0 0.
Definition stalled_edge : Bus.inp := Bus.mk_inp 0 0 0 1 0.
Definition classic_bus : Bus.shape := Bus.mk_shape false false false.
Definition pipelined_bus : Bus.shape := Bus.mk_shape true true true.

Definition master_at_rest (sh : Bus.shape) (timeout : option Z)
           (trace : list Bus.inp) : master :=
  mk_master (Bus.mk_out 0 0 0 0 0 15) sh timeout false false 0 [] [] 0 0 []
            false false quiet_edge trace 0.

Definition not_operations : pyval := PyList [PyInt 7].

(** [send_cycle([7])] asserts cyc before it raises the usage fault. *)
Lemma usage_fault_after_open :
  is_sequence not_operations = true
  /\ isinstance_WBOp (PyInt 7) = false
  /\ (exists s', send_cycle not_operations (master_at_rest classic_bus None [quiet_edge])
                 = Raise usage_fault s'
                 /\ Bus.cyc (bus s') = 1
                 /\ Bus.cyc (bus (master_at_rest classic_bus None [quiet_edge])) = 0)
  /\ ~ refused_before_bus_activity not_operations
                                   (master_at_rest classic_bus None [quiet_edge]).
Proof.
  split; [reflexivity|]. split; [reflexivity|]. split.
  - eexists. split; [reflexivity|]. split; reflexivity.
  - intros (e & s' & Hrun & Hbus).
    cbv in Hrun. injection Hrun as _ <-. discriminate.
Qed.

Lemma clock_event_bus s : bus (final_state (clock_event s)) = bus s.
Proof. apply (ev_bus _ _ (clock_event_keeps s)). Qed.

(** C2 (amended): an argument that is not a sequence is refused with the
    usage fault after the first clock edge, with no bus output driven and cyc
    not asserted; an empty sequence has an error logged and no bus output
    driven; a sequence holding a value that is not an operation is refused
    with the usage fault only once the cycle is open, cyc being asserted when
    the fault is raised, and such a call never returns results. *)
Theorem usage_faults (arg : pyval) (s : master) :
  (is_sequence arg = false ->
   bus (final_state (send_cycle arg s)) = bus s
   /\ forall s1, clock_event s = Ret tt s1 ->
                 send_cycle arg s = Raise usage_fault s1)
  /\ (py_len arg = Some 0 ->
      bus (final_state (send_cycle arg s)) = bus s
      /\ forall s1, clock_event s = Ret tt s1 ->
           log (final_state (send_cycle arg s))
           = log s1 ++ [(ERROR, "List contains no operations to carry out"%string)])
  /\ (is_sequence arg = true ->
      forall s', send_cycle arg s = Raise usage_fault s' ->
                 Bus.cyc (bus s') = 1 /\ busy s' = true)
  /\ (forall items res s',
         arg = PyList items -> send_cycle arg s = Ret res s' ->
         Forall (fun v => isinstance_WBOp v = true) items).
Proof.
  split; [|split; [|split]].
  - intros Hseq. unfold send_cycle. rewrite Hseq.
    pose proof (clock_event_bus s) as Hbus. split.
    + unfold bind. destruct (clock_event s); cbn in *; exact Hbus.
    + intros s1 Hck. rewrite (bind_eq _ _ _ _ _ Hck). reflexivity.
  - intros Hlen.
    assert (Hseq : is_sequence arg = true) by (destruct arg; try discriminate; reflexivity).
    unfold send_cycle. rewrite Hseq, Hlen.
    pose proof (clock_event_bus s) as Hbus. split.
    + unfold bind at 1. destruct (clock_event s); cbn in *; exact Hbus.
    + intros s1 Hck. rewrite (bind_eq _ _ _ _ _ Hck). reflexivity.
  - intros Hseq s' H. unfold send_cycle in H. rewrite Hseq in H.
    apply bind_raise in H. destruct H as [H | (u1 & s1 & _ & H)].
    { exfalso. eapply clock_event_harmless; eauto. }
    destruct (py_len arg) as [n|]; [|discriminate].
    apply bind_raise in H. destruct H as [H | (u2 & s2 & _ & H)]; [discriminate|].
    destruct (n <? 1).
    { apply bind_raise in H. destruct H as [H | (u3 & s3 & _ & H)]; discriminate. }
    apply bind_raise in H. destruct H as [H | (u3 & s3 & Hopen & H)].
    { exfalso. eapply open_cycle_harmless; eauto. }
    destruct u3. apply open_cycle_ret in Hopen. destruct Hopen as (Hcyc & Hbusy & _).
    apply bind_raise in H. destruct H as [H | (u4 & s4 & _ & H)].
    + pose proof (drive_ops_keeps (py_iter arg) 0 s3) as Hd. rewrite H in Hd.
      cbn in Hd. rewrite (dr_cyc _ _ Hd), (dr_busy _ _ Hd). auto.
    + exfalso.
      assert (Hh : harmless (_close_cycle ;;
                    s <- get ;;
                    modify (set_res_buf
                      (pick_and_mix (_res_buf s) (_aux_buf s)
                       ++ skipn (List.length (pick_and_mix (_res_buf s) (_aux_buf s)))
                                (_res_buf s))) ;;
                    ret (pick_and_mix (_res_buf s) (_aux_buf s)))).
      { pose proof close_cycle_harmless. pose proof harmless_get. harmless_auto. }
      eapply Hh; eauto.
  - intros items res s' -> H. apply send_cycle_completed in H.
    destruct H as (ops & _ & _ & -> & _).
    apply Forall_forall. intros v Hin. apply in_map_iff in Hin.
    destruct Hin as (op & <- & _). reflexivity.
Qed.

(** ** The loop bounds of the model are never the reason to stop *)

(** Every wait consumes an edge of the simulation, so a loop entered with
    more fuel than edges left ends before its fuel does: [send_cycle] returns,
    raises, or waits for an edge or an event that does not come. *)
Definition fuelled {A : Type} (m : M A) : Prop :=
  forall s s', m s <> OutOfFuel s'.

Lemma bind_out_of_fuel {A B : Type} (m : M A) (k : A -> M B) s s' :
  bind m k s = OutOfFuel s' ->
  m s = OutOfFuel s' \/ exists a s1, m s = Ret a s1 /\ k a s1 = OutOfFuel s'.
Proof.
  unfold bind. destruct (m s) as [a s1| | | |s1]; try discriminate.
  - intros H. right. eauto.
  - intros H. left. injection H as ->. reflexivity.
Qed.

Lemma fuelled_bind {A B : Type} (m : M A) (k : A -> M B) :
  fuelled m -> (forall a, fuelled (k a)) -> fuelled (bind m k).
Proof.
  intros Hm Hk s s' H. apply bind_out_of_fuel in H.
  destruct H as [H | (a & s1 & _ & H)]; [eapply Hm | eapply Hk]; eauto.
Qed.

Lemma fuelled_ret {A : Type} (a : A) : fuelled (ret a).
Proof. intros s s'. discriminate. Qed.

Lemma fuelled_raise {A : Type} (e : exn) : fuelled (@raise A e).
Proof. intros s s'. discriminate. Qed.

Lemma fuelled_get : fuelled get.
Proof. intros s s'. discriminate. Qed.

Lemma fuelled_modify f : fuelled (modify f).
Proof. intros s s'. discriminate. Qed.

Lemma fuelled_get_reply : fuelled get_reply.
Proof. intros s s'. unfold get_reply. destruct (_get_reply _ _); discriminate. Qed.

Lemma fuelled_busy_event_wait : fuelled busy_event_wait.
Proof. intros s s'. unfold busy_event_wait. destruct (busy_event s); discriminate. Qed.

Ltac fuelled_auto :=
  repeat first
    [ assumption
    | apply fuelled_ret
    | apply fuelled_raise
    | apply fuelled_get
    | apply fuelled_modify
    | apply fuelled_get_reply
    | apply fuelled_busy_event_wait
    | match goal with H : forall _, fuelled _ |- _ => apply H end
    | apply fuelled_bind; [|intros ?]
    | match goal with |- fuelled (if ?b then _ else _) => destruct b end
    | match goal with |- fuelled (match ?x with _ => _ end) => destruct x end ].

Lemma fuelled_read : fuelled _read.
Proof. unfold _read. fuelled_auto. Qed.

Lemma fuelled_clock_event : fuelled clock_event.
Proof.
  intros s s'. unfold clock_event. destruct (pending s); [discriminate|].
  revert s'. generalize (advance i l s).
  change (fuelled resume_parked). unfold resume_parked, _clk_cycle_counter.
  pose proof fuelled_read. fuelled_auto.
Qed.

Lemma clock_event_shortens s a s' :
  clock_event s = Ret a s' -> List.length (pending s) = S (List.length (pending s')).
Proof. intros H. apply clock_event_time in H. destruct H as [-> _]. reflexivity. Qed.

Lemma idle_wait_fuelled n : fuelled (idle_wait n).
Proof.
  induction n; cbn [idle_wait]; pose proof fuelled_clock_event; fuelled_auto.
Qed.

Lemma stall_wait_fuelled fuel :
  forall count s s',
    (List.length (pending s) < fuel)%nat -> stall_wait fuel count s <> OutOfFuel s'.
Proof.
  induction fuel as [|fuel IH]; intros count s s' Hf; [lia|].
  cbn [stall_wait]. unfold bind at 1. unfold get at 1.
  destruct (Bus.stall (now s) =? 1); [|discriminate].
  intros H. apply bind_out_of_fuel in H. destruct H as [H | (u & s1 & Hck & H)].
  - eapply fuelled_clock_event; eauto.
  - apply clock_event_shortens in Hck. unfold bind at 1 in H. unfold get at 1 in H.
    destruct (timed_out (_timeout s1) (count + 1)); [discriminate|].
    eapply IH; [|exact H]. lia.
Qed.

Lemma ack_wait_fuelled fuel :
  forall count s s',
    (List.length (pending s) < fuel)%nat -> ack_wait fuel count s <> OutOfFuel s'.
Proof.
  induction fuel as [|fuel IH]; intros count s s' Hf; [lia|].
  cbn [ack_wait]. intros H. apply bind_out_of_fuel in H.
  destruct H as [H | (r & s1 & Hr & H)].
  - eapply fuelled_get_reply; eauto.
  - assert (s1 = s) as ->.
    { unfold get_reply in Hr. destruct (_get_reply _ _); [discriminate|].
      injection Hr as _ <-. reflexivity. }
    destruct (negb (fst r)); [|discriminate].
    apply bind_out_of_fuel in H. destruct H as [H | (u & s2 & Hck & H)].
    + eapply fuelled_clock_event; eauto.
    + apply clock_event_shortens in Hck. eapply IH; [|exact H]. lia.
Qed.

Lemma close_wait_fuelled fuel :
  forall count last_acked_ops s s',
    (List.length (pending s) < fuel)%nat ->
    close_wait fuel count last_acked_ops s <> OutOfFuel s'.
Proof.
  induction fuel as [|fuel IH]; intros count last s s' Hf; [lia|].
  cbn [close_wait]. unfold bind at 1. unfold get at 1.
  destruct (_acked_ops s <? _op_cnt s); [|discriminate].
  intros H. apply bind_out_of_fuel in H. destruct H as [H | (u1 & s1 & H1 & H)].
  { destruct (negb (last =? _acked_ops s)); discriminate. }
  assert (Hp1 : pending s1 = pending s).
  { destruct (negb (last =? _acked_ops s)); injection H1 as _ <-; reflexivity. }
  apply bind_out_of_fuel in H. destruct H as [H | (u2 & s2 & H2 & H)].
  { destruct (timed_out (_timeout s) (count + 1)); discriminate. }
  assert (Hp2 : s2 = s1).
  { destruct (timed_out (_timeout s) (count + 1)); [discriminate|].
    injection H2 as _ <-. reflexivity. }
  subst s2.
  apply bind_out_of_fuel in H. destruct H as [H | (u3 & s3 & Hck & H)].
  - eapply fuelled_clock_event; eauto.
  - apply clock_event_shortens in Hck. rewrite Hp1 in Hck.
    eapply IH; [|exact H]. lia.
Qed.

Lemma fuelled_wait_stall : fuelled _wait_stall.
Proof.
  intros s s'. unfold _wait_stall. unfold bind at 1. unfold get at 1.
  destruct (Bus.has_stall (shape s)); [|discriminate].
  intros H. apply bind_out_of_fuel in H. destruct H as [H | (c & s1 & _ & H)].
  - eapply stall_wait_fuelled; [|exact H]. lia.
  - discriminate.
Qed.

Lemma fuelled_wait_ack : fuelled _wait_ack.
Proof.
  intros s s'. unfold _wait_ack. unfold bind at 1. unfold get at 1.
  destruct (negb (Bus.has_stall (shape s))); [|discriminate].
  intros H. apply bind_out_of_fuel in H. destruct H as [H | (c & s1 & _ & H)].
  - eapply ack_wait_fuelled; [|exact H]. lia.
  - discriminate.
Qed.

Lemma fuelled_close_cycle : fuelled _close_cycle.
Proof.
  intros s s'. unfold _close_cycle. unfold bind at 1. unfold get at 1.
  intros H. apply bind_out_of_fuel in H. destruct H as [H | (c & s1 & _ & H)].
  - eapply close_wait_fuelled; [|exact H]. lia.
  - revert H. generalize s1 s'. change (fuelled (modify (set_busy false) ;;
      modify (set_busy_event true) ;; drive_sig Bus.set_cyc 0 ;;
      log_msg DEBUG "Closing cycle" ;; clock_event)).
    pose proof fuelled_clock_event. unfold drive_sig, log_msg. fuelled_auto.
Qed.

Lemma fuelled_drive we adr datwr sel idle : fuelled (_drive we adr datwr sel idle).
Proof.
  unfold _drive, drive_sig, log_msg.
  pose proof fuelled_clock_event. pose proof fuelled_wait_stall.
  pose proof fuelled_wait_ack. pose proof idle_wait_fuelled.
  fuelled_auto.
Qed.

Lemma fuelled_drive_ops items : forall cnt, fuelled (drive_ops cnt items).
Proof.
  induction items as [|v rest IH]; intros cnt; cbn [drive_ops].
  - apply fuelled_ret.
  - pose proof fuelled_drive. unfold log_msg.
    destruct v; try apply fuelled_raise.
    apply fuelled_bind; [apply fuelled_drive|]. intros _.
    apply fuelled_bind; [|intros _; apply IH].
    destruct (WBOp.idle op); [apply fuelled_modify | apply fuelled_raise].
Qed.

Lemma fuelled_open_cycle : fuelled _open_cycle.
Proof.
  unfold _open_cycle, fork_read, fork_clk_cycle_counter, _clk_cycle_counter,
    drive_sig, log_msg.
  pose proof fuelled_read. fuelled_auto.
Qed.

Lemma send_cycle_fuelled (arg : pyval) : fuelled (send_cycle arg).
Proof.
  unfold send_cycle, log_msg.
  pose proof fuelled_clock_event. pose proof fuelled_open_cycle.
  pose proof fuelled_close_cycle. pose proof (fuelled_drive_ops (py_iter arg) 0).
  fuelled_auto.
Qed.

(** ** The properties at concrete inputs *)

(** What a coroutine returned, [d] if it did not return. *)
Definition returned {A : Type} (o : outcome A) (d : A) : A :=
  match o with Ret a _ => a | _ => d end.

(** A single write of 0xAA to 0x10 on a classic bus, acknowledged at the
    second edge of the cycle. *)
Definition single_write : list WBOp.t := [WBOp.mk 16 (Some 170) (Some 0) 15].

Definition single_write_start : master :=
  master_at_rest classic_bus None [quiet_edge; ack_edge; quiet_edge; quiet_edge].

Definition single_write_run : outcome (list WBRes.t) :=
  send_cycle (PyList (map PyWBOp single_write)) single_write_start.

Lemma single_write_completes :
  send_cycle (PyList (map PyWBOp single_write)) single_write_start
  = Ret (returned single_write_run []) (final_state single_write_run).
Proof. vm_compute. reflexivity. Qed.

(** Three operations on a pipelined bus with err and rty lines: a write, a
    read after two idle edges and another read.  The write is acknowledged
    while the first read idles; the reads are answered, after the last
    strobe, with err and with rty. *)
Definition three_ops : list WBOp.t :=
  [WBOp.mk 16 (Some 170) (Some 0) 15; WBOp.mk 20 None (Some 2) 15;
   WBOp.mk 24 None (Some 0) 15].

(** The samples of the edges of the open cycle. *)
Definition three_ops_during : list Bus.inp :=
  [quiet_edge; Bus.mk_inp 1 0 0 0 11; quiet_edge; quiet_edge; quiet_edge;
   Bus.mk_inp 0 1 0 0 22; Bus.mk_inp 0 0 1 0 33].

Definition three_ops_start : master :=
  master_at_rest pipelined_bus None (quiet_edge :: three_ops_during ++ [quiet_edge]).

Definition three_ops_run : outcome (list WBRes.t) :=
  send_cycle (PyList (map PyWBOp three_ops)) three_ops_start.

Lemma three_ops_completes :
  send_cycle (PyList (map PyWBOp three_ops)) three_ops_start
  = Ret (returned three_ops_run []) (final_state three_ops_run).
Proof. vm_compute. reflexivity. Qed.

Lemma three_ops_consumed :
  pending three_ops_start
  = quiet_edge :: three_ops_during ++ quiet_edge :: pending (final_state three_ops_run).
Proof. vm_compute. reflexivity. Qed.

Lemma send_cycle_results_in_order_witness :
  send_cycle (PyList (map PyWBOp three_ops)) three_ops_start
  = Ret (returned three_ops_run []) (final_state three_ops_run)
  /\ busy three_ops_start = false
  /\ pending three_ops_start
     = quiet_edge :: three_ops_during ++ quiet_edge :: pending (final_state three_ops_run)
  /\ List.length (returned three_ops_run []) = List.length three_ops
  /\ (forall i op, nth_error three_ops i = Some op ->
        exists r, nth_error (returned three_ops_run []) i = Some r
                  /\ WBRes.adr r = Some (WBOp.adr op)
                  /\ WBRes.datwr r = Some (dat_of op))
  /\ (forall i r, nth_error (returned three_ops_run []) i = Some r ->
        exists reply,
          nth_error (collected (shape three_ops_start) 0 three_ops_during) i
          = Some reply
          /\ WBRes.ack r = WBRes.ack reply
          /\ WBRes.datrd r = WBRes.datrd reply).
Proof.
  split; [exact three_ops_completes|]. split; [reflexivity|].
  split; [exact three_ops_consumed|].
  pose proof (send_cycle_results_in_order three_ops three_ops_start
                (returned three_ops_run []) (final_state three_ops_run)
                three_ops_completes) as H.
  destruct H as (Hlen & Hops & Hrep).
  split; [exact Hlen|]. split.
  - intros i op Hop. destruct (Hops i op Hop) as (r & Hr & Hadr & _ & Hdat & _).
    exists r. split; [exact Hr|]. split; [exact Hadr | exact Hdat].
  - destruct (Hrep eq_refl) as [_ Hall].
    exact (Hall quiet_edge three_ops_during quiet_edge three_ops_consumed).
Defined.

Lemma results_zip_buffers_witness :
  send_cycle (PyList (map PyWBOp three_ops)) three_ops_start
  = Ret (returned three_ops_run []) (final_state three_ops_run)
  /\ busy three_ops_start = false
  /\ pending three_ops_start
     = quiet_edge :: three_ops_during ++ quiet_edge :: pending (final_state three_ops_run)
  /\ exists rb ab, returned three_ops_run [] = map mix (combine rb ab)
                   /\ _aux_buf (final_state three_ops_run) = ab
                   /\ rb = collected (shape three_ops_start) 0 three_ops_during.
Proof.
  split; [exact three_ops_completes|]. split; [reflexivity|].
  split; [exact three_ops_consumed|].
  pose proof (proj2 results_zip_buffers three_ops three_ops_start
                (returned three_ops_run []) (final_state three_ops_run)
                three_ops_completes) as H.
  destruct H as (rb & ab & Hres & Haux & _ & _ & _ & Hcol).
  exists rb, ab. split; [exact Hres|]. split; [exact Haux|].
  destruct (Hcol eq_refl) as [_ Hall].
  exact (Hall quiet_edge three_ops_during quiet_edge three_ops_consumed).
Defined.

Definition refused_run : outcome (list WBRes.t) :=
  send_cycle not_operations (master_at_rest classic_bus None [quiet_edge]).

Lemma refused_run_raises :
  refused_run = Raise usage_fault (final_state refused_run).
Proof. vm_compute. reflexivity. Qed.

Lemma usage_faults_witness :
  is_sequence (PyInt 3) = false
  /\ bus (final_state (send_cycle (PyInt 3) (master_at_rest classic_bus None [quiet_edge])))
     = bus (master_at_rest classic_bus None [quiet_edge])
  /\ is_sequence not_operations = true
  /\ refused_run = Raise usage_fault (final_state refused_run)
  /\ Bus.cyc (bus (final_state refused_run)) = 1.
Proof.
  split; [reflexivity|]. split.
  - exact (proj1 (proj1 (usage_faults (PyInt 3)
                           (master_at_rest classic_bus None [quiet_edge])) eq_refl)).
  - split; [reflexivity|]. split; [exact refused_run_raises|].
    exact (proj1 (proj1 (proj2 (proj2 (usage_faults not_operations
                           (master_at_rest classic_bus None [quiet_edge]))))
                    eq_refl _ refused_run_raises)).
Defined.

(** ack and err raised at the same edge of an open cycle. *)
Definition ack_and_err : master :=
  advance (Bus.mk_inp 1 1 0 0 0) []
          (set_busy true (master_at_rest pipelined_bus None [])).

Lemma get_reply_one_line_per_edge_witness :
  busy ack_and_err = true
  /\ _get_reply (shape ack_and_err) (now ack_and_err)
     = inl (TestFailure "Slave raised ACK and ERR line")
  /\ _read ack_and_err
     = Raise (TestFailure "Slave raised ACK and ERR line") ack_and_err.
Proof.
  split; [reflexivity|]. split; [reflexivity|].
  exact (proj2 (get_reply_one_line_per_edge pipelined_bus (Bus.mk_inp 1 1 0 0 0))
               ack_and_err _ eq_refl eq_refl).
Defined.

(** A strobe held against a stall that lasts: timeout 5, stall sampled high
    at the edge of the strobe and at the five edges after it. *)
Definition stalled_master : master :=
  mk_master (Bus.mk_out 1 1 1 16 170 15) pipelined_bus (Some 5) true false 0 [] [] 1 1 []
            true true stalled_edge (repeat stalled_edge 6) 2.

Lemma wait_stall_timeout_witness :
  Bus.has_stall (shape stalled_master) = true
  /\ _timeout stalled_master = Some 5
  /\ Bus.stall (now stalled_master) = 1
  /\ pending stalled_master = repeat stalled_edge 5 ++ stalled_edge :: []
  /\ exists s', _wait_stall stalled_master = Raise stall_timeout s'
                /\ bus s' = bus stalled_master
                /\ now s' = stalled_edge /\ pending s' = []
                /\ Z.of_nat (edges s') = Z.of_nat (edges stalled_master) + 5 + 1.
Proof.
  split; [reflexivity|]. split; [reflexivity|]. split; [reflexivity|].
  split; [reflexivity|].
  refine (proj1 (wait_stall_timeout stalled_master 5 (repeat stalled_edge 5)
                   stalled_edge [] eq_refl eq_refl eq_refl eq_refl _ _ _) eq_refl).
  - repeat constructor.
  - repeat (constructor; [eexists; reflexivity|]). constructor.
  - cbn. lia.
Defined.

Lemma one_packet_at_a_time_witness :
  (0 < Avalon.data_width timeout3)%nat
  /\ Avalon.reachable timeout3 two_invalid
  /\ Avalon.in_reset first_word = false
  /\ Avalon.is_valid timeout3 first_word = true
  /\ Avalon.startofpacket first_word = true
  /\ Avalon.in_pkt two_invalid = true
  /\ Avalon.edge timeout3 first_word two_invalid
     = inl (AvalonProtocolError "Duplicate start-of-packet received on %s").
Proof.
  split; [cbn; lia|]. split; [exact two_invalid_reachable|].
  repeat (split; [reflexivity|]).
  refine (proj1 (one_packet_at_a_time timeout3 first_word two_invalid _
                   two_invalid_reachable eq_refl eq_refl) eq_refl eq_refl).
  cbn. lia.
Defined.

Lemma invalid_cycle_timeout_witness :
  Avalon.in_reset no_word = false
  /\ Avalon.is_valid timeout3 no_word = false
  /\ Avalon.in_pkt two_invalid = true
  /\ 0 <= Avalon.invalidTimeout timeout3
  /\ Avalon.edge timeout3 no_word two_invalid
     = if reached timeout3 (Avalon.invalid_cyclecount two_invalid + 1)
       then inl timeout_error
       else inr (counted two_invalid, None).
Proof.
  repeat (split; [reflexivity|]). split; [cbn; lia|].
  refine (proj1 (proj2 (invalid_cycle_timeout timeout3 no_word two_invalid))
                eq_refl eq_refl eq_refl _).
  cbn. lia.
Defined.




(** A monitor with one callback, which keeps what it is handed. *)
Definition scoreboard : Monitor.callback nat (list nat) :=
  Monitor.mk_callback nat (list nat) "scoreboard" (fun tr w => inr (tr :: w)).

Lemma recv_sink_witness :
  (forall cb w, In cb (Monitor._callbacks (Monitor.init None (Some scoreboard) [])) ->
                exists w', Monitor.call cb 7%nat w = inr w')
  /\ exists m',
       Monitor._recv 7%nat (Monitor.init None (Some scoreboard) []) = inr m'
       /\ Monitor.invoked m' = [("scoreboard"%string, 7%nat)]
       /\ Monitor.consumers m' = [7%nat]
       /\ Monitor._recvQ m' = []
       /\ Monitor.received_transactions m' = 1.
Proof.
  assert (Hcb : forall cb w,
             In cb (Monitor._callbacks (Monitor.init None (Some scoreboard) [])) ->
             exists w', Monitor.call cb 7%nat w = inr w').
  { intros cb w [<-|[]]. eexists. reflexivity. }
  split; [exact Hcb|].
  destruct (recv_sink 7%nat (Monitor.init None (Some scoreboard) []) Hcb)
    as (m' & Hrun & Hinv & Hturn & _ & Hq & _ & Hn).
  exists m'. split; [exact Hrun|]. split; [exact Hinv|]. split.
  - injection Hturn as <-. reflexivity.
  - split; [|exact Hn]. apply Hq. discriminate.
Defined.

Lemma drive_outside_cycle_witness :
  busy (master_at_rest classic_bus None [quiet_edge]) = false
  /\ exists s',
       _drive 1 16 170 15 (Some 0) (master_at_rest classic_bus None [quiet_edge])
       = Ret tt s'
       /\ bus s' = bus (master_at_rest classic_bus None [quiet_edge])
       /\ edges s' = 0%nat.
Proof.
  split; [reflexivity|].
  destruct (drive_outside_cycle 1 16 170 15 (Some 0)
              (master_at_rest classic_bus None [quiet_edge]) eq_refl)
    as (s' & Hrun & _ & Hbus & Hedges & _).
  exists s'. split; [exact Hrun|]. split; [exact Hbus | exact Hedges].
Defined.

(** ** Two runs from the test bench *)

(** A single write of 0xAA to 0x10, no stall or err signal on the bus: one
    result with ack 1, the address and data of the write, and no stall. *)
Example single_write_result :
  map (fun r => (WBRes.ack r, WBRes.adr r, WBRes.datwr r, WBRes.waitStall r))
      (returned single_write_run [])
  = [(1, Some 16, Some 170, Some 0)].
Proof. vm_compute. reflexivity. Qed.

(** The three operations above: the replies collected, with the count of
    their edges, and the results, each with the code and the read data of
    its reply, the address of its operation and the edges from its issue to
    its reply. *)
Example three_ops_result :
  map (fun r => (WBRes.ack r, WBRes.datrd r, WBRes.waitAck r))
      (collected pipelined_bus 0 three_ops_during)
  = [(1, 11, 1); (2, 22, 5); (3, 33, 6)]
  /\ map WBAux.ts (_aux_buf (final_state three_ops_run)) = [1; 4; 5]
  /\ map (fun r => (WBRes.ack r, WBRes.datrd r, WBRes.adr r, WBRes.waitAck r))
         (returned three_ops_run [])
     = [(1, 11, Some 16, 0); (2, 22, Some 20, 1); (3, 33, Some 24, 1)].
Proof. vm_compute. repeat split. Qed.

(** A packet whose only word, 0x12, carries both start-of-packet and
    end-of-packet, on a bus of one symbol per word without channel signal:
    the callback is called once, with the byte and no channel. *)
Example one_word_packet :
  let cfg := Avalon.mk_config 8 true 0 0 0 8 false false false in
  let word := Avalon.mk_sample None None true true true true byte_12 0 0 in
  let listener := Monitor.mk_callback Avalon.transaction (list Avalon.transaction)
                    "listener" (fun tr w => inr (tr :: w)) in
  match Avalon._monitor_recv cfg [word] Avalon.initial
                             (Monitor.init None (Some listener) []) with
  | inr (st, m) =>
      st = Avalon.initial
      /\ Monitor.consumers m = [Avalon.Packet [18]]
      /\ Monitor.received_transactions m = 1
  | inl _ => False
  end.
Proof. vm_compute. repeat split. Qed.

(** * Further properties of the Wishbone master *)

(** ** What a cycle's waits keep, beyond [evolves] *)

(** A buffered reply carries one of the three reply codes. *)
Definition reply_code (r : WBRes.t) : Prop :=
  WBRes.ack r = 1 \/ WBRes.ack r = 2 \/ WBRes.ack r = 3.

(** [steps s s']: time does not go back, the busy flag and its event are as
    they were, and replies are only appended, each with a reply code. *)
Record steps (s s' : master) : Prop := mk_steps
  { st_busy : busy s' = busy s;
    st_event : busy_event s' = busy_event s;
    st_edges : (edges s <= edges s')%nat;
    st_replies : exists new, _res_buf s' = _res_buf s ++ new /\ Forall reply_code new }.

Lemma steps_refl s : steps s s.
Proof. constructor; auto. exists []. rewrite app_nil_r. auto. Qed.

Lemma steps_trans s1 s2 s3 : steps s1 s2 -> steps s2 s3 -> steps s1 s3.
Proof.
  intros [Hb1 He1 Hd1 (n1 & Hr1 & Hf1)] [Hb2 He2 Hd2 (n2 & Hr2 & Hf2)].
  constructor; try congruence; try lia.
  exists (n1 ++ n2). rewrite Hr2, Hr1, app_assoc. split; [reflexivity|].
  apply Forall_app. auto.
Qed.

Lemma steps_same s s' :
  busy s' = busy s -> busy_event s' = busy_event s -> edges s' = edges s ->
  _res_buf s' = _res_buf s -> steps s s'.
Proof.
  intros Hb He Hd Hr. constructor; auto; try lia.
  exists []. rewrite app_nil_r. auto.
Qed.

Lemma get_reply_codes sh i ack code :
  _get_reply sh i = inr (ack, code) ->
  if ack then code = 1 \/ code = 2 \/ code = 3 else code = 0.
Proof.
  unfold _get_reply.
  destruct (Bus.ack i =? 1), (Bus.has_err sh && (Bus.err i =? 1)),
    (Bus.has_rty sh && (Bus.rty i =? 1)); cbn; intros H;
    try discriminate; injection H as <- <-; auto.
Qed.

Lemma get_reply_steps : keeps steps get_reply.
Proof. intros s. unfold get_reply. destruct (_get_reply _ _); apply steps_refl. Qed.

Lemma read_steps : keeps steps _read.
Proof.
  intros s. unfold _read, get_reply. unfold_monad.
  destruct (busy s) eqn:Hb.
  - destruct (_get_reply (shape s) (now s)) as [e|[ack code]] eqn:Hr; cbn.
    + apply steps_refl.
    + apply get_reply_codes in Hr.
      destruct ack; cbn.
      * constructor; cbn; auto.
        eexists. split; [reflexivity|]. constructor; [exact Hr | constructor].
      * apply steps_same; reflexivity.
  - cbn. apply steps_same; reflexivity.
Qed.

Lemma resume_parked_steps : keeps steps resume_parked.
Proof.
  unfold resume_parked.
  apply (keeps_bind _ steps_trans); [apply keeps_get, steps_refl|]. intros s.
  apply (keeps_bind _ steps_trans).
  - destruct (reader_waiting s); [apply read_steps | apply keeps_ret, steps_refl].
  - intros _. apply (keeps_bind _ steps_trans); [apply keeps_get, steps_refl|].
    intros s1. destruct (counter_waiting s1); [|apply keeps_ret, steps_refl].
    intros s2. unfold _clk_cycle_counter. unfold_monad. cbn.
    apply steps_same; reflexivity.
Qed.

Lemma clock_event_steps : keeps steps clock_event.
Proof.
  intros s. unfold clock_event. destruct (pending s) as [|i rest].
  - apply steps_refl.
  - eapply steps_trans; [|apply resume_parked_steps].
    constructor; cbn; auto. exists []. rewrite app_nil_r. auto.
Qed.

Lemma log_msg_steps lvl msg : keeps steps (log_msg lvl msg).
Proof. intros s. apply steps_same; reflexivity. Qed.

Lemma drive_sig_steps f v : keeps steps (drive_sig f v).
Proof. intros s. apply steps_same; reflexivity. Qed.

Lemma busy_event_wait_steps : keeps steps busy_event_wait.
Proof. intros s. unfold busy_event_wait. destruct (busy_event s); apply steps_refl. Qed.

Lemma idle_wait_steps n : keeps steps (idle_wait n).
Proof.
  induction n as [|n IH]; cbn [idle_wait];
    pose proof clock_event_steps; keeps_auto steps_refl steps_trans.
Qed.

Lemma stall_wait_steps fuel : forall count, keeps steps (stall_wait fuel count).
Proof.
  induction fuel as [|fuel IH]; intros count; cbn [stall_wait];
    pose proof clock_event_steps; try pose proof (IH (count + 1));
    keeps_auto steps_refl steps_trans.
Qed.

Lemma wait_stall_steps : keeps steps _wait_stall.
Proof.
  unfold _wait_stall.
  apply (keeps_bind _ steps_trans); [apply keeps_get, steps_refl|]. intros s.
  pose proof (stall_wait_steps (S (List.length (pending s))) 0).
  pose proof (log_msg_steps DEBUG "Stalled for %u cycles").
  keeps_auto steps_refl steps_trans.
Qed.

Lemma ack_wait_steps fuel : forall count, keeps steps (ack_wait fuel count).
Proof.
  induction fuel as [|fuel IH]; intros count; cbn [ack_wait];
    pose proof clock_event_steps; pose proof get_reply_steps;
    try pose proof (IH (count + 1)); keeps_auto steps_refl steps_trans.
Qed.

Lemma wait_ack_steps : keeps steps _wait_ack.
Proof.
  unfold _wait_ack.
  apply (keeps_bind _ steps_trans); [apply keeps_get, steps_refl|]. intros s.
  pose proof (ack_wait_steps (S (List.length (pending s))) 0).
  pose proof (log_msg_steps DEBUG "Waited %u cycles for ackknowledge").
  keeps_auto steps_refl steps_trans.
Qed.

Lemma close_wait_steps fuel :
  forall count last_acked_ops, keeps steps (close_wait fuel count last_acked_ops).
Proof.
  induction fuel as [|fuel IH]; intros count last_acked_ops; cbn [close_wait].
  - keeps_auto steps_refl steps_trans.
  - apply (keeps_bind _ steps_trans); [apply keeps_get, steps_refl|]. intros s.
    pose proof clock_event_steps.
    pose proof (log_msg_steps DEBUG "Waiting for missing acks: %u/%u").
    pose proof (IH (count + 1) (_acked_ops s)).
    keeps_auto steps_refl steps_trans.
Qed.

Lemma drive_steps we adr datwr sel idle : keeps steps (_drive we adr datwr sel idle).
Proof.
  unfold _drive.
  apply (keeps_bind _ steps_trans); [apply keeps_get, steps_refl|]. intros s.
  pose proof clock_event_steps. pose proof wait_stall_steps.
  pose proof wait_ack_steps. pose proof idle_wait_steps.
  pose proof (drive_sig_steps Bus.set_stb 1).
  pose proof (drive_sig_steps Bus.set_stb 0).
  pose proof (drive_sig_steps Bus.set_we we).
  pose proof (drive_sig_steps Bus.set_we 0).
  pose proof (drive_sig_steps Bus.set_adr adr).
  pose proof (drive_sig_steps Bus.set_sel sel).
  pose proof (drive_sig_steps Bus.set_datwr datwr).
  destruct (busy s).
  - repeat first [assumption | apply (keeps_bind _ steps_trans); [|intros ?]].
    + destruct idle; [auto | apply keeps_ret, steps_refl].
    + intros s0. apply steps_same; reflexivity.
  - apply log_msg_steps.
Qed.

Lemma drive_ops_steps items : forall cnt, keeps steps (drive_ops cnt items).
Proof.
  induction items as [|v rest IH]; intros cnt; cbn [drive_ops].
  - apply keeps_ret, steps_refl.
  - destruct v; try (apply keeps_raise, steps_refl).
    apply (keeps_bind _ steps_trans); [apply drive_steps|]. intros _.
    apply (keeps_bind _ steps_trans); [|intros _; apply IH].
    destruct (WBOp.idle op); [|apply keeps_raise, steps_refl].
    apply log_msg_steps.
Qed.

(** [clocked s s']: in an open cycle whose counter is parked on the clock,
    the counter has moved by as many edges as the simulation. *)
Record clocked (s s' : master) : Prop := mk_clocked
  { ck_busy : busy s' = busy s;
    ck_clock : busy s = true -> counter_waiting s = true ->
               counter_waiting s' = true
               /\ _clk_cycle_count s' - _clk_cycle_count s
                  = Z.of_nat (edges s') - Z.of_nat (edges s) }.

Lemma clocked_refl s : clocked s s.
Proof. constructor; auto. intros _ H. split; [exact H | lia]. Qed.

Lemma clocked_trans s1 s2 s3 : clocked s1 s2 -> clocked s2 s3 -> clocked s1 s3.
Proof.
  intros [Hb1 Hc1] [Hb2 Hc2]. constructor; [congruence|].
  intros Hb Hw. destruct (Hc1 Hb Hw) as [Hw2 Hk1].
  assert (Hb2' : busy s2 = true) by congruence.
  destruct (Hc2 Hb2' Hw2) as [Hw3 Hk2]. split; [exact Hw3 | lia].
Qed.

Lemma clocked_same s s' :
  busy s' = busy s -> edges s' = edges s ->
  counter_waiting s' = counter_waiting s ->
  _clk_cycle_count s' = _clk_cycle_count s -> clocked s s'.
Proof.
  intros Hb Hd Hw Hc. constructor; auto.
  intros _ H. split; [congruence | lia].
Qed.

Lemma clock_event_clocked : yields clocked clock_event.
Proof.
  intros s a s'. unfold clock_event. destruct (pending s) as [|i rest]; [discriminate|].
  unfold resume_parked, _read, get_reply, _clk_cycle_counter. unfold_monad.
  cbn -[_get_reply].
  destruct (reader_waiting s); cbn -[_get_reply];
    [destruct (busy s) eqn:Hb; cbn -[_get_reply];
     [destruct (_get_reply (shape s) i) as [e|[ack code]]; cbn -[_get_reply];
      [discriminate | destruct ack; cbn -[_get_reply]]|]|];
    destruct (counter_waiting s) eqn:Hw; cbn -[Z.of_nat]; intros H; injection H as _ <-;
    constructor; cbn -[Z.of_nat]; auto; intros H1 H2; try congruence;
    try rewrite Hb; split; auto; lia.
Qed.

Lemma keeps_yields (R : master -> master -> Prop) {A : Type} (m : M A) :
  keeps R m -> yields R m.
Proof. intros H s a s' Hm. eapply keeps_ret_inv; eauto. Qed.

Lemma modify_clocked f :
  (forall s, busy (f s) = busy s /\ edges (f s) = edges s
             /\ counter_waiting (f s) = counter_waiting s
             /\ _clk_cycle_count (f s) = _clk_cycle_count s) ->
  yields clocked (modify f).
Proof.
  intros Hf. apply yields_modify. intros s.
  destruct (Hf s) as (? & ? & ? & ?). apply clocked_same; assumption.
Qed.

Lemma log_msg_clocked lvl msg : yields clocked (log_msg lvl msg).
Proof. apply modify_clocked. intros s. cbn. auto. Qed.

Lemma drive_sig_clocked f v : yields clocked (drive_sig f v).
Proof. apply modify_clocked. intros s. cbn. auto. Qed.

Lemma get_reply_clocked : yields clocked get_reply.
Proof.
  intros s a s'. unfold get_reply. destruct (_get_reply _ _); [discriminate|].
  intros H. injection H as _ <-. apply clocked_refl.
Qed.

Lemma idle_wait_clocked n : yields clocked (idle_wait n).
Proof.
  induction n as [|n IH]; cbn [idle_wait];
    pose proof clock_event_clocked; yields_auto clocked_refl clocked_trans.
Qed.

Lemma stall_wait_clocked fuel : forall count, yields clocked (stall_wait fuel count).
Proof.
  induction fuel as [|fuel IH]; intros count; cbn [stall_wait];
    pose proof clock_event_clocked; yields_auto clocked_refl clocked_trans.
Qed.

Lemma wait_stall_clocked : yields clocked _wait_stall.
Proof.
  unfold _wait_stall.
  pose proof stall_wait_clocked. pose proof log_msg_clocked.
  yields_auto clocked_refl clocked_trans.
Qed.

Lemma ack_wait_clocked fuel : forall count, yields clocked (ack_wait fuel count).
Proof.
  induction fuel as [|fuel IH]; intros count; cbn [ack_wait];
    pose proof clock_event_clocked; pose proof get_reply_clocked;
    yields_auto clocked_refl clocked_trans.
Qed.

Lemma wait_ack_clocked : yields clocked _wait_ack.
Proof.
  unfold _wait_ack.
  pose proof ack_wait_clocked. pose proof log_msg_clocked.
  yields_auto clocked_refl clocked_trans.
Qed.

(** [idle_wait n] waits for exactly [n] edges. *)
Lemma idle_wait_edges n : forall s a s',
  idle_wait n s = Ret a s' -> edges s' = (edges s + n)%nat.
Proof.
  induction n as [|n IH]; intros s a s' H; cbn [idle_wait] in H.
  - injection H as _ <-. lia.
  - split_bind H u s1 H1. apply clock_event_time in H1. destruct H1 as [_ H1].
    apply IH in H. lia.
Qed.

(** The edges [_drive] waits for before it strobes. *)
Definition idle_edges (idle : option Z) : Z :=
  match idle with
  | Some idlecnt => Z.max 0 idlecnt
  | None => 0
  end.

(** A completed [_drive] of an open cycle: the operation is recorded with a
    time stamp at least [idle + 1] edges after the call, and strobe and write
    enable are low again. *)
Lemma drive_issue we adr datwr sel idle s s' :
  busy s = true ->
  counter_waiting s = true ->
  _drive we adr datwr sel idle s = Ret tt s' ->
  exists stalled ts,
    _aux_buf s' = _aux_buf s ++ [WBAux.mk sel adr datwr stalled idle ts]
    /\ _clk_cycle_count s + 1 + idle_edges idle <= ts
    /\ ts <= _clk_cycle_count s'
    /\ counter_waiting s' = true
    /\ busy s' = true
    /\ Bus.stb (bus s') = 0 /\ Bus.we (bus s') = 0.
Proof.
  intros Hb Hw H. unfold _drive in H.
  split_bind H s0 s0' H0. apply get_ret in H0. destruct H0 as [-> ->].
  rewrite Hb in H.
  split_bind H u1 s1 H1.
  assert (C1 : clocked s s1 /\ Z.of_nat (edges s1) = Z.of_nat (edges s) + idle_edges idle
               /\ _aux_buf s1 = _aux_buf s).
  { destruct idle as [n|]; cbn [idle_edges].
    - split; [eapply idle_wait_clocked; eauto|]. split.
      + apply idle_wait_edges in H1. rewrite H1. lia.
      + apply (keeps_ret_inv evolves) in H1; [apply (ev_aux _ _ H1)|apply idle_wait_keeps].
    - injection H1 as _ <-. split; [apply clocked_refl|]. split; [lia | reflexivity]. }
  destruct C1 as (C1 & E1 & A1).
  destruct (ck_clock _ _ C1 Hb Hw) as [Hw1 K1].
  pose proof (ck_busy _ _ C1) as Hb1. rewrite Hb in Hb1.
  split_bind H u2 s2 H2. apply modify_ret in H2.
  split_bind H u3 s3 H3. apply modify_ret in H3.
  split_bind H u4 s4 H4. apply modify_ret in H4.
  split_bind H u5 s5 H5. apply modify_ret in H5.
  split_bind H u6 s6 H6. apply modify_ret in H6.
  assert (F6 : busy s6 = true /\ counter_waiting s6 = true
               /\ _clk_cycle_count s6 = _clk_cycle_count s1
               /\ edges s6 = edges s1 /\ _aux_buf s6 = _aux_buf s).
  { subst s6 s5 s4 s3 s2. cbn. auto. }
  destruct F6 as (Hb6 & Hw6 & K6 & E6 & A6).
  split_bind H u7 s7 H7.
  pose proof (clock_event_clocked _ _ _ H7) as C7.
  pose proof (clock_event_time _ _ _ H7) as [_ E7].
  apply (keeps_ret_inv evolves) in H7; [|apply clock_event_keeps].
  destruct (ck_clock _ _ C7 Hb6 Hw6) as [Hw7 K7].
  pose proof (ck_busy _ _ C7) as Hb7. rewrite Hb6 in Hb7.
  split_bind H stalled s8 H8.
  pose proof (wait_stall_clocked _ _ _ H8) as C8.
  pose proof (st_edges _ _ (keeps_ret_inv steps _ _ _ _ wait_stall_steps H8)) as E8.
  apply (keeps_ret_inv evolves) in H8; [|apply wait_stall_keeps].
  destruct (ck_clock _ _ C8 Hb7 Hw7) as [Hw8 K8].
  pose proof (ck_busy _ _ C8) as Hb8. rewrite Hb7 in Hb8.
  split_bind H u9 s9 H9. apply modify_ret in H9.
  assert (F9 : busy s9 = true /\ counter_waiting s9 = true
               /\ _clk_cycle_count s9 = _clk_cycle_count s8 /\ edges s9 = edges s8).
  { subst s9. cbn. auto. }
  destruct F9 as (Hb9 & Hw9 & K9 & E9).
  split_bind H u10 s10 H10.
  pose proof (wait_ack_clocked _ _ _ H10) as C10.
  pose proof (st_edges _ _ (keeps_ret_inv steps _ _ _ _ wait_ack_steps H10)) as E10.
  apply (keeps_ret_inv evolves) in H10; [|apply wait_ack_keeps].
  destruct (ck_clock _ _ C10 Hb9 Hw9) as [Hw10 K10].
  pose proof (ck_busy _ _ C10) as Hb10. rewrite Hb9 in Hb10.
  split_bind H u11 s11 H11. apply modify_ret in H11.
  apply modify_ret in H.
  exists stalled, (_clk_cycle_count s8).
  split.
  { rewrite H, H11. cbn. rewrite (ev_aux _ _ H10), H9. cbn.
    rewrite (ev_aux _ _ H8), (ev_aux _ _ H7), A6. reflexivity. }
  split; [lia|].
  rewrite H, H11. cbn. repeat split; auto. lia.
Qed.

(** Time stamps that leave each operation its idle cycles and one edge for
    its strobe, starting after [t0]. *)
Fixpoint spaced (t0 : Z) (auxs : list WBAux.t) : Prop :=
  match auxs with
  | [] => True
  | aux :: rest =>
      t0 + 1 + idle_edges (WBAux.waitIdle aux) <= WBAux.ts aux
      /\ spaced (WBAux.ts aux) rest
  end.

Lemma spaced_earlier t t' auxs : t' <= t -> spaced t auxs -> spaced t' auxs.
Proof. destruct auxs; cbn; [auto|]. intros Hle [H1 H2]. split; [lia | exact H2]. Qed.

Lemma drive_ops_spaced items :
  forall cnt s s',
    busy s = true ->
    counter_waiting s = true ->
    drive_ops cnt items s = Ret tt s' ->
    exists auxs,
      _aux_buf s' = _aux_buf s ++ auxs
      /\ spaced (_clk_cycle_count s) auxs
      /\ counter_waiting s' = true
      /\ (items <> [] -> Bus.stb (bus s') = 0 /\ Bus.we (bus s') = 0).
Proof.
  induction items as [|v rest IH]; intros cnt s s' Hb Hw H; cbn [drive_ops] in H.
  - injection H as <-. exists []. rewrite app_nil_r. cbn. intuition congruence.
  - destruct v; try discriminate.
    split_bind H u1 s1 H1. destruct u1.
    apply drive_issue in H1; [|exact Hb|exact Hw].
    destruct H1 as (stalled & ts & Haux & Hts & Hts' & Hw1 & Hb1 & Hstb & Hwe).
    split_bind H u2 s2 H2.
    destruct (WBOp.idle op) eqn:Hidle; [|discriminate].
    apply modify_ret in H2.
    assert (F2 : busy s2 = true /\ counter_waiting s2 = true
                 /\ _clk_cycle_count s2 = _clk_cycle_count s1
                 /\ _aux_buf s2 = _aux_buf s1 /\ bus s2 = bus s1).
    { subst s2. cbn. auto. }
    destruct F2 as (Hb2 & Hw2 & K2 & A2 & B2).
    destruct (IH _ _ _ Hb2 Hw2 H) as (auxs & Haux' & Hsp & Hw' & Hbus).
    eexists (_ :: auxs). split.
    { rewrite Haux', A2, Haux, <- app_assoc. reflexivity. }
    split.
    { cbn. split; [exact Hts|]. eapply spaced_earlier; [|exact Hsp]. lia. }
    split; [exact Hw'|]. intros _.
    destruct rest as [|v' rest'].
    + cbn in H. injection H as <-. rewrite B2. auto.
    + apply Hbus. discriminate.
Qed.

(** ** The master after a cycle *)

Lemma open_cycle_clock s s' :
  _open_cycle s = Ret tt s' ->
  _clk_cycle_count s' = 0 /\ counter_waiting s' = true /\ busy_event s' = false.
Proof.
  intros H. unfold _open_cycle in H.
  split_bind H s0 s0' H0. apply get_ret in H0. destruct H0 as [-> ->].
  split_bind H u1 s1 H1.
  split_bind H u2 s2 H2. apply modify_ret in H2.
  split_bind H u3 s3 H3. apply modify_ret in H3.
  split_bind H u4 s4 H4.
  pose proof (keeps_ret_inv steps _ _ _ _ read_steps H4) as S4.
  split_bind H u5 s5 H5.
  unfold fork_clk_cycle_counter, _clk_cycle_counter, bind, get, modify in H5.
  cbn in H5. injection H5 as _ H5.
  split_bind H u6 s6 H6. apply modify_ret in H6.
  split_bind H u7 s7 H7. apply modify_ret in H7.
  split_bind H u8 s8 H8. apply modify_ret in H8.
  split_bind H u9 s9 H9. apply modify_ret in H9.
  apply modify_ret in H.
  rewrite H, H9, H8, H7, H6, <- H5. cbn.
  rewrite (st_busy _ _ S4), (st_event _ _ S4), H3, H2. cbn. auto.
Qed.

(** At the edge after the cycle has been closed, the forked coroutines see
    [busy] false and end. *)
Lemma clock_event_retires s a s' :
  busy s = false ->
  clock_event s = Ret a s' ->
  reader_waiting s' = false /\ counter_waiting s' = false.
Proof.
  intros Hb. unfold clock_event. destruct (pending s) as [|i rest]; [discriminate|].
  unfold resume_parked, _read, get_reply, _clk_cycle_counter. unfold_monad.
  cbn -[_get_reply].
  destruct (reader_waiting s) eqn:Hr; cbn -[_get_reply]; rewrite ?Hb;
    cbn -[_get_reply]; destruct (counter_waiting s) eqn:Hw; cbn; rewrite ?Hb;
    intros H; injection H as _ <-; cbn; auto.
Qed.

Lemma close_cycle_rest s s' :
  _close_cycle s = Ret tt s' ->
  bus s' = Bus.set_cyc 0 (bus s)
  /\ busy s' = false /\ busy_event s' = true
  /\ reader_waiting s' = false /\ counter_waiting s' = false
  /\ _op_cnt s <= _acked_ops s'
  /\ exists new, _res_buf s' = _res_buf s ++ new /\ Forall reply_code new.
Proof.
  intros H. unfold _close_cycle in H.
  split_bind H s0 s0' H0. apply get_ret in H0. destruct H0 as [-> ->].
  split_bind H u1 s1 H1.
  pose proof (close_wait_ret _ _ _ _ _ _ H1) as Hack.
  pose proof (keeps_ret_inv steps _ _ _ _ (close_wait_steps _ _ _) H1) as S1.
  apply (keeps_ret_inv evolves) in H1; [|apply close_wait_keeps].
  split_bind H u2 s2 H2. apply modify_ret in H2.
  split_bind H u3 s3 H3. apply modify_ret in H3.
  split_bind H u4 s4 H4. apply modify_ret in H4.
  split_bind H u5 s5 H5. apply modify_ret in H5.
  assert (Hb5 : busy s5 = false) by (subst; reflexivity).
  destruct (clock_event_retires _ _ _ Hb5 H) as [Hr Hw].
  pose proof (keeps_ret_inv steps _ _ _ _ clock_event_steps H) as S5.
  apply (keeps_ret_inv evolves) in H; [|apply clock_event_keeps].
  destruct (ev_idle _ _ H Hb5) as [Hres Hacked].
  rewrite (ev_bus _ _ H), (ev_busy _ _ H), (st_event _ _ S5), Hres, Hacked.
  subst s5 s4 s3 s2. cbn in *.
  rewrite (ev_bus _ _ H1). rewrite (ev_op_cnt _ _ H1) in Hack.
  repeat split; auto. exact (st_replies _ _ S1).
Qed.

(** Everything that holds once [send_cycle] has returned on a list. *)
Lemma send_cycle_at_rest (items : list pyval) (s : master) res s' :
  send_cycle (PyList items) s = Ret res s' ->
  Bus.cyc (bus s') = 0 /\ Bus.stb (bus s') = 0 /\ Bus.we (bus s') = 0
  /\ busy s' = false /\ busy_event s' = true
  /\ reader_waiting s' = false /\ counter_waiting s' = false
  /\ Z.of_nat (List.length items) <= _acked_ops s'
  /\ Forall reply_code res
  /\ spaced 0 (_aux_buf s').
Proof.
  intros H. unfold send_cycle in H.
  split_bind H u1 s1 H1. cbn [is_sequence has_strip has_getitem has_iter negb andb orb
                                py_len py_iter] in H.
  split_bind H u2 s2 H2. apply modify_ret in H2.
  destruct (Z.of_nat (List.length items) <? 1) eqn:Hn.
  { split_bind H u3 s3 H3. discriminate. }
  apply Z.ltb_ge in Hn.
  split_bind H u3 s3 H3. destruct u3.
  pose proof (open_cycle_clock _ _ H3) as (Hclk & Hcw & _).
  apply open_cycle_ret in H3.
  destruct H3 as (Hcyc & Hbusy & Hcnt & Hack & Hres & Haux).
  split_bind H u4 s4 H4. destruct u4.
  pose proof (keeps_ret_inv drives _ _ _ _ (drive_ops_keeps _ _) H4) as Hd.
  pose proof (keeps_ret_inv steps _ _ _ _ (drive_ops_steps _ _) H4) as Hs.
  apply drive_ops_spaced in H4; [|exact Hbusy|exact Hcw].
  destruct H4 as (auxs & Haux4 & Hsp & _ & Hbus4).
  assert (Hne : items <> []) by (intros ->; cbn in Hn; lia).
  destruct (Hbus4 Hne) as [Hstb Hwe].
  split_bind H u5 s5 H5. destruct u5.
  assert (Haux5 : _aux_buf s5 = _aux_buf s4).
  { unfold _close_cycle in H5.
    split_bind H5 s0 s0' H0. apply get_ret in H0. destruct H0 as [-> ->].
    split_bind H5 v1 t1 G1.
    apply (keeps_ret_inv evolves) in G1; [|apply close_wait_keeps].
    split_bind H5 v2 t2 G2. apply modify_ret in G2.
    split_bind H5 v3 t3 G3. apply modify_ret in G3.
    split_bind H5 v4 t4 G4. apply modify_ret in G4.
    split_bind H5 v5 t5 G5. apply modify_ret in G5.
    apply (keeps_ret_inv evolves) in H5; [|apply clock_event_keeps].
    rewrite (ev_aux _ _ H5). subst t5 t4 t3 t2. cbn. apply (ev_aux _ _ G1). }
  apply close_cycle_rest in H5.
  destruct H5 as (Hbus5 & Hb5 & He5 & Hr5 & Hw5 & Hacked & new & Hres5 & Hnew).
  split_bind H s6 s6' H6. apply get_ret in H6. destruct H6 as [-> ->].
  split_bind H u7 s7 H7. apply modify_ret in H7. injection H as <- <-.
  rewrite H7. cbn. rewrite Hbus5. cbn.
  rewrite Haux5, Haux4, Haux. cbn [app].
  rewrite (dr_op_cnt _ _ Hd), Hcnt, H2 in Hacked. cbn in Hacked.
  rewrite Hclk in Hsp.
  repeat split; auto.
  destruct (st_replies _ _ Hs) as (new4 & Hres4 & Hnew4).
  rewrite Hres5, Hres4, Hres. cbn [app].
  assert (Hall : Forall reply_code (new4 ++ new)) by (apply Forall_app; auto).
  unfold pick_and_mix. revert Hall. generalize (new4 ++ new). generalize auxs.
  intros ab rb. revert ab. induction rb as [|r rb IH]; intros ab Hall; cbn.
  - constructor.
  - destruct ab as [|a ab]; cbn; [constructor|].
    inversion Hall; subst. constructor; [|apply IH; assumption].
    unfold reply_code in *. cbn. assumption.
Qed.

(** X1: when [send_cycle] has returned, the master is at rest: cyc, stb and
    we are low, the busy flag is down and its event fired, the reply
    collector and the cycle counter have ended, and at least as many replies
    were counted as operations were submitted (cyc is not lowered before). *)
Theorem completed_cycle_at_rest (items : list pyval) (s : master) res s' :
  send_cycle (PyList items) s = Ret res s' ->
  Bus.cyc (bus s') = 0 /\ Bus.stb (bus s') = 0 /\ Bus.we (bus s') = 0
  /\ busy s' = false /\ busy_event s' = true
  /\ reader_waiting s' = false /\ counter_waiting s' = false
  /\ Z.of_nat (List.length items) <= _acked_ops s'.
Proof.
  intros H. apply send_cycle_at_rest in H.
  destruct H as (H1 & H2 & H3 & H4 & H5 & H6 & H7 & H8 & _).
  auto 10.
Qed.

(** X2: an err or an rty reply is collected just as an ack is, and
    reported.  At a clock edge of an open cycle that shows one reply line
    alone, the collector does not raise: it buffers a record with the code
    of that line (1 for ack, 2 for err, 3 for rty) and counts one more
    reply, and the cycle stays open.  Every result of a completed cycle
    carries such a code, and on a master that was not busy the codes of the
    results are, in order, the codes of the edges of the open cycle that
    show a reply, one for each operation submitted. *)
Theorem results_carry_reply_codes :
  (forall s i rest code,
      busy s = true -> reader_waiting s = true ->
      pending s = i :: rest ->
      _get_reply (shape s) i = inr (true, code) ->
      (code = 1 \/ code = 2 \/ code = 3)
      /\ exists s1,
           clock_event s = Ret tt s1
           /\ busy s1 = true
           /\ _res_buf s1
              = _res_buf s ++ [WBRes.mk code None None (Bus.datrd i) None None None
                                        (_clk_cycle_count s)]
           /\ _acked_ops s1 = _acked_ops s + 1)
  /\ (forall (items : list pyval) (s : master) res s',
      send_cycle (PyList items) s = Ret res s' ->
      Forall reply_code res
      /\ (busy s = false ->
          forall first during last,
            pending s = first :: during ++ last :: pending s' ->
            map WBRes.ack res
            = firstn (List.length items)
                     (map WBRes.ack (collected (shape s) 0 during)))).
Proof.
  split.
  - intros s i rest code Hb Hr Hp Hg.
    split; [exact (get_reply_codes _ _ _ _ Hg)|].
    unfold clock_event. rewrite Hp.
    unfold resume_parked, _read, get_reply, _clk_cycle_counter. unfold_monad.
    cbn -[_get_reply]. rewrite Hr. cbn -[_get_reply]. rewrite Hb. cbn -[_get_reply].
    rewrite Hg. cbn -[_get_reply].
    destruct (counter_waiting s); cbn -[_get_reply];
      (eexists; split; [reflexivity|]); cbn; auto.
  - intros items s res s' H. split.
    + apply send_cycle_at_rest in H. apply H.
    + intros Hb first during last Hp.
      apply send_cycle_completed in H.
      destruct H as (ops & rb & ab & Hitems & _ & -> & Hall & _ & _ & _ & Hcol).
      destruct (Hcol Hb) as (first' & during' & last' & Hp' & ->).
      rewrite Hp in Hp'. apply frame_unique in Hp'. subst during'.
      apply Forall2_same_length in Hall.
      rewrite Hitems, length_map, Hall.
      unfold pick_and_mix. rewrite map_map, <- map_fst_combine.
      apply map_ext. intros [r a]. reflexivity.
Qed.

Lemma spaced_nth auxs :
  forall t0 i aux,
    spaced t0 auxs -> nth_error auxs i = Some aux ->
    t0 + Z.of_nat i + 1 + idle_edges (WBAux.waitIdle aux) <= WBAux.ts aux.
Proof.
  induction auxs as [|a auxs IH]; intros t0 i aux Hsp Hnth.
  - destruct i; discriminate.
  - destruct Hsp as [Ha Hrest]. destruct i as [|i]; cbn in Hnth.
    + injection Hnth as <-. lia.
    + specialize (IH _ _ _ Hrest Hnth).
      assert (0 <= idle_edges (WBAux.waitIdle a)).
      { unfold idle_edges. destruct (WBAux.waitIdle a); lia. }
      lia.
Qed.

(** X3: the time stamps recorded in a completed cycle are spaced: counted
    in clock edges since the cycle was opened, each operation is issued at
    least its idle count plus one edge after the one before it, so the
    [i]-th operation (from 0) is issued no earlier than edge [i + 1 + idle]. *)
Theorem issue_times_spaced (items : list pyval) (s : master) res s' :
  send_cycle (PyList items) s = Ret res s' ->
  spaced 0 (_aux_buf s')
  /\ forall i aux, nth_error (_aux_buf s') i = Some aux ->
       Z.of_nat i + 1 + idle_edges (WBAux.waitIdle aux) <= WBAux.ts aux.
Proof.
  intros H. apply send_cycle_at_rest in H.
  destruct H as (_ & _ & _ & _ & _ & _ & _ & _ & _ & Hsp).
  split; [exact Hsp|]. intros i aux Hnth.
  pose proof (spaced_nth _ _ _ _ Hsp Hnth). lia.
Qed.

(** ** Blocking *)

Definition unblocked {A : Type} (m : M A) : Prop :=
  forall s s', m s <> Blocked s'.

Lemma bind_blocked {A B : Type} (m : M A) (k : A -> M B) s s' :
  bind m k s = Blocked s' ->
  m s = Blocked s' \/ exists a s1, m s = Ret a s1 /\ k a s1 = Blocked s'.
Proof.
  unfold bind. destruct (m s) as [a s1| | |s1|]; try discriminate.
  - intros H. right. eauto.
  - intros H. left. injection H as ->. reflexivity.
Qed.

Lemma unblocked_bind {A B : Type} (m : M A) (k : A -> M B) :
  unblocked m -> (forall a, unblocked (k a)) -> unblocked (bind m k).
Proof.
  intros Hm Hk s s' H. apply bind_blocked in H.
  destruct H as [H | (a & s1 & _ & H)]; [eapply Hm | eapply Hk]; eauto.
Qed.

Lemma unblocked_ret {A : Type} (a : A) : unblocked (ret a).
Proof. intros s s'. discriminate. Qed.

Lemma unblocked_raise {A : Type} (e : exn) : unblocked (@raise A e).
Proof. intros s s'. discriminate. Qed.

Lemma unblocked_out_of_fuel {A : Type} : unblocked (@out_of_fuel A).
Proof. intros s s'. discriminate. Qed.

Lemma unblocked_get : unblocked get.
Proof. intros s s'. discriminate. Qed.

Lemma unblocked_modify f : unblocked (modify f).
Proof. intros s s'. discriminate. Qed.

Lemma unblocked_get_reply : unblocked get_reply.
Proof. intros s s'. unfold get_reply. destruct (_get_reply _ _); discriminate. Qed.

Ltac unblocked_auto :=
  repeat first
    [ assumption
    | apply unblocked_ret
    | apply unblocked_raise
    | apply unblocked_out_of_fuel
    | apply unblocked_get
    | apply unblocked_modify
    | apply unblocked_get_reply
    | match goal with H : forall _, unblocked _ |- _ => apply H end
    | match goal with H : forall _ _, unblocked _ |- _ => apply H end
    | match goal with H : forall _ _ _, unblocked _ |- _ => apply H end
    | apply unblocked_bind; [|intros ?]
    | match goal with |- unblocked (if ?b then _ else _) => destruct b end
    | match goal with |- unblocked (match ?x with _ => _ end) => destruct x end ].

Lemma unblocked_read : unblocked _read.
Proof. unfold _read. unblocked_auto. Qed.

Lemma unblocked_clock_event : unblocked clock_event.
Proof.
  intros s s'. unfold clock_event. destruct (pending s); [discriminate|].
  revert s'. generalize (advance i l s).
  change (unblocked resume_parked). unfold resume_parked, _clk_cycle_counter.
  pose proof unblocked_read. unblocked_auto.
Qed.

Lemma unblocked_idle_wait n : unblocked (idle_wait n).
Proof.
  induction n; cbn [idle_wait]; pose proof unblocked_clock_event; unblocked_auto.
Qed.

Lemma unblocked_stall_wait fuel : forall count, unblocked (stall_wait fuel count).
Proof.
  induction fuel as [|fuel IH]; intros count; cbn [stall_wait];
    pose proof unblocked_clock_event; unblocked_auto.
Qed.

Lemma unblocked_ack_wait fuel : forall count, unblocked (ack_wait fuel count).
Proof.
  induction fuel as [|fuel IH]; intros count; cbn [ack_wait];
    pose proof unblocked_clock_event; unblocked_auto.
Qed.

Lemma unblocked_close_wait fuel :
  forall count last_acked_ops, unblocked (close_wait fuel count last_acked_ops).
Proof.
  induction fuel as [|fuel IH]; intros count last_acked_ops; cbn [close_wait];
    pose proof unblocked_clock_event; unfold log_msg; unblocked_auto.
Qed.

Lemma unblocked_drive we adr datwr sel idle : unblocked (_drive we adr datwr sel idle).
Proof.
  unfold _drive, _wait_stall, _wait_ack, drive_sig, log_msg.
  pose proof unblocked_clock_event. pose proof unblocked_idle_wait.
  pose proof unblocked_stall_wait. pose proof unblocked_ack_wait.
  unblocked_auto.
Qed.

Lemma unblocked_drive_ops items : forall cnt, unblocked (drive_ops cnt items).
Proof.
  induction items as [|v rest IH]; intros cnt; cbn [drive_ops].
  - apply unblocked_ret.
  - destruct v; try apply unblocked_raise.
    apply unblocked_bind; [apply unblocked_drive|]. intros _.
    apply unblocked_bind; [|intros _; apply IH].
    destruct (WBOp.idle op); [apply unblocked_modify | apply unblocked_raise].
Qed.

Lemma unblocked_close_cycle : unblocked _close_cycle.
Proof.
  unfold _close_cycle, drive_sig, log_msg.
  pose proof unblocked_clock_event. pose proof unblocked_close_wait.
  unblocked_auto.
Qed.

(** A master that is not busy opens its cycle without waiting. *)
Lemma open_cycle_not_blocked s s' : busy s = false -> _open_cycle s <> Blocked s'.
Proof.
  intros Hb. unfold _open_cycle. unfold bind at 1. unfold get at 1. rewrite Hb.
  revert s'. generalize s.
  change (unblocked (ret tt ;; modify (set_busy_event false) ;; modify (set_busy true) ;;
            fork_read ;; fork_clk_cycle_counter ;; drive_sig Bus.set_cyc 1 ;;
            modify (set_acked_ops 0) ;; modify (set_res_buf []) ;;
            modify (set_aux_buf []) ;; log_msg DEBUG "Opening cycle, %u Ops")).
  unfold fork_read, fork_clk_cycle_counter, _clk_cycle_counter, drive_sig, log_msg.
  pose proof unblocked_read. unblocked_auto.
Qed.

(** X4: [send_cycle] waits for the busy event only on a master that is busy:
    called on a master that is not, it never ends blocked, whatever it is
    handed and whatever the bus does. *)
Theorem send_cycle_not_blocked_at_rest (arg : pyval) (s : master) :
  busy s = false -> forall s', send_cycle arg s <> Blocked s'.
Proof.
  intros Hb s' H. unfold send_cycle in H.
  apply bind_blocked in H. destruct H as [H | (u1 & s1 & H1 & H)].
  { eapply unblocked_clock_event; eauto. }
  apply (keeps_ret_inv evolves) in H1; [|apply clock_event_keeps].
  assert (Hb1 : busy s1 = false) by (rewrite (ev_busy _ _ H1); exact Hb).
  destruct (is_sequence arg); [|discriminate].
  destruct (py_len arg) as [n|]; [|discriminate].
  apply bind_blocked in H. destruct H as [H | (u2 & s2 & H2 & H)]; [discriminate|].
  apply modify_ret in H2.
  destruct (n <? 1).
  { apply bind_blocked in H. destruct H as [H | (u3 & s3 & _ & H)]; discriminate. }
  apply bind_blocked in H. destruct H as [H | (u3 & s3 & _ & H)].
  { eapply open_cycle_not_blocked; [|exact H]. rewrite H2. cbn. exact Hb1. }
  revert H. generalize s3 s'.
  change (unblocked (drive_ops 0 (py_iter arg) ;; _close_cycle ;;
            s <- get ;;
            modify (set_res_buf
              (pick_and_mix (_res_buf s) (_aux_buf s)
               ++ skipn (List.length (pick_and_mix (_res_buf s) (_aux_buf s)))
                        (_res_buf s))) ;;
            ret (pick_and_mix (_res_buf s) (_aux_buf s)))).
  pose proof unblocked_drive_ops. pose proof unblocked_close_cycle.
  unblocked_auto.
Qed.

(** ** A cycle that is left open *)

Lemma py_len_is_sequence arg n : py_len arg = Some n -> is_sequence arg = true.
Proof. destruct arg; try discriminate; reflexivity. Qed.

(** Where the usage fault of a sequence argument leaves the master. *)
Lemma usage_fault_state (arg : pyval) (s s1 : master) :
  is_sequence arg = true ->
  send_cycle arg s = Raise usage_fault s1 ->
  Bus.cyc (bus s1) = 1 /\ busy s1 = true /\ busy_event s1 = false.
Proof.
  intros Hseq H. unfold send_cycle in H. rewrite Hseq in H.
  apply bind_raise in H. destruct H as [H | (u1 & s0 & _ & H)].
  { exfalso. eapply clock_event_harmless; eauto. }
  destruct (py_len arg) as [n|]; [|discriminate].
  apply bind_raise in H. destruct H as [H | (u2 & s2 & _ & H)]; [discriminate|].
  destruct (n <? 1).
  { apply bind_raise in H. destruct H as [H | (u3 & s3 & _ & H)]; discriminate. }
  apply bind_raise in H. destruct H as [H | (u3 & s3 & Hopen & H)].
  { exfalso. eapply open_cycle_harmless; eauto. }
  destruct u3. pose proof (open_cycle_clock _ _ Hopen) as (_ & _ & Hev).
  apply open_cycle_ret in Hopen. destruct Hopen as (Hcyc & Hbusy & _).
  apply bind_raise in H. destruct H as [H | (u4 & s4 & _ & H)].
  - pose proof (drive_ops_keeps (py_iter arg) 0 s3) as Hd.
    pose proof (drive_ops_steps (py_iter arg) 0 s3) as Hs.
    rewrite H in Hd, Hs. cbn in Hd, Hs.
    rewrite (dr_cyc _ _ Hd), (dr_busy _ _ Hd), (st_event _ _ Hs). auto.
  - exfalso.
    assert (Hh : harmless (_close_cycle ;;
                  s <- get ;;
                  modify (set_res_buf
                    (pick_and_mix (_res_buf s) (_aux_buf s)
                     ++ skipn (List.length (pick_and_mix (_res_buf s) (_aux_buf s)))
                              (_res_buf s))) ;;
                  ret (pick_and_mix (_res_buf s) (_aux_buf s)))).
    { pose proof close_cycle_harmless. pose proof harmless_get. harmless_auto. }
    eapply Hh; eauto.
Qed.

Definition already_busy : log_record :=
  (ERROR, "Opening Cycle, but WB Driver is already busy. Someting's wrong"%string).

(** A busy master whose event is not set blocks in [_open_cycle]. *)
Lemma send_cycle_blocks_when_busy (arg : pyval) (s : master) i rest n :
  busy s = true -> busy_event s = false ->
  pending s = i :: rest -> unambiguous (shape s) i ->
  py_len arg = Some n -> 1 <= n ->
  exists s', send_cycle arg s = Blocked s'
             /\ bus s' = bus s
             /\ edges s' = S (edges s)
             /\ In already_busy (log s').
Proof.
  intros Hb He Hp Hu Hlen Hn.
  destruct (clock_event_runs s i rest Hp Hu) as [s1 Hck].
  pose proof (keeps_ret_inv steps _ _ _ _ clock_event_steps Hck) as Hs.
  pose proof (clock_event_time _ _ _ Hck) as [_ Hedges].
  pose proof (keeps_ret_inv evolves _ _ _ _ clock_event_keeps Hck) as Hev.
  unfold send_cycle. rewrite (bind_eq _ _ _ _ _ Hck).
  rewrite (py_len_is_sequence _ _ Hlen), Hlen.
  unfold bind at 1. unfold modify at 1.
  replace (n <? 1) with false by (symmetry; apply Z.ltb_ge; lia).
  unfold _open_cycle, log_msg, busy_event_wait. unfold_monad. cbn.
  rewrite (st_busy _ _ Hs), Hb. cbn. rewrite (st_event _ _ Hs), He.
  eexists. split; [reflexivity|]. cbn.
  split; [apply (ev_bus _ _ Hev)|]. split; [exact Hedges|].
  apply in_or_app. right. left. reflexivity.
Qed.

(** X5: the usage fault raised for a sequence leaves the cycle open: cyc is
    asserted, the master is busy and its busy event is cleared; hence the
    next [send_cycle] on this master, for any non-empty sequence, logs that
    the driver is busy and blocks in [_open_cycle] after its first clock
    edge, without driving the bus. *)
Theorem usage_fault_blocks_next_cycle (arg next : pyval) (s s1 : master)
        (i : Bus.inp) (rest : list Bus.inp) (n : Z) :
  is_sequence arg = true ->
  send_cycle arg s = Raise usage_fault s1 ->
  pending s1 = i :: rest ->
  unambiguous (shape s1) i ->
  py_len next = Some n ->
  1 <= n ->
  Bus.cyc (bus s1) = 1 /\ busy s1 = true /\ busy_event s1 = false
  /\ exists s2, send_cycle next s1 = Blocked s2
                /\ bus s2 = bus s1
                /\ In already_busy (log s2).
Proof.
  intros Hseq Hrun Hp Hu Hlen Hn.
  destruct (usage_fault_state _ _ _ Hseq Hrun) as (Hcyc & Hb & He).
  split; [exact Hcyc|]. split; [exact Hb|]. split; [exact He|].
  destruct (send_cycle_blocks_when_busy next s1 i rest n Hb He Hp Hu Hlen Hn)
    as (s2 & Hblk & Hbus & _ & Hlog).
  exists s2. auto.
Qed.

(** ** Waiting for replies *)

(** An edge at which none of the reply lines is asserted. *)
Definition silent (sh : Bus.shape) (i : Bus.inp) : Prop :=
  _get_reply sh i = inr (false, 0).

Lemma clock_event_silent s i rest :
  pending s = i :: rest ->
  silent (shape s) i ->
  exists s1, clock_event s = Ret tt s1
             /\ _acked_ops s1 = _acked_ops s
             /\ now s1 = i /\ pending s1 = rest
             /\ edges s1 = S (edges s)
             /\ evolves s s1.
Proof.
  intros Hp Hr. unfold silent in Hr.
  assert (Hrun : exists s1, clock_event s = Ret tt s1 /\ _acked_ops s1 = _acked_ops s).
  { unfold clock_event. rewrite Hp.
    unfold resume_parked, _read, _clk_cycle_counter, get_reply. unfold_monad.
    cbn -[_get_reply].
    destruct (reader_waiting s); cbn -[_get_reply];
      [destruct (busy s); cbn -[_get_reply];
       [rewrite Hr; cbn -[_get_reply]|]|];
      destruct (counter_waiting s); cbn; eexists; split; reflexivity. }
  destruct Hrun as (s1 & Hck & Hack). exists s1.
  pose proof (clock_event_time _ _ _ Hck) as [Hpn He].
  rewrite Hp in Hpn. injection Hpn as Hn Hrest.
  pose proof (keeps_ret_inv evolves _ _ _ _ clock_event_keeps Hck) as Hev.
  repeat (split; [auto; congruence|]). exact Hev.
Qed.

Definition reply_timeout : exn :=
  TestFailure "Timeout of %u clock cycles reached when waiting for reply from slave".

Lemma close_wait_times_out (quiet : list Bus.inp) :
  forall s fuel count last T rest,
    _timeout s = Some T ->
    _acked_ops s < _op_cnt s ->
    pending s = quiet ++ rest ->
    Forall (silent (shape s)) quiet ->
    (List.length quiet < fuel)%nat ->
    count + Z.of_nat (List.length quiet) = T ->
    exists s', close_wait fuel count last s = Raise reply_timeout s'
               /\ edges s' = (edges s + List.length quiet)%nat
               /\ pending s' = rest
               /\ evolves s s'.
Proof.
  induction quiet as [|i quiet IH]; intros s fuel count last T rest Hto Hlt Hp Hq Hf Hc;
    (destruct fuel as [|fuel]; [cbn in Hf; lia|]);
    cbn [close_wait]; unfold bind at 1; unfold get at 1;
    (replace (_acked_ops s <? _op_cnt s) with true by (symmetry; apply Z.ltb_lt; exact Hlt)).
  - cbn in Hc, Hp.
    assert (Hlog : exists s0,
               (if negb (last =? _acked_ops s)
                then log_msg DEBUG "Waiting for missing acks: %u/%u" else ret tt) s
               = Ret tt s0 /\ evolves s s0 /\ edges s0 = edges s /\ pending s0 = pending s).
    { destruct (negb (last =? _acked_ops s)); eexists; (split; [reflexivity|]);
        (split; [|split; reflexivity]); [constructor; cbn; auto | apply evolves_refl]. }
    destruct Hlog as (s0 & Hl & Hev & He & Hpe).
    rewrite (bind_eq _ _ _ _ _ Hl). rewrite Hto. unfold timed_out.
    rewrite gtb_true by lia. unfold bind, raise.
    exists s0. split; [reflexivity|]. split; [cbn; lia|]. split; [congruence | exact Hev].
  - cbn [List.length app] in *.
    pose proof (Forall_inv Hq) as Hi. pose proof (Forall_inv_tail Hq) as Hq'.
    assert (Hlog : exists s0,
               (if negb (last =? _acked_ops s)
                then log_msg DEBUG "Waiting for missing acks: %u/%u" else ret tt) s
               = Ret tt s0 /\ evolves s s0 /\ edges s0 = edges s /\ pending s0 = pending s
               /\ _acked_ops s0 = _acked_ops s).
    { destruct (negb (last =? _acked_ops s)); eexists; (split; [reflexivity|]);
        (split; [|repeat split; reflexivity]); [constructor; cbn; auto | apply evolves_refl]. }
    destruct Hlog as (s0 & Hl & Hev & He & Hpe & Ha0).
    rewrite (bind_eq _ _ _ _ _ Hl). rewrite Hto. unfold timed_out.
    rewrite gtb_false by lia. unfold bind at 1. unfold ret at 1.
    rewrite Hp in Hpe. rewrite <- (ev_shape _ _ Hev) in Hi.
    destruct (clock_event_silent s0 i (quiet ++ rest) Hpe Hi)
      as (s1 & Hck & Hack & _ & Hp1 & He1 & Hev1).
    rewrite (bind_eq _ _ _ _ _ Hck).
    pose proof (evolves_trans _ _ _ Hev Hev1) as Hev01.
    destruct (IH s1 fuel (count + 1) (_acked_ops s) T rest) as (s' & Hrun & He' & Hp' & Hev');
      try lia; auto.
    + rewrite (ev_timeout _ _ Hev01). exact Hto.
    + rewrite Hack, Ha0, (ev_op_cnt _ _ Hev01). exact Hlt.
    + rewrite (ev_shape _ _ Hev01). exact Hq'.
    + exists s'. split; [exact Hrun|]. split; [lia|]. split; [exact Hp'|].
      eapply evolves_trans; eauto.
Qed.

(** X6: with a timeout [T] and replies outstanding, [_close_cycle] gives up
    once [T] clock edges have passed without a reply line asserted: the
    reply timeout is raised after exactly [T] edges, with cyc still asserted
    as it was and the master still busy (the cycle is not closed). *)
Theorem close_cycle_timeout (s : master) (T : Z) (quiet rest : list Bus.inp) :
  _timeout s = Some T ->
  _acked_ops s < _op_cnt s ->
  pending s = quiet ++ rest ->
  Forall (silent (shape s)) quiet ->
  Z.of_nat (List.length quiet) = T ->
  exists s', _close_cycle s = Raise reply_timeout s'
             /\ edges s' = (edges s + List.length quiet)%nat
             /\ pending s' = rest
             /\ bus s' = bus s
             /\ busy s' = busy s.
Proof.
  intros Hto Hlt Hp Hq HT.
  destruct (close_wait_times_out quiet s (S (List.length (pending s))) 0 0 T rest)
    as (s' & Hrun & He & Hp' & Hev); auto.
  { rewrite Hp, length_app. lia. }
  exists s'. split.
  - unfold _close_cycle. unfold bind at 1. unfold get at 1.
    unfold bind at 1. rewrite Hrun. reflexivity.
  - split; [exact He|]. split; [exact Hp'|].
    split; [apply (ev_bus _ _ Hev) | apply (ev_busy _ _ Hev)].
Qed.

Lemma ack_wait_counts (quiet : list Bus.inp) :
  forall s fuel count reply code rest,
    silent (shape s) (now s) ->
    pending s = quiet ++ reply :: rest ->
    Forall (silent (shape s)) quiet ->
    _get_reply (shape s) reply = inr (true, code) ->
    (List.length quiet < fuel)%nat ->
    exists s', ack_wait fuel count s = Ret (count + Z.of_nat (List.length quiet) + 1) s'
               /\ now s' = reply /\ pending s' = rest
               /\ edges s' = (edges s + List.length quiet + 1)%nat
               /\ evolves s s'.
Proof.
  induction quiet as [|i quiet IH]; intros s fuel count reply code rest Hnow Hp Hq Hr Hf;
    (destruct fuel as [|fuel]; [cbn in Hf; lia|]);
    cbn [ack_wait]; unfold bind at 1; unfold get_reply at 1;
    unfold silent in Hnow; rewrite Hnow; cbn [fst negb].
  - cbn [app List.length] in *.
    destruct (clock_event_runs s reply rest Hp (ex_intro _ _ Hr)) as [s1 Hck].
    pose proof (clock_event_time _ _ _ Hck) as [Hpn He].
    rewrite Hp in Hpn. injection Hpn as Hn Hrest.
    pose proof (keeps_ret_inv evolves _ _ _ _ clock_event_keeps Hck) as Hev.
    rewrite (bind_eq _ _ _ _ _ Hck).
    exists s1. split.
    + destruct fuel; cbn [ack_wait]; unfold bind, get_reply;
        rewrite (ev_shape _ _ Hev), <- Hn, Hr; cbn; unfold ret; f_equal; lia.
    + repeat (split; [auto; try congruence; lia|]). exact Hev.
  - cbn [app List.length] in *.
    pose proof (Forall_inv Hq) as Hi. pose proof (Forall_inv_tail Hq) as Hq'.
    destruct (clock_event_silent s i _ Hp Hi) as (s1 & Hck & _ & Hn1 & Hp1 & He1 & Hev1).
    rewrite (bind_eq _ _ _ _ _ Hck).
    destruct (IH s1 fuel (count + 1) reply code rest) as (s' & Hrun & Hn' & Hp' & He' & Hev');
      try lia; auto.
    + rewrite (ev_shape _ _ Hev1), Hn1. exact Hi.
    + rewrite (ev_shape _ _ Hev1). exact Hq'.
    + rewrite (ev_shape _ _ Hev1). exact Hr.
    + exists s'. split.
      * rewrite Hrun. f_equal. lia.
      * split; [exact Hn'|]. split; [exact Hp'|]. split; [lia|].
        eapply evolves_trans; eauto.
Qed.

(** X7: on a classic bus (no stall signal) [_wait_ack] waits, one clock edge
    at a time, until an edge shows a reply, and returns the number of edges
    waited for; no timeout applies to this wait, whatever [_timeout] is.  On
    a pipelined bus it returns 0 at once. *)
Theorem wait_ack_until_reply (s : master) :
  (Bus.has_stall (shape s) = true -> _wait_ack s = Ret 0 s)
  /\ (forall quiet reply code rest,
         Bus.has_stall (shape s) = false ->
         silent (shape s) (now s) ->
         pending s = quiet ++ reply :: rest ->
         Forall (silent (shape s)) quiet ->
         _get_reply (shape s) reply = inr (true, code) ->
         exists s', _wait_ack s = Ret (Z.of_nat (List.length quiet) + 1) s'
                    /\ now s' = reply /\ pending s' = rest
                    /\ edges s' = (edges s + List.length quiet + 1)%nat
                    /\ bus s' = bus s).
Proof.
  split.
  - intros Hs. unfold _wait_ack. unfold_monad. rewrite Hs. reflexivity.
  - intros quiet reply code rest Hs Hnow Hp Hq Hr.
    destruct (ack_wait_counts quiet s (S (List.length (pending s))) 0 reply code rest)
      as (s' & Hrun & Hn & Hp' & He & Hev); auto.
    { rewrite Hp, length_app. cbn. lia. }
    eexists. split.
    + unfold _wait_ack. unfold bind at 1. unfold get at 1. rewrite Hs. cbn [negb].
      unfold bind at 1. rewrite Hrun. unfold_monad. reflexivity.
    + cbn. repeat (split; [auto|]). apply (ev_bus _ _ Hev).
Qed.

(** * Further properties of the Avalon-ST packet monitor *)

Section Channels.
Import Avalon.

Lemma on_startofpacket_channel smp st st1 :
  on_startofpacket smp st = inr st1 -> cur_channel st1 = cur_channel st.
Proof.
  unfold on_startofpacket. destruct (startofpacket smp).
  - destruct (pkt st); [|discriminate]. intros H. injection H as <-. reflexivity.
  - intros H. injection H as <-. reflexivity.
Qed.

(** What [on_channel] leaves latched when it goes through. *)
Lemma on_channel_latched cfg smp st st2 :
  has_channel cfg = true ->
  on_channel cfg smp st = inr st2 ->
  cur_channel st2 = Some (channel smp)
  /\ (cur_channel st = None -> channel smp <= maxChannel cfg)
  /\ (forall c, cur_channel st = Some c -> channel smp = c).
Proof.
  intros Hc. unfold on_channel. rewrite Hc.
  destruct (cur_channel st) as [c|] eqn:Hcur.
  - destruct (channel smp =? c) eqn:Heq; cbn [negb]; [|discriminate].
    apply Z.eqb_eq in Heq.
    intros H. injection H as <-. rewrite Hcur.
    split; [congruence|]. split; [discriminate|]. intros c0 H0. congruence.
  - destruct (channel smp >? maxChannel cfg) eqn:Hgt; [discriminate|].
    intros H. injection H as <-. cbn.
    split; [reflexivity|]. split; [|discriminate].
    intros _. rewrite Z.gtb_ltb in Hgt. apply Z.ltb_ge. exact Hgt.
Qed.

(** A latched channel has passed the [maxChannel] test. *)
Lemma reachable_channel cfg st c :
  reachable cfg st -> cur_channel st = Some c ->
  c <= maxChannel cfg /\ has_channel cfg = true.
Proof.
  intros Hr. revert c. induction Hr as [|smp st st' tr Hr IH Hlen Hedge]; intros c Hc.
  - discriminate.
  - unfold edge in Hedge. destruct (in_reset smp).
    { injection Hedge as <- _. auto. }
    destruct (is_valid cfg smp).
    + apply on_valid_inr in Hedge.
      destruct Hedge as (st1 & vec & bytes & st2 & Hsop & _ & _ & _ & Hch & Heop).
      apply on_startofpacket_channel in Hsop. cbn in Hsop.
      unfold on_endofpacket in Heop. destruct (endofpacket smp).
      { injection Heop as <- _. discriminate. }
      injection Heop as <- _.
      destruct (has_channel cfg) eqn:Hhas.
      * destruct (on_channel_latched _ _ _ _ Hhas Hch) as (Hl & Hnew & Hold).
        cbn in Hnew, Hold. rewrite Hl in Hc. injection Hc as <-.
        split; [|reflexivity].
        destruct (cur_channel st1) as [c0|] eqn:Hc0.
        -- rewrite (Hold c0 eq_refl). apply IH. congruence.
        -- auto.
      * unfold on_channel in Hch. rewrite Hhas in Hch. injection Hch as <-.
        cbn in Hc. rewrite Hsop in Hc. destruct (IH c Hc). discriminate.
    + unfold on_invalid in Hedge. destruct (in_pkt st).
      * destruct (_ && _); [discriminate|]. injection Hedge as <- _. auto.
      * injection Hedge as <- _. auto.
Qed.

(** X8: on a bus with a channel signal, every packet the monitor hands on
    was received on a single channel that does not exceed [maxChannel]: the
    channel of the word that ends it, which is the channel reported when
    channel reporting is on. *)
Theorem reported_channel_within_max cfg smp st st' tr :
  reachable cfg st ->
  has_channel cfg = true ->
  edge cfg smp st = inr (st', Some tr) ->
  channel smp <= maxChannel cfg
  /\ exists bytes,
       tr = if report_channel cfg
            then PacketOnChannel bytes (Some (channel smp))
            else Packet bytes.
Proof.
  intros Hr Hhas Hedge. unfold edge in Hedge.
  destruct (in_reset smp); [discriminate|].
  destruct (is_valid cfg smp).
  - apply on_valid_inr in Hedge.
    destruct Hedge as (st1 & vec & bytes & st2 & Hsop & _ & _ & _ & Hch & Heop).
    apply on_startofpacket_channel in Hsop. cbn in Hsop.
    destruct (on_channel_latched _ _ _ _ Hhas Hch) as (Hl & Hnew & Hold).
    cbn in Hnew, Hold.
    unfold on_endofpacket in Heop. destruct (endofpacket smp); [|discriminate].
    injection Heop as _ <-. split.
    + destruct (cur_channel st1) as [c0|] eqn:Hc0.
      * rewrite (Hold c0 eq_refl).
        apply (reachable_channel cfg st c0 Hr). congruence.
      * auto.
    + exists (pkt st2). rewrite Hl. reflexivity.
  - unfold on_invalid in Hedge. destruct (in_pkt st).
    + destruct (_ && _); discriminate.
    + discriminate.
Qed.

(** X9: once a channel is latched, a valid word on another channel never
    goes through: the turn ends in an exception, whatever else the word
    carries. *)
Theorem channel_change_is_fatal cfg smp st c :
  has_channel cfg = true ->
  cur_channel st = Some c ->
  in_reset smp = false ->
  is_valid cfg smp = true ->
  channel smp <> c ->
  exists e, edge cfg smp st = inl e.
Proof.
  intros Hhas Hc Hreset Hvalid Hne.
  destruct (edge cfg smp st) as [e|[st' tr]] eqn:Hedge; [eauto|].
  exfalso. unfold edge in Hedge. rewrite Hreset, Hvalid in Hedge.
  apply on_valid_inr in Hedge.
  destruct Hedge as (st1 & vec & bytes & st2 & Hsop & _ & _ & _ & Hch & _).
  apply on_startofpacket_channel in Hsop. cbn in Hsop.
  destruct (on_channel_latched _ _ _ _ Hhas Hch) as (_ & _ & Hold).
  cbn in Hold. apply Hne, Hold. congruence.
Qed.
End Channels.

Section Streams.
Import Avalon.
Context {W : Type}.

(** X10: edges at which the bus is in reset are transparent: the monitor
    behaves on a run of edges as on the run without them. *)
Theorem reset_edges_transparent cfg (smps : list sample) :
  forall st (m : Monitor.t transaction W),
    _monitor_recv cfg smps st m
    = _monitor_recv cfg (filter (fun smp => negb (in_reset smp)) smps) st m.
Proof.
  induction smps as [|smp smps IH]; intros st m; [reflexivity|].
  cbn [filter]. destruct (in_reset smp) eqn:Hr; cbn [negb].
  - cbn [_monitor_recv]. unfold edge. rewrite Hr. apply IH.
  - cbn [_monitor_recv]. destruct (edge cfg smp st) as [e|[st' [tr|]]]; auto.
    destruct (Monitor._recv tr m); auto.
Qed.

(** The bytes a word contributes to its packet. *)
Definition word_bytes cfg (w : sample) : list Z :=
  match buff (firstSymbolInHighOrderBits cfg) (data w) with
  | inr bytes => bytes
  | inl _ => []
  end.

(** A word the monitor accepts: out of reset, valid, all bits resolved. *)
Definition clean cfg (w : sample) : Prop :=
  in_reset w = false /\ is_valid cfg w = true /\ is_resolvable (data w) = true.

Lemma clean_buff cfg w :
  clean cfg w -> buff (firstSymbolInHighOrderBits cfg) (data w) = inr (word_bytes cfg w).
Proof.
  intros (_ & _ & Hres). unfold word_bytes.
  destruct (buff_resolvable (firstSymbolInHighOrderBits cfg) _ Hres) as [b ->].
  reflexivity.
Qed.

(** A word inside a packet is appended to it. *)
Lemma edge_appends cfg w st :
  has_channel cfg = false ->
  clean cfg w ->
  endofpacket w = false ->
  (if startofpacket w then pkt st = [] else in_pkt st = true) ->
  edge cfg w st
  = inr (mk_state ((if startofpacket w then [] else pkt st) ++ word_bytes cfg w)
                  true 0 (cur_channel st) (empty_bound st), None).
Proof.
  intros Hch Hc He Hs. pose proof (clean_buff cfg w Hc) as Hb.
  destruct Hc as (Hr & Hv & _).
  unfold edge, on_valid, on_startofpacket, data_word, on_channel, on_endofpacket.
  rewrite Hr, Hv, He, Hch. cbn [negb].
  destruct (startofpacket w); cbn.
  - rewrite Hs. cbn. rewrite Hb, orb_false_r. reflexivity.
  - rewrite Hs. cbn. rewrite Hb, orb_false_r. reflexivity.
Qed.

Lemma body_accumulates cfg (body : list sample) :
  forall rest st (m : Monitor.t transaction W),
    has_channel cfg = false ->
    in_pkt st = true ->
    invalid_cyclecount st = 0 ->
    Forall (clean cfg) body ->
    Forall (fun w => startofpacket w = false) body ->
    Forall (fun w => endofpacket w = false) body ->
    _monitor_recv cfg (body ++ rest) st m
    = _monitor_recv cfg rest
        (mk_state (pkt st ++ List.concat (map (word_bytes cfg) body)) true 0
                  (cur_channel st) (empty_bound st)) m.
Proof.
  induction body as [|w body IH]; intros rest st m Hch Hin Hcnt Hc Hs He.
  - cbn. rewrite app_nil_r. destruct st; cbn in *. subst. reflexivity.
  - cbn [app map List.concat _monitor_recv].
    pose proof (Forall_inv Hs) as Hs0. pose proof (Forall_inv He) as He0.
    rewrite (edge_appends cfg w st Hch (Forall_inv Hc) He0)
      by (rewrite Hs0; exact Hin).
    rewrite Hs0.
    pose proof (Forall_inv_tail Hc) as Hc'. pose proof (Forall_inv_tail Hs) as Hs'.
    pose proof (Forall_inv_tail He) as He'.
    rewrite IH by (cbn; auto).
    cbn. rewrite <- app_assoc. reflexivity.
Qed.

(** The word that ends a packet hands the packet on. *)
Lemma edge_ends_packet cfg w st :
  has_channel cfg = false ->
  clean cfg w ->
  endofpacket w = true ->
  masks cfg w = false ->
  (if startofpacket w then pkt st = [] else in_pkt st = true) ->
  edge cfg w st
  = inr (mk_state [] false 0 None (empty_bound st),
         Some (let bytes := (if startofpacket w then [] else pkt st) ++ word_bytes cfg w in
               if report_channel cfg
               then PacketOnChannel bytes (cur_channel st)
               else Packet bytes)).
Proof.
  intros Hch Hc He Hm Hs. pose proof (clean_buff cfg w Hc) as Hb.
  destruct Hc as (Hr & Hv & Hres).
  unfold edge, on_valid, on_startofpacket, data_word, masked, on_channel, on_endofpacket.
  rewrite Hr, Hv, He, Hch, Hm, Hres. cbn [negb].
  destruct (startofpacket w); cbn.
  - rewrite Hs. cbn. rewrite Hb, orb_false_r. reflexivity.
  - rewrite Hs. cbn. rewrite Hb, orb_false_r. reflexivity.
Qed.

Lemma flags_split {A : Type} (f : A -> bool) (ws : list A) (w : A) :
  map f (ws ++ [w]) = repeat false (List.length ws) ++ [true] ->
  Forall (fun x => f x = false) ws /\ f w = true.
Proof.
  induction ws as [|x ws IH]; cbn.
  - intros H. injection H as H. auto.
  - intros H. injection H as Hx H. destruct (IH H). auto.
Qed.

Lemma flags_none {A : Type} (f : A -> bool) (ws : list A) n :
  map f ws = repeat false n -> Forall (fun x => f x = false) ws.
Proof.
  revert n. induction ws as [|x ws IH]; intros n; cbn; [constructor|].
  destruct n; cbn; [discriminate|]. intros H. injection H as Hx H.
  constructor; eauto.
Qed.

(** X11: a packet is reassembled from its words.  On a bus without channel
    signal, a frame of clean words of which the first alone carries
    start-of-packet and the last alone end-of-packet (with no empty symbols
    to mask), met while no packet is open, is handed to [_recv] as one
    transaction holding the bytes of the words in order, and leaves the
    monitor idle again. *)
Theorem packet_reassembled cfg (body : list sample) (lastw : sample) st
        (m : Monitor.t transaction W) :
  has_channel cfg = false ->
  in_pkt st = false -> pkt st = [] -> cur_channel st = None ->
  Forall (clean cfg) (body ++ [lastw]) ->
  map startofpacket (body ++ [lastw]) = true :: repeat false (List.length body) ->
  map endofpacket (body ++ [lastw]) = repeat false (List.length body) ++ [true] ->
  masks cfg lastw = false ->
  _monitor_recv cfg (body ++ [lastw]) st m
  = match Monitor._recv
            (let bytes := List.concat (map (word_bytes cfg) (body ++ [lastw])) in
             if report_channel cfg then PacketOnChannel bytes None else Packet bytes)
            m with
    | inl e => inl e
    | inr m' => inr (mk_state [] false 0 None (empty_bound st), m')
    end.
Proof.
  intros Hch Hin Hpkt Hcur Hclean Hsop Heop Hm.
  apply flags_split in Heop. destruct Heop as [Hbody_eop Hlast_eop].
  apply Forall_app in Hclean. destruct Hclean as [Hcb Hcl].
  pose proof (Forall_inv Hcl) as Hclast.
  destruct body as [|w0 body].
  - cbn in Hsop. injection Hsop as Hs.
    cbn [app _monitor_recv map concat].
    rewrite (edge_ends_packet cfg lastw st Hch Hclast Hlast_eop Hm)
      by (rewrite Hs; exact Hpkt).
    rewrite Hs, Hcur. cbn [app List.concat]. rewrite app_nil_r.
    destruct (Monitor._recv _ m); reflexivity.
  - cbn [app map List.length repeat] in Hsop. injection Hsop as Hs0 Hs.
    assert (Hs' : map startofpacket (body ++ [lastw])
                  = repeat false (S (List.length body))).
    { rewrite Hs. reflexivity. }
    apply flags_none in Hs'. apply Forall_app in Hs'. destruct Hs' as [Hsb Hsl].
    pose proof (Forall_inv Hsl) as Hslast.
    cbn [app _monitor_recv].
    rewrite (edge_appends cfg w0 st Hch (Forall_inv Hcb) (Forall_inv Hbody_eop))
      by (rewrite Hs0; exact Hpkt).
    rewrite Hs0. cbn [app].
    pose proof (Forall_inv_tail Hcb) as Hcb'.
    pose proof (Forall_inv_tail Hbody_eop) as Hbe'.
    rewrite body_accumulates by (cbn; auto).
    cbn [_monitor_recv pkt cur_channel].
    rewrite (edge_ends_packet cfg lastw _ Hch Hclast Hlast_eop Hm)
      by (rewrite Hslast; reflexivity).
    rewrite Hslast. cbn [pkt cur_channel]. rewrite Hcur.
    assert (Hb : List.concat (map (word_bytes cfg) (w0 :: body ++ [lastw]))
                 = (word_bytes cfg w0 ++ List.concat (map (word_bytes cfg) body))
                     ++ word_bytes cfg lastw).
    { cbn [map List.concat]. rewrite map_app, List.concat_app. cbn.
      rewrite app_nil_r, app_assoc. reflexivity. }
    cbn [app]. rewrite Hb.
    destruct (Monitor._recv _ m); reflexivity.
Qed.

(** X12: inside a packet the monitor tolerates invalid cycles up to its
    timeout: a run of invalid edges that keeps the invalid-cycle counter
    below a positive [invalidTimeout], or any run when the timeout is 0,
    only advances the counter; a run that takes the counter to the timeout
    ends in the in-packet timeout. *)
Theorem invalid_cycles_tolerated cfg (smps : list sample) :
  forall st (m : Monitor.t transaction W),
    in_pkt st = true ->
    0 <= invalid_cyclecount st ->
    0 <= invalidTimeout cfg ->
    Forall (fun w => in_reset w = false /\ is_valid cfg w = false) smps ->
    (invalidTimeout cfg = 0
     \/ invalid_cyclecount st + Z.of_nat (List.length smps) < invalidTimeout cfg ->
     _monitor_recv cfg smps st m
     = inr (mk_state (pkt st) true
                     (invalid_cyclecount st + Z.of_nat (List.length smps))
                     (cur_channel st) (empty_bound st), m))
    /\ (invalid_cyclecount st < invalidTimeout cfg ->
        invalidTimeout cfg <= invalid_cyclecount st + Z.of_nat (List.length smps) ->
        _monitor_recv cfg smps st m = inl timeout_error).
Proof.
  induction smps as [|w smps IH]; intros st m Hin Hcnt Ht Hall.
  - split.
    + intros _. cbn. rewrite Z.add_0_r. destruct st; cbn in *. subst. reflexivity.
    + cbn. lia.
  - destruct (Forall_inv Hall) as [Hr Hv]. pose proof (Forall_inv_tail Hall) as Hall'.
    cbn [_monitor_recv List.length]. unfold edge, on_invalid. rewrite Hr, Hv, Hin.
    destruct (IH (mk_state (pkt st) true (invalid_cyclecount st + 1) (cur_channel st)
                           (empty_bound st))
                 m eq_refl ltac:(cbn; lia) Ht Hall') as [IHok IHbad].
    cbn [pkt invalid_cyclecount cur_channel empty_bound] in IHok, IHbad.
    split.
    + intros Hok.
      replace (negb (invalidTimeout cfg =? 0)
               && (invalid_cyclecount st + 1 >=? invalidTimeout cfg)) with false.
      * rewrite IHok by lia. do 3 f_equal. lia.
      * symmetry. destruct Hok as [-> | Hlt]; [reflexivity|].
        apply andb_false_iff. right. rewrite Z.geb_leb. apply Z.leb_gt. lia.
    + intros Hlt Hge.
      destruct (Z.eq_dec (invalid_cyclecount st + 1) (invalidTimeout cfg)) as [Heq|Hne].
      * replace (negb (invalidTimeout cfg =? 0)
                 && (invalid_cyclecount st + 1 >=? invalidTimeout cfg)) with true;
          [reflexivity|].
        symmetry. apply andb_true_iff. split.
        -- apply negb_true_iff, Z.eqb_neq. lia.
        -- rewrite Z.geb_leb. apply Z.leb_le. lia.
      * replace (negb (invalidTimeout cfg =? 0)
                 && (invalid_cyclecount st + 1 >=? invalidTimeout cfg)) with false.
        -- apply IHbad; lia.
        -- symmetry. apply andb_false_iff. right. rewrite Z.geb_leb.
           apply Z.leb_gt. lia.
Qed.
End Streams.

(** * Further properties of the transaction sink *)

(** [Monitor.__len__] *)
Definition __len__ {T W : Type} (m : Monitor.t T W) : nat :=
  List.length (Monitor._recvQ m).

(** [Monitor.__getitem__] on the deque, for an integer index; [None] where
    the deque raises [IndexError]. *)
Definition __getitem__ {T W : Type} (m : Monitor.t T W) (idx : Z) : option T :=
  let n := Z.of_nat (List.length (Monitor._recvQ m)) in
  if (0 <=? idx) && (idx <? n) then nth_error (Monitor._recvQ m) (Z.to_nat idx)
  else if (- n <=? idx) && (idx <? 0) then nth_error (Monitor._recvQ m) (Z.to_nat (n + idx))
  else None.

(** Transactions handed to [_recv] one after the other. *)
Fixpoint recv_each {T W : Type} (trs : list T) (m : Monitor.t T W)
  : exn + Monitor.t T W :=
  match trs with
  | [] => inr m
  | tr :: rest =>
      match Monitor._recv tr m with
      | inl e => inl e
      | inr m' => recv_each rest m'
      end
  end.

Section Queue.
Context {T W : Type}.

(** X14: a monitor without callbacks queues what it receives in the order
    of arrival: after a run of transactions, the queue is the old queue
    followed by the run, [len] has grown by its length, indexing finds the
    [k]-th new transaction right after the old ones and the last one at
    index -1, and the counter of received transactions has grown alike. *)
Theorem queue_in_arrival_order (trs : list T) :
  forall m : Monitor.t T W,
    Monitor._callbacks m = [] ->
    exists m',
      recv_each trs m = inr m'
      /\ Monitor._recvQ m' = Monitor._recvQ m ++ trs
      /\ __len__ m' = (__len__ m + List.length trs)%nat
      /\ Monitor.received_transactions m'
         = Monitor.received_transactions m + Z.of_nat (List.length trs)
      /\ (forall k tr, nth_error trs k = Some tr ->
            __getitem__ m' (Z.of_nat (__len__ m + k)) = Some tr)
      /\ (forall tr, last trs tr = tr -> trs <> [] -> __getitem__ m' (-1) = Some tr).
Proof.
  induction trs as [|tr trs IH]; intros m Hcb.
  - exists m. cbn. rewrite app_nil_r. unfold __len__.
    repeat split; auto; try lia.
    + intros k tr Hk. destruct k; discriminate.
    + intros tr _ Hne. congruence.
  - cbn [recv_each]. unfold Monitor._recv. rewrite Hcb. cbn [Monitor.run_callbacks].
    match goal with |- context [recv_each trs ?m1] => set (m1' := m1) end.
    destruct (IH m1' eq_refl) as (m' & Hrun & Hq & Hlen & Hcnt & Hget & Hlast).
    exists m'. rewrite Hrun. subst m1'. unfold __len__ in *. cbn in Hq, Hlen, Hcnt, Hget.
    rewrite length_app in Hlen, Hget. cbn in Hlen, Hget.
    split; [reflexivity|]. split.
    { rewrite Hq, <- app_assoc. reflexivity. }
    split; [cbn; lia|]. split; [cbn [List.length]; lia|]. split.
    + intros k tr0 Hk. destruct k as [|k].
      * cbn in Hk. injection Hk as <-.
        unfold __getitem__. rewrite Hq, !length_app. cbn [List.length].
        replace ((0 <=? Z.of_nat (List.length (Monitor._recvQ m) + 0))
                 && (Z.of_nat (List.length (Monitor._recvQ m) + 0)
                     <? Z.of_nat (List.length (Monitor._recvQ m) + 1 + List.length trs)))
          with true
          by (symmetry; apply andb_true_iff; split;
              [apply Z.leb_le | apply Z.ltb_lt]; lia).
        rewrite Nat2Z.id, Nat.add_0_r, <- app_assoc.
        rewrite nth_error_app2 by lia. rewrite Nat.sub_diag. reflexivity.
      * cbn in Hk. specialize (Hget k tr0 Hk).
        replace (List.length (Monitor._recvQ m) + S k)%nat
          with (List.length (Monitor._recvQ m) + 1 + k)%nat by lia.
        exact Hget.
    + intros tr0 Hl _. destruct trs as [|tr1 trs'].
      * cbn in Hl. subst tr0. cbn in Hrun. injection Hrun as <-.
        unfold __getitem__. cbn [Monitor._recvQ]. rewrite length_app. cbn [List.length].
        replace ((0 <=? -1) && _) with false by reflexivity.
        replace ((- Z.of_nat (List.length (Monitor._recvQ m) + 1) <=? -1) && (-1 <? 0))
          with true
          by (symmetry; apply andb_true_iff; split;
              [apply Z.leb_le; lia | reflexivity]).
        replace (Z.to_nat (Z.of_nat (List.length (Monitor._recvQ m) + 1) + -1))
          with (List.length (Monitor._recvQ m)) by lia.
        rewrite nth_error_app2 by lia. rewrite Nat.sub_diag. reflexivity.
      * apply Hlast; [exact Hl | discriminate].
Qed.

Lemma recv_keeps_callbacks (tr : T) (m m' : Monitor.t T W) :
  Monitor._recv tr m = inr m' -> Monitor._callbacks m' = Monitor._callbacks m.
Proof.
  unfold Monitor._recv.
  destruct (Monitor.run_callbacks _ _ _ _) as [e|[w calls]]; [discriminate|].
  intros H. injection H as <-. reflexivity.
Qed.

(** X15: once a callback is registered, nothing is queued any more: however
    many transactions are received afterwards, the queue stays as it was
    (consumers polling the queue see nothing of them), while the counter
    still counts each of them. *)
Theorem callbacks_bypass_queue (cb : Monitor.callback T W) (trs : list T) :
  forall m m' : Monitor.t T W,
    recv_each trs (Monitor.add_callback cb m) = inr m' ->
    Monitor._recvQ m' = Monitor._recvQ m
    /\ __len__ m' = __len__ m
    /\ Monitor.received_transactions m'
       = Monitor.received_transactions m + Z.of_nat (List.length trs).
Proof.
  intros m m'.
  assert (Hgen : forall trs (m0 m1 : Monitor.t T W),
             Monitor._callbacks m0 <> [] ->
             recv_each trs m0 = inr m1 ->
             Monitor._recvQ m1 = Monitor._recvQ m0
             /\ Monitor.received_transactions m1
                = Monitor.received_transactions m0 + Z.of_nat (List.length trs)).
  { clear. induction trs as [|tr trs IH]; intros m0 m1 Hne Hrun.
    - cbn in Hrun. injection Hrun as <-. cbn. split; [reflexivity | lia].
    - cbn [recv_each] in Hrun.
      destruct (Monitor._recv tr m0) as [e|m2] eqn:Hr; [discriminate|].
      pose proof (recv_keeps_callbacks _ _ _ Hr) as Hcb.
      destruct (IH m2 m1) as [Hq Hc]; [congruence | exact Hrun |].
      unfold Monitor._recv in Hr.
      destruct (Monitor.run_callbacks _ _ _ _) as [e|[w calls]]; [discriminate|].
      injection Hr as <-. cbn in Hq, Hc.
      destruct (Monitor._callbacks m0); [congruence|].
      split; [exact Hq|]. cbn [List.length]. lia. }
  intros Hrun.
  assert (Hne : Monitor._callbacks (Monitor.add_callback cb m) <> []).
  { cbn. intros H0. apply app_eq_nil in H0. destruct H0; discriminate. }
  destruct (Hgen trs _ _ Hne Hrun) as [Hq Hc].
  unfold __len__. cbn in Hq, Hc. rewrite Hq. auto.
Qed.
End Queue.

(** * cocotb/bus.py *)

(** Python's dict with string keys, in insertion order: assigning to a key
    that is there replaces its value in place. *)
Module PyDict.
Section Dict.
Context {V : Type}.

Definition t : Type := list (string * V).

Fixpoint get (d : t) (k : string) : option V :=
  match d with
  | [] => None
  | (k', v) :: rest => if String.eqb k' k then Some v else get rest k
  end.

Fixpoint set (d : t) (k : string) (v : V) : t :=
  match d with
  | [] => [(k, v)]
  | (k', v') :: rest =>
      if String.eqb k' k then (k', v) :: rest else (k', v') :: set rest k v
  end.

Definition keys (d : t) : list string := map fst d.
End Dict.
Arguments t V : clear implicits.
End PyDict.

Module CocotbBus.

Inductive error : Type :=
| AttributeError (msg : string)
| ValueError (msg : string)
| RuntimeError (msg : string)
| NameError (msg : string).

(** Modelled from the spec: the simulator handle of the entity (not part of
    the sources): [getattr(entity, name)] is the handle of the object of that
    name and raises [AttributeError] when there is none, and
    [entity.__hasattr__(name)] tells which is the case.  Handles are
    numbered. *)
Definition SimHandle : Type := string -> option nat.

Definition __hasattr__ (entity : SimHandle) (name : string) : bool :=
  match entity name with Some _ => true | None => false end.

(** The [signals] and [optional_signals] arguments: a list of names or a
    dict from attribute names to signal names. *)
Inductive signal_names : Type :=
| NameList (names : list string)
| NameDict (d : PyDict.t string).

Definition _build_sig_attr_dict (signals : signal_names) : PyDict.t string :=
  match signals with
  | NameDict d => d
  | NameList names => fold_left (fun d sig => PyDict.set d sig sig) names []
  end.

(** A [Bus] object: the attributes bound by [setattr] are those of
    [_signals] (attribute names are taken to differ from the members of the
    class); [log] is what it wrote to the log of the entity. *)
Record t : Type := mk
  { _entity : SimHandle;
    _name : option string;
    _signals : PyDict.t nat;
    log : list string }.

(** [if name:] *)
Definition truthy (name : option string) : bool :=
  match name with
  | Some n => negb (String.eqb n "")
  | None => false
  end.

Definition str (name : option string) : string :=
  match name with Some n => n | None => "None" end.

(** The name of a signal on the entity, as both loops of [__init__] build it. *)
Definition signame (name : option string) (bus_separator : string)
           (array_idx : option Z) (sig_name : string) : string :=
  let signame := if truthy name then (str name ++ bus_separator ++ sig_name)%string
                 else sig_name in
  match array_idx with
  | Some idx =>
      (signame ++ "[" ++ NilZero.string_of_int (Z.to_int idx) ++ "]")%string
  | None => signame
  end.

Definition _add_signal (attr_name signame : string) (b : t) : error + t :=
  let log := log b ++ [("Signal name " ++ signame)%string] in
  match _entity b signame with
  | None => inl (AttributeError (signame ++ " contains no such object")%string)
  | Some hdl => inr (mk (_entity b) (_name b) (PyDict.set (_signals b) attr_name hdl) log)
  end.

Fixpoint add_required (name : option string) (bus_separator : string)
         (array_idx : option Z) (items : PyDict.t string) (b : t) : error + t :=
  match items with
  | [] => inr b
  | (attr_name, sig_name) :: rest =>
      match _add_signal attr_name (signame name bus_separator array_idx sig_name) b with
      | inl e => inl e
      | inr b' => add_required name bus_separator array_idx rest b'
      end
  end.

Fixpoint add_optional (name : option string) (bus_separator : string)
         (array_idx : option Z) (items : PyDict.t string) (b : t) : error + t :=
  match items with
  | [] => inr b
  | (attr_name, sig_name) :: rest =>
      let signame := signame name bus_separator array_idx sig_name in
      let b := mk (_entity b) (_name b) (_signals b)
                  (log b ++ [("Signal name " ++ signame)%string]) in
      if __hasattr__ (_entity b) signame then
        match _add_signal attr_name signame b with
        | inl e => inl e
        | inr b' => add_optional name bus_separator array_idx rest b'
        end
      else
        add_optional name bus_separator array_idx rest
          (mk (_entity b) (_name b) (_signals b)
              (log b ++ [("Ignoring optional missing signal " ++ sig_name
                          ++ " on bus " ++ str name)%string]))
  end.

(** [Bus.__init__] *)
Definition __init__ (entity : SimHandle) (name : option string)
           (signals optional_signals : signal_names) (bus_separator : string)
           (array_idx : option Z) : error + t :=
  match add_required name bus_separator array_idx (_build_sig_attr_dict signals)
                     (mk entity name [] []) with
  | inl e => inl e
  | inr b =>
      add_optional name bus_separator array_idx
                   (_build_sig_attr_dict optional_signals) b
  end.

(** The loop of [TypedBus.__init__] over the aliases: the test
    [if n in signals] is on the dict being iterated, and the [elif] after it
    reads a name, [optional_signals], that the function does not bind. *)
Fixpoint add_aliases (signals items : PyDict.t string) (_signals : PyDict.t string)
  : error + PyDict.t string :=
  match items with
  | [] => inr _signals
  | (n, alias) :: rest =>
      match PyDict.get signals n with
      | Some _ => add_aliases signals rest (PyDict.set _signals n alias)
      | None => inl (NameError "name 'optional_signals' is not defined")
      end
  end.

(** [TypedBus.__init__]: [type_signals] and [type_optional] are the class
    attributes [_signals] and [_optional_signals], [signals] the aliases
    given, [optional_signals_given] whether that keyword was passed. *)
Definition TypedBus__init__ (type_signals type_optional : signal_names)
           (entity : SimHandle) (name : option string)
           (signals : PyDict.t string) (optional_signals_given : bool)
           (bus_separator : string) (array_idx : option Z) : error + t :=
  if optional_signals_given
  then inl (ValueError "optional_signals is not a valid argument for TypedBus")
  else
    match add_aliases signals signals (_build_sig_attr_dict type_signals) with
    | inl e => inl e
    | inr _signals =>
        __init__ entity name (NameDict _signals)
                 (NameDict (_build_sig_attr_dict type_optional))
                 bus_separator array_idx
    end.

(** An object handed to [drive]: its attributes and their values. *)
Definition pyobject : Type := PyDict.t Z.

(** [Bus.drive]: the assignments [hdl <= val] made, in order, and the
    exception that ended the loop, if any. *)
Fixpoint drive_items (items : PyDict.t nat) (obj : pyobject) (strict : bool)
  : list (nat * Z) * option error :=
  match items with
  | [] => ([], None)
  | (attr_name, hdl) :: rest =>
      match PyDict.get obj attr_name with
      | None =>
          if strict
          then ([], Some (AttributeError
                  "Unable to drive onto {0}.{1} because {2} is missing attribute {3}"))
          else drive_items rest obj strict
      | Some val =>
          let (writes, e) := drive_items rest obj strict in
          ((hdl, val) :: writes, e)
      end
  end.

Definition drive (b : t) (obj : pyobject) (strict : bool)
  : list (nat * Z) * option error :=
  drive_items (_signals b) obj strict.

(** [Bus.capture], given the value every handle has. *)
Definition capture (b : t) (value : nat -> Z) : PyDict.t Z :=
  map (fun item => (fst item, value (snd item))) (_signals b).

(** [_Capture.__getattr__] *)
Definition _Capture__getattr__ (c : PyDict.t Z) (name : string) : error + Z :=
  match PyDict.get c name with
  | Some v => inr v
  | None => inl (RuntimeError "Signal {} not present in bus")
  end.

(** Modelled from the spec: the simulator applies the assignments made in a
    time step at its end, a later assignment to a handle overriding an
    earlier one. *)
Fixpoint settle (writes : list (nat * Z)) (value : nat -> Z) : nat -> Z :=
  match writes with
  | [] => value
  | (hdl, val) :: rest =>
      settle rest (fun h => if Nat.eqb h hdl then val else value h)
  end.
End CocotbBus.

(** ** Binding, driving and capturing the signals of a bus *)

Section BusProperties.
Import CocotbBus.

Section DictFacts.
Context {V : Type}.
Implicit Types (d : PyDict.t V) (k : string) (v : V).

Lemma get_set_same d k v : PyDict.get (PyDict.set d k v) k = Some v.
Proof.
  induction d as [|[k' v'] d IH]; cbn.
  - now rewrite String.eqb_refl.
  - destruct (String.eqb k' k) eqn:E; cbn; rewrite E; auto.
Qed.

Lemma get_set_other d k k' v :
  k <> k' -> PyDict.get (PyDict.set d k v) k' = PyDict.get d k'.
Proof.
  intros Hne. induction d as [|[k0 v0] d IH]; cbn.
  - destruct (String.eqb_spec k k'); congruence.
  - destruct (String.eqb_spec k0 k); cbn.
    + subst. destruct (String.eqb_spec k k'); congruence.
    + now rewrite IH.
Qed.

Lemma get_set d k k' v :
  PyDict.get (PyDict.set d k v) k' =
    if String.eqb k k' then Some v else PyDict.get d k'.
Proof.
  destruct (String.eqb_spec k k').
  - subst. apply get_set_same.
  - now apply get_set_other.
Qed.

Lemma get_in d k v : PyDict.get d k = Some v -> In (k, v) d.
Proof.
  induction d as [|[k' v'] d IH]; cbn; [discriminate|].
  destruct (String.eqb_spec k' k).
  - intros [= ->]. subst. now left.
  - auto.
Qed.

Lemma in_keys d k v : In (k, v) d -> In k (PyDict.keys d).
Proof. intros H. apply (in_map fst) in H. exact H. Qed.

Lemma in_get d k v : NoDup (PyDict.keys d) -> In (k, v) d -> PyDict.get d k = Some v.
Proof.
  induction d as [|[k' v'] d IH]; cbn; [tauto|].
  intros Hnd [[= -> ->]|Hin].
  - now rewrite String.eqb_refl.
  - destruct (String.eqb_spec k' k).
    + subst. apply NoDup_cons_iff in Hnd. destruct Hnd as [Hn _].
      exfalso. apply Hn. now apply in_keys in Hin.
    + apply IH; auto. now apply NoDup_cons_iff in Hnd.
Qed.

Lemma in_keys_get d k : In k (PyDict.keys d) -> exists v, PyDict.get d k = Some v.
Proof.
  induction d as [|[k' v'] d IH]; cbn; [tauto|].
  destruct (String.eqb_spec k' k); eauto.
  intros [?|?]; [congruence|auto].
Qed.

Lemma keys_set d k v :
  PyDict.keys (PyDict.set d k v) =
    match PyDict.get d k with
    | Some _ => PyDict.keys d
    | None => PyDict.keys d ++ [k]
    end.
Proof.
  unfold PyDict.keys.
  induction d as [|[k' v'] d IH]; cbn; auto.
  destruct (String.eqb_spec k' k); cbn; auto.
  rewrite IH. destruct (PyDict.get d k); auto.
Qed.

Lemma get_none_keys d k : PyDict.get d k = None -> ~ In k (PyDict.keys d).
Proof.
  intros H Hin. apply in_keys_get in Hin. destruct Hin. congruence.
Qed.

Lemma set_keeps_keys_distinct d k v :
  NoDup (PyDict.keys d) -> NoDup (PyDict.keys (PyDict.set d k v)).
Proof.
  intros H. rewrite keys_set. destruct (PyDict.get d k) eqn:E; auto.
  apply get_none_keys in E.
  apply NoDup_app; auto.
  - repeat constructor. cbn. tauto.
  - intros x Hx [<-|[]]. tauto.
Qed.
End DictFacts.


Fixpoint distinct (keys : list string) : bool :=
  match keys with
  | [] => true
  | k :: rest => negb (existsb (String.eqb k) rest) && distinct rest
  end.

Lemma distinct_NoDup keys : distinct keys = true -> NoDup keys.
Proof.
  induction keys as [|k rest IH]; cbn; [constructor|].
  intros H. apply andb_prop in H. destruct H as [Hk Hr].
  constructor; auto. intros Hin.
  apply negb_true_iff in Hk.
  assert (existsb (String.eqb k) rest = true); [|congruence].
  apply existsb_exists. exists k. split; auto. apply String.eqb_refl.
Qed.

Lemma name_list_distinct names :
  NoDup (PyDict.keys (_build_sig_attr_dict (NameList names))).
Proof.
  cbn. assert (H : NoDup (PyDict.keys (@nil (string * string)))) by constructor.
  revert H. generalize (@nil (string * string)).
  induction names as [|n names IH]; cbn; auto.
  intros d Hd. apply IH. now apply set_keeps_keys_distinct.
Qed.

Section Binding.
Variables (entity : SimHandle) (name : option string) (bus_separator : string)
          (array_idx : option Z).

(** The handle an attribute name stands for under a signal dict. *)
Definition resolve (items : PyDict.t string) (attr_name : string) : option nat :=
  match PyDict.get items attr_name with
  | Some sig_name => entity (signame name bus_separator array_idx sig_name)
  | None => None
  end.

Definition overlay (items : PyDict.t string) (below : string -> option nat)
           (attr_name : string) : option nat :=
  match resolve items attr_name with
  | Some hdl => Some hdl
  | None => below attr_name
  end.

Lemma add_required_binds items :
  forall b b', _entity b = entity ->
    add_required name bus_separator array_idx items b = inr b' ->
    _entity b' = entity /\
    (NoDup (PyDict.keys items) ->
     forall attr_name,
       PyDict.get (_signals b') attr_name =
         overlay items (PyDict.get (_signals b)) attr_name).
Proof.
  unfold overlay, resolve.
  induction items as [|[a sg] rest IH]; cbn [add_required]; intros b b' He H.
  - injection H as <-. split; auto.
  - unfold _add_signal in H. rewrite He in H.
    destruct (entity (signame name bus_separator array_idx sg)) as [hdl|] eqn:Eh;
      [|discriminate].
    apply IH in H; auto. destruct H as [He' Hg]. split; auto.
    intros Hnd attr. apply NoDup_cons_iff in Hnd. destruct Hnd as [Hna Hnd].
    rewrite (Hg Hnd). cbn [_signals PyDict.get].
    destruct (String.eqb_spec a attr) as [<-|Hne].
    + destruct (PyDict.get rest a) eqn:Er.
      * exfalso. apply Hna. now apply get_in, in_keys in Er.
      * rewrite Eh. apply get_set_same.
    + destruct (PyDict.get rest attr) as [s|];
        [destruct (entity (signame name bus_separator array_idx s)); auto|];
        now apply get_set_other.
Qed.

Lemma add_required_raises items :
  forall b e, _entity b = entity ->
    add_required name bus_separator array_idx items b = inl e ->
    exists sig_name,
      In sig_name (map snd items) /\
      entity (signame name bus_separator array_idx sig_name) = None /\
      e = AttributeError (signame name bus_separator array_idx sig_name
                          ++ " contains no such object").
Proof.
  induction items as [|[a sg] rest IH]; cbn [add_required]; intros b e He H;
    [discriminate|].
  unfold _add_signal in H. rewrite He in H.
  destruct (entity (signame name bus_separator array_idx sg)) as [hdl|] eqn:Eh.
  - apply IH in H; auto. destruct H as (sn & Hin & Hn & ->).
    exists sn. cbn. auto.
  - injection H as <-. exists sg. cbn. auto.
Qed.

Lemma add_required_returns items :
  forall b, _entity b = entity ->
    (forall sig_name, In sig_name (map snd items) ->
       entity (signame name bus_separator array_idx sig_name) <> None) ->
    exists b', add_required name bus_separator array_idx items b = inr b'.
Proof.
  induction items as [|[a sg] rest IH]; cbn [add_required]; intros b He Hall;
    [eauto|].
  unfold _add_signal. rewrite He.
  destruct (entity (signame name bus_separator array_idx sg)) as [hdl|] eqn:Eh.
  - apply IH; auto. intros sn Hin. apply Hall. cbn. auto.
  - exfalso. apply (Hall sg); cbn; auto.
Qed.

Lemma add_required_found items :
  forall b b', _entity b = entity ->
    add_required name bus_separator array_idx items b = inr b' ->
    forall sig_name, In sig_name (map snd items) ->
      entity (signame name bus_separator array_idx sig_name) <> None.
Proof.
  induction items as [|[a sg] rest IH]; cbn [add_required]; intros b b' He H sn;
    [intros []|].
  unfold _add_signal in H. rewrite He in H.
  destruct (entity (signame name bus_separator array_idx sg)) as [hdl|] eqn:Eh;
    [|discriminate].
  cbn. intros [<-|Hin]; [congruence|].
  refine (IH _ _ _ H sn Hin). reflexivity.
Qed.

Lemma add_optional_binds items :
  forall b, _entity b = entity ->
    exists b', add_optional name bus_separator array_idx items b = inr b' /\
      _entity b' = entity /\
      (NoDup (PyDict.keys items) ->
       forall attr_name,
         PyDict.get (_signals b') attr_name =
           overlay items (PyDict.get (_signals b)) attr_name).
Proof.
  unfold overlay, resolve.
  induction items as [|[a sg] rest IH]; cbn [add_optional]; intros b He.
  - eauto.
  - cbn [_entity _signals _name log]. unfold __hasattr__, _add_signal.
    cbn [_entity _signals _name log]. rewrite He.
    destruct (entity (signame name bus_separator array_idx sg)) as [hdl|] eqn:Eh.
    + match goal with |- context [add_optional _ _ _ rest ?b0] =>
        destruct (IH b0 eq_refl) as (b' & Hr & He' & Hg) end.
      exists b'. split; auto. split; auto.
      intros Hnd attr. apply NoDup_cons_iff in Hnd. destruct Hnd as [Hna Hnd].
      rewrite (Hg Hnd). cbn [_signals PyDict.get].
      destruct (String.eqb_spec a attr) as [<-|Hne].
      * destruct (PyDict.get rest a) eqn:Er.
        -- exfalso. apply Hna. now apply get_in, in_keys in Er.
        -- rewrite Eh. apply get_set_same.
      * destruct (PyDict.get rest attr) as [s|];
          [destruct (entity (signame name bus_separator array_idx s)); auto|];
          now apply get_set_other.
    + match goal with |- context [add_optional _ _ _ rest ?b0] =>
        destruct (IH b0 eq_refl) as (b' & Hr & He' & Hg) end.
      exists b'. split; auto. split; auto.
      intros Hnd attr. apply NoDup_cons_iff in Hnd. destruct Hnd as [Hna Hnd].
      rewrite (Hg Hnd). cbn [_signals PyDict.get].
      destruct (String.eqb_spec a attr) as [<-|Hne]; auto.
      destruct (PyDict.get rest a) eqn:Er.
      * exfalso. apply Hna. now apply get_in, in_keys in Er.
      * now rewrite Eh.
Qed.

(** X16: the attributes of a constructed bus.  The handle bound to an
    attribute name is that of its optional signal, if it is an optional
    name whose signal the entity has; else that of its required signal, if
    it is a required name; else there is no such attribute.  The signal
    looked up on the entity is [name + separator + signal], with the index
    in brackets appended for an array index, and the bare signal name for
    a bus without name. *)
Theorem bus_binds_signals (signals optional_signals : signal_names) (b : t) :
  distinct (PyDict.keys (_build_sig_attr_dict signals)) = true ->
  distinct (PyDict.keys (_build_sig_attr_dict optional_signals)) = true ->
  __init__ entity name signals optional_signals bus_separator array_idx = inr b ->
  forall attr_name,
    PyDict.get (_signals b) attr_name =
      overlay (_build_sig_attr_dict optional_signals)
              (resolve (_build_sig_attr_dict signals)) attr_name.
Proof.
  intros Hs Ho H attr. apply distinct_NoDup in Hs, Ho.
  unfold __init__ in H.
  destruct (add_required _ _ _ _ _) as [e|b1] eqn:Hreq; [discriminate|].
  apply add_required_binds in Hreq; auto. destruct Hreq as [He Hg].
  destruct (add_optional_binds (_build_sig_attr_dict optional_signals) b1 He)
    as (b' & Hr & _ & Hg').
  rewrite Hr in H. injection H as <-.
  rewrite (Hg' Ho). unfold overlay. rewrite (Hg Hs). unfold overlay. cbn.
  destruct (resolve (_build_sig_attr_dict optional_signals) attr); auto.
  destruct (resolve (_build_sig_attr_dict signals) attr); auto.
Qed.

Lemma init_raises (signals optional_signals : signal_names) e :
  __init__ entity name signals optional_signals bus_separator array_idx = inl e ->
  exists sig_name,
    In sig_name (map snd (_build_sig_attr_dict signals)) /\
    entity (signame name bus_separator array_idx sig_name) = None /\
    e = AttributeError (signame name bus_separator array_idx sig_name
                        ++ " contains no such object").
Proof.
  intros H. unfold __init__ in H.
  destruct (add_required _ _ _ _ _) as [e1|b1] eqn:Hreq.
  - injection H as <-. now apply add_required_raises in Hreq.
  - exfalso. apply add_required_binds in Hreq; auto. destruct Hreq as [He _].
    destruct (add_optional_binds (_build_sig_attr_dict optional_signals) b1 He)
      as (b' & Hr & _). congruence.
Qed.

(** X17: constructing a bus succeeds exactly when the entity has every
    required signal; a missing optional signal never makes it fail, and the
    only exception it raises is the [AttributeError] for a required signal
    that the entity does not have. *)
Theorem bus_needs_required_signals (signals optional_signals : signal_names) :
  ((exists b,
      __init__ entity name signals optional_signals bus_separator array_idx = inr b)
   <-> (forall sig_name,
          In sig_name (map snd (_build_sig_attr_dict signals)) ->
          entity (signame name bus_separator array_idx sig_name) <> None))
  /\ (forall e,
        __init__ entity name signals optional_signals bus_separator array_idx = inl e ->
        exists sig_name,
          In sig_name (map snd (_build_sig_attr_dict signals)) /\
          entity (signame name bus_separator array_idx sig_name) = None /\
          e = AttributeError (signame name bus_separator array_idx sig_name
                              ++ " contains no such object")).
Proof.
  split; [|apply init_raises]. split.
  - intros [b H] sn Hin Hn.
    unfold __init__ in H.
    destruct (add_required _ _ _ _ _) as [e1|b1] eqn:Hreq; [discriminate|].
    refine (add_required_found _ _ _ _ Hreq sn Hin Hn). reflexivity.
  - intros Hall.
    destruct (add_required_returns (_build_sig_attr_dict signals)
                (mk entity name [] []) eq_refl Hall) as [b1 Hreq].
    unfold __init__. rewrite Hreq.
    apply add_required_binds in Hreq; auto. destruct Hreq as [He _].
    destruct (add_optional_binds (_build_sig_attr_dict optional_signals) b1 He)
      as (b' & Hr & _). eauto.
Qed.

Lemma add_aliases_returns signals items :
  forall acc,
    (forall k, In k (PyDict.keys items) -> In k (PyDict.keys signals)) ->
    exists d, add_aliases signals items acc = inr d /\
      (NoDup (PyDict.keys items) ->
       forall k, PyDict.get d k =
                   match PyDict.get items k with
                   | Some alias => Some alias
                   | None => PyDict.get acc k
                   end).
Proof.
  induction items as [|[n alias] rest IH]; cbn [add_aliases]; intros acc Hsub.
  - eauto.
  - destruct (in_keys_get signals n) as [v ->]; [apply Hsub; cbn; auto|].
    destruct (IH (PyDict.set acc n alias)) as (d & -> & Hd);
      [intros k Hk; apply Hsub; cbn; auto|].
    exists d. split; auto.
    intros Hnd k. apply NoDup_cons_iff in Hnd. destruct Hnd as [Hn Hnd].
    rewrite (Hd Hnd). cbn [PyDict.get].
    destruct (String.eqb_spec n k) as [<-|Hne].
    + destruct (PyDict.get rest n) eqn:Er.
      * exfalso. apply Hn. now apply get_in, in_keys in Er.
      * apply get_set_same.
    + destruct (PyDict.get rest k); auto. now apply get_set_other.
Qed.

(** X18: a typed bus does not check the names it is given aliases for.
    Every alias becomes a required signal, whether its name is a required
    signal of the type, an optional one or none at all: if the entity has no
    signal of the aliased name, construction ends in the [AttributeError] of
    a missing required signal (never in the [ValueError] for a name that is
    not part of the bus). *)
Theorem typed_bus_alias_is_required (type_signals type_optional : signal_names)
        (signals : PyDict.t string) (n alias : string) :
  distinct (PyDict.keys signals) = true ->
  In (n, alias) signals ->
  entity (signame name bus_separator array_idx alias) = None ->
  exists sig_name,
    entity (signame name bus_separator array_idx sig_name) = None /\
    TypedBus__init__ type_signals type_optional entity name signals false
                     bus_separator array_idx =
      inl (AttributeError (signame name bus_separator array_idx sig_name
                           ++ " contains no such object")).
Proof.
  intros Hd Hin Hmiss. apply distinct_NoDup in Hd.
  unfold TypedBus__init__.
  destruct (add_aliases_returns signals signals (_build_sig_attr_dict type_signals))
    as (d & -> & Hg); auto.
  specialize (Hg Hd n). rewrite (in_get _ _ _ Hd Hin) in Hg.
  apply get_in in Hg.
  destruct (__init__ entity name (NameDict d) _ bus_separator array_idx)
    as [e|b] eqn:Hi.
  - apply init_raises in Hi. destruct Hi as (sn & _ & Hn & ->). eauto.
  - exfalso. unfold __init__ in Hi.
    destruct (add_required _ _ _ _ _) as [e1|b1] eqn:Hreq; [discriminate|].
    refine (add_required_found _ _ _ _ Hreq alias _ Hmiss); [reflexivity|].
    cbn. now apply (in_map snd) in Hg.
Qed.
End Binding.

(** The assignments a non-strict [drive] makes. *)
Fixpoint assignments (obj : pyobject) (items : PyDict.t nat) : list (nat * Z) :=
  match items with
  | [] => []
  | (attr_name, hdl) :: rest =>
      match PyDict.get obj attr_name with
      | Some val => (hdl, val) :: assignments obj rest
      | None => assignments obj rest
      end
  end.

Lemma drive_items_lenient obj items :
  drive_items items obj false = (assignments obj items, None).
Proof.
  induction items as [|[a h] rest IH]; cbn; auto.
  destruct (PyDict.get obj a); auto. now rewrite IH.
Qed.

Lemma drive_items_strict obj pre :
  forall attr_name hdl post,
    (forall a, In a (PyDict.keys pre) -> PyDict.get obj a <> None) ->
    PyDict.get obj attr_name = None ->
    exists msg,
      drive_items (pre ++ (attr_name, hdl) :: post) obj true =
        (assignments obj pre, Some (AttributeError msg)).
Proof.
  induction pre as [|[a h] rest IH]; intros attr hdl post Hall Hmiss; cbn.
  - rewrite Hmiss. eauto.
  - destruct (PyDict.get obj a) eqn:Ea.
    + destruct (IH attr hdl post) as [msg ->]; auto.
      * intros k Hk. apply Hall. cbn. auto.
      * eauto.
    + exfalso. apply (Hall a); cbn; auto.
Qed.

(** X19: a strict [drive] is not atomic.  When the object lacks the
    attribute of some signal of the bus, and has those of the signals before
    it, a strict drive raises [AttributeError] after it has assigned the
    signals before the missing one, and assigns none after it; the same
    drive without [strict] skips the missing signal, assigns all the others
    and raises nothing. *)
Theorem strict_drive_stops_at_missing (b : t) (obj : pyobject)
        (pre post : PyDict.t nat) (attr_name : string) (hdl : nat) :
  _signals b = pre ++ (attr_name, hdl) :: post ->
  (forall a, In a (PyDict.keys pre) -> PyDict.get obj a <> None) ->
  PyDict.get obj attr_name = None ->
  (exists msg,
     drive b obj true = (assignments obj pre, Some (AttributeError msg))) /\
  drive b obj false = (assignments obj pre ++ assignments obj post, None).
Proof.
  intros Hs Hall Hmiss. unfold drive. rewrite Hs. split.
  - now apply drive_items_strict.
  - rewrite drive_items_lenient. f_equal.
    clear Hall Hs. induction pre as [|[a h] rest IH]; cbn.
    + now rewrite Hmiss.
    + destruct (PyDict.get obj a); cbn; now rewrite IH.
Qed.

Lemma drive_items_handles obj strict items :
  forall writes e,
    drive_items items obj strict = (writes, e) ->
    forall h, In h (map fst writes) -> In h (map snd items).
Proof.
  induction items as [|[a h0] rest IH]; cbn; intros writes e H h.
  - injection H as <- <-. auto.
  - destruct (PyDict.get obj a).
    + destruct (drive_items rest obj strict) as [w e'] eqn:Er.
      injection H as <- <-. cbn. intros [?|?]; eauto.
    + destruct strict.
      * injection H as <- <-. intros [].
      * eauto.
Qed.

Lemma settle_untouched writes :
  forall value h, ~ In h (map fst writes) -> settle writes value h = value h.
Proof.
  induction writes as [|[h0 v] rest IH]; cbn; intros value h Hn; auto.
  rewrite IH by tauto.
  destruct (Nat.eqb_spec h h0); auto. subst. tauto.
Qed.

Lemma settle_drive obj strict items :
  forall writes value,
    NoDup (map snd items) ->
    drive_items items obj strict = (writes, None) ->
    forall a h, In (a, h) items ->
      settle writes value h =
        match PyDict.get obj a with Some v => v | None => value h end.
Proof.
  induction items as [|[a0 h0] rest IH]; cbn; intros writes value Hnd H a h Hin;
    [tauto|].
  apply NoDup_cons_iff in Hnd. destruct Hnd as [Hn Hnd].
  destruct Hin as [[= -> ->]|Hin].
  - destruct (PyDict.get obj a) as [v|] eqn:Ea.
    + destruct (drive_items rest obj strict) as [w e'] eqn:Er.
      injection H as <- ->. cbn.
      rewrite settle_untouched.
      * now rewrite Nat.eqb_refl.
      * intros Hw. apply Hn. eapply drive_items_handles; eauto.
    + destruct strict; [discriminate|].
      apply settle_untouched.
      intros Hw. apply Hn. eapply drive_items_handles; eauto.
  - assert (Hne : h <> h0).
    { intros ->. apply Hn. now apply (in_map snd) in Hin. }
    destruct (PyDict.get obj a0) as [v0|] eqn:Ea0.
    + destruct (drive_items rest obj strict) as [w e'] eqn:Er.
      injection H as <- ->. cbn.
      rewrite (IH w _ Hnd eq_refl a h Hin).
      destruct (PyDict.get obj a); auto.
      destruct (Nat.eqb_spec h h0); congruence.
    + destruct strict; [discriminate|]. eauto.
Qed.

Lemma capture_get b value name :
  PyDict.get (capture b value) name =
    option_map value (PyDict.get (_signals b) name).
Proof.
  unfold capture. induction (_signals b) as [|[a h] rest IH]; cbn; auto.
  destruct (String.eqb a name); auto.
Qed.

(** X20: what was driven is what is captured.  On a bus whose attributes
    are bound to distinct handles, once the assignments of a [drive] that
    raised nothing have settled, the [__getattr__] of a capture gives, for
    every attribute name of the bus, the value the driven object had for it,
    or the value the signal had before if the object has no such attribute;
    for any other name it raises [RuntimeError]. *)
Theorem drive_then_capture (b : t) (obj : pyobject) (strict : bool)
        (writes : list (nat * Z)) (value : nat -> Z) :
  NoDup (map snd (_signals b)) ->
  drive b obj strict = (writes, None) ->
  forall name,
    _Capture__getattr__ (capture b (settle writes value)) name =
      match PyDict.get (_signals b) name with
      | None => inl (RuntimeError "Signal {} not present in bus")
      | Some hdl =>
          inr (match PyDict.get obj name with
               | Some val => val
               | None => value hdl
               end)
      end.
Proof.
  intros Hnd Hd name. unfold _Capture__getattr__. rewrite capture_get.
  destruct (PyDict.get (_signals b) name) as [hdl|] eqn:Eg; cbn; auto.
  f_equal. eapply settle_drive; eauto. now apply get_in.
Qed.

End BusProperties.

(** ** The further properties at concrete inputs *)

Lemma completed_cycle_at_rest_witness :
  send_cycle (PyList (map PyWBOp single_write)) single_write_start
  = Ret (returned single_write_run []) (final_state single_write_run)
  /\ Bus.cyc (bus (final_state single_write_run)) = 0
  /\ busy (final_state single_write_run) = false
  /\ 1 <= _acked_ops (final_state single_write_run).
Proof.
  split; [exact single_write_completes|].
  pose proof (completed_cycle_at_rest (map PyWBOp single_write) single_write_start
                (returned single_write_run []) (final_state single_write_run)
                single_write_completes) as H.
  destruct H as (Hcyc & _ & _ & Hbusy & _ & _ & _ & Hack).
  split; [exact Hcyc|]. split; [exact Hbusy | exact Hack].
Defined.

(** An open cycle with two operations issued and one reply counted, at the
    edge before the slave answers with err. *)
Definition awaiting_reply : master :=
  mk_master (Bus.mk_out 1 0 0 20 0 15) pipelined_bus None true false 1 [] [] 2 3 []
            true true quiet_edge [Bus.mk_inp 0 1 0 0 22] 4.

Lemma results_carry_reply_codes_witness :
  busy awaiting_reply = true
  /\ reader_waiting awaiting_reply = true
  /\ pending awaiting_reply = [Bus.mk_inp 0 1 0 0 22]
  /\ _get_reply (shape awaiting_reply) (Bus.mk_inp 0 1 0 0 22) = inr (true, 2)
  /\ (exists s1,
        clock_event awaiting_reply = Ret tt s1
        /\ busy s1 = true
        /\ _res_buf s1
           = _res_buf awaiting_reply
               ++ [WBRes.mk 2 None None 22 None None None 3]
        /\ _acked_ops s1 = _acked_ops awaiting_reply + 1)
  /\ send_cycle (PyList (map PyWBOp three_ops)) three_ops_start
     = Ret (returned three_ops_run []) (final_state three_ops_run)
  /\ map WBRes.ack (returned three_ops_run [])
     = firstn (List.length (map PyWBOp three_ops))
              (map WBRes.ack (collected (shape three_ops_start) 0 three_ops_during)).
Proof.
  split; [reflexivity|]. split; [reflexivity|]. split; [reflexivity|].
  split; [reflexivity|]. split.
  - exact (proj2 (proj1 results_carry_reply_codes awaiting_reply
                    (Bus.mk_inp 0 1 0 0 22) [] 2 eq_refl eq_refl eq_refl eq_refl)).
  - split; [exact three_ops_completes|].
    exact (proj2 (proj2 results_carry_reply_codes (map PyWBOp three_ops)
                    three_ops_start (returned three_ops_run [])
                    (final_state three_ops_run) three_ops_completes)
                 eq_refl quiet_edge three_ops_during quiet_edge three_ops_consumed).
Defined.

Lemma issue_times_spaced_witness :
  send_cycle (PyList (map PyWBOp three_ops)) three_ops_start
  = Ret (returned three_ops_run []) (final_state three_ops_run)
  /\ spaced 0 (_aux_buf (final_state three_ops_run))
  /\ forall i aux,
       nth_error (_aux_buf (final_state three_ops_run)) i = Some aux ->
       Z.of_nat i + 1 + idle_edges (WBAux.waitIdle aux) <= WBAux.ts aux.
Proof.
  split; [exact three_ops_completes|].
  exact (issue_times_spaced (map PyWBOp three_ops) three_ops_start
           (returned three_ops_run []) (final_state three_ops_run)
           three_ops_completes).
Defined.

Lemma send_cycle_not_blocked_at_rest_witness :
  busy (master_at_rest pipelined_bus (Some 5) [stalled_edge; quiet_edge]) = false
  /\ forall s',
       send_cycle (PyList (map PyWBOp single_write))
                  (master_at_rest pipelined_bus (Some 5) [stalled_edge; quiet_edge])
       <> Blocked s'.
Proof.
  split; [reflexivity|].
  exact (send_cycle_not_blocked_at_rest (PyList (map PyWBOp single_write))
           (master_at_rest pipelined_bus (Some 5) [stalled_edge; quiet_edge])
           eq_refl).
Defined.

(** [send_cycle([7])] with an edge to spare, and the master it leaves. *)
Definition refused_early : outcome (list WBRes.t) :=
  send_cycle not_operations (master_at_rest classic_bus None [quiet_edge; quiet_edge]).

Lemma refused_early_raises :
  send_cycle not_operations (master_at_rest classic_bus None [quiet_edge; quiet_edge])
  = Raise usage_fault (final_state refused_early).
Proof. vm_compute. reflexivity. Qed.

Lemma refused_early_pending : pending (final_state refused_early) = [quiet_edge].
Proof. vm_compute. reflexivity. Qed.

Lemma refused_early_unambiguous :
  unambiguous (shape (final_state refused_early)) quiet_edge.
Proof. eexists. vm_compute. reflexivity. Qed.

Lemma usage_fault_blocks_next_cycle_witness :
  is_sequence not_operations = true
  /\ send_cycle not_operations (master_at_rest classic_bus None [quiet_edge; quiet_edge])
     = Raise usage_fault (final_state refused_early)
  /\ pending (final_state refused_early) = [quiet_edge]
  /\ unambiguous (shape (final_state refused_early)) quiet_edge
  /\ py_len (PyList (map PyWBOp single_write)) = Some 1
  /\ Bus.cyc (bus (final_state refused_early)) = 1
  /\ exists s2,
       send_cycle (PyList (map PyWBOp single_write)) (final_state refused_early)
       = Blocked s2
       /\ bus s2 = bus (final_state refused_early).
Proof.
  split; [reflexivity|]. split; [exact refused_early_raises|].
  split; [exact refused_early_pending|]. split; [exact refused_early_unambiguous|].
  split; [reflexivity|].
  pose proof (usage_fault_blocks_next_cycle not_operations
                (PyList (map PyWBOp single_write))
                (master_at_rest classic_bus None [quiet_edge; quiet_edge])
                (final_state refused_early) quiet_edge [] 1
                eq_refl refused_early_raises refused_early_pending
                refused_early_unambiguous eq_refl (Z.le_refl 1)) as H.
  destruct H as (Hcyc & _ & _ & s2 & Hrun & Hbus & _).
  split; [exact Hcyc|]. exists s2. split; [exact Hrun | exact Hbus].
Defined.

(** A classic master with one operation issued and no reply yet: timeout 2,
    two silent edges ahead. *)
Definition unanswered_master : master :=
  mk_master (Bus.mk_out 1 0 0 16 170 15) classic_bus (Some 2) true false 0 [] [] 1 1 []
            true true quiet_edge [quiet_edge; quiet_edge] 2.

Lemma close_cycle_timeout_witness :
  _timeout unanswered_master = Some 2
  /\ _acked_ops unanswered_master < _op_cnt unanswered_master
  /\ pending unanswered_master = [quiet_edge; quiet_edge] ++ []
  /\ Forall (silent (shape unanswered_master)) [quiet_edge; quiet_edge]
  /\ exists s', _close_cycle unanswered_master = Raise reply_timeout s'
                /\ pending s' = []
                /\ bus s' = bus unanswered_master
                /\ busy s' = true.
Proof.
  assert (Hq : Forall (silent (shape unanswered_master)) [quiet_edge; quiet_edge]).
  { repeat (constructor; [reflexivity|]). constructor. }
  split; [reflexivity|]. split; [reflexivity|]. split; [reflexivity|].
  split; [exact Hq|].
  destruct (close_cycle_timeout unanswered_master 2 [quiet_edge; quiet_edge] []
              eq_refl eq_refl eq_refl Hq eq_refl)
    as (s' & Hrun & _ & Hp & Hbus & Hbusy).
  exists s'. split; [exact Hrun|]. split; [exact Hp|]. split; [exact Hbus|].
  exact Hbusy.
Defined.

(** The same master, answered at the second edge. *)
Definition answered_master : master :=
  mk_master (Bus.mk_out 1 1 1 16 170 15) classic_bus (Some 1) true false 0 [] [] 1 1 []
            true true quiet_edge [quiet_edge; ack_edge; quiet_edge] 2.

Lemma wait_ack_until_reply_witness :
  Bus.has_stall (shape answered_master) = false
  /\ silent (shape answered_master) (now answered_master)
  /\ pending answered_master = [quiet_edge] ++ ack_edge :: [quiet_edge]
  /\ _get_reply (shape answered_master) ack_edge = inr (true, 1)
  /\ exists s', _wait_ack answered_master = Ret (Z.of_nat 1 + 1) s'
                /\ now s' = ack_edge /\ pending s' = [quiet_edge].
Proof.
  split; [reflexivity|]. split; [reflexivity|]. split; [reflexivity|].
  split; [reflexivity|].
  destruct (proj2 (wait_ack_until_reply answered_master)
              [quiet_edge] ack_edge 1 [quiet_edge] eq_refl eq_refl eq_refl
              (Forall_cons quiet_edge eq_refl (Forall_nil _)) eq_refl)
    as (s' & Hrun & Hnow & Hp & _).
  exists s'. split; [exact Hrun|]. split; [exact Hnow | exact Hp].
Defined.

(** A bus with a two-bit channel signal whose channels are reported, and a
    one-word packet on channel 2. *)
Definition four_channels : Avalon.config :=
  Avalon.mk_config 8 true 3 0 0 8 false true true.

Definition word_on_channel_2 : Avalon.sample :=
  Avalon.mk_sample None None true true true true byte_12 0 2.

Lemma reported_channel_within_max_witness :
  Avalon.reachable four_channels Avalon.initial
  /\ Avalon.has_channel four_channels = true
  /\ Avalon.edge four_channels word_on_channel_2 Avalon.initial
     = inr (Avalon.initial, Some (Avalon.PacketOnChannel [18] (Some 2)))
  /\ Avalon.channel word_on_channel_2 <= Avalon.maxChannel four_channels.
Proof.
  split; [apply Avalon.reach_initial|]. split; [reflexivity|].
  split; [reflexivity|].
  exact (proj1 (reported_channel_within_max four_channels word_on_channel_2
                  Avalon.initial Avalon.initial
                  (Avalon.PacketOnChannel [18] (Some 2))
                  (Avalon.reach_initial four_channels) eq_refl eq_refl)).
Defined.

(** A further word, without start-of-packet, on channel 2. *)
Definition next_word_on_channel_2 : Avalon.sample :=
  Avalon.mk_sample None None true true false false byte_12 0 2.

Lemma channel_change_is_fatal_witness :
  Avalon.has_channel four_channels = true
  /\ Avalon.cur_channel (Avalon.mk_state [18] true 0 (Some 1) false) = Some 1
  /\ Avalon.in_reset next_word_on_channel_2 = false
  /\ Avalon.is_valid four_channels next_word_on_channel_2 = true
  /\ Avalon.channel next_word_on_channel_2 <> 1
  /\ exists e, Avalon.edge four_channels next_word_on_channel_2
                 (Avalon.mk_state [18] true 0 (Some 1) false) = inl e.
Proof.
  assert (Hc : Avalon.channel next_word_on_channel_2 <> 1) by discriminate.
  split; [reflexivity|]. split; [reflexivity|]. split; [reflexivity|].
  split; [reflexivity|]. split; [exact Hc|].
  exact (channel_change_is_fatal four_channels next_word_on_channel_2
           (Avalon.mk_state [18] true 0 (Some 1) false) 1
           eq_refl eq_refl eq_refl eq_refl Hc).
Defined.

Definition last_word : Avalon.sample :=
  Avalon.mk_sample None None true true false true byte_12 0 0.

Lemma packet_reassembled_witness :
  Avalon.has_channel timeout3 = false
  /\ Forall (clean timeout3) ([first_word] ++ [last_word])
  /\ map Avalon.startofpacket ([first_word] ++ [last_word]) = [true; false]
  /\ map Avalon.endofpacket ([first_word] ++ [last_word]) = [false; true]
  /\ Avalon.masks timeout3 last_word = false
  /\ exists m',
       Avalon._monitor_recv timeout3 ([first_word] ++ [last_word]) Avalon.initial
         (Monitor.init None None tt)
       = inr (Avalon.initial, m')
       /\ Monitor._recvQ m' = [Avalon.Packet [18; 18]].
Proof.
  assert (Hc : Forall (clean timeout3) ([first_word] ++ [last_word])).
  { repeat (constructor; [repeat split; reflexivity|]). constructor. }
  split; [reflexivity|]. split; [exact Hc|]. split; [reflexivity|].
  split; [reflexivity|]. split; [reflexivity|].
  pose proof (packet_reassembled timeout3 [first_word] last_word Avalon.initial
                (Monitor.init None None tt)
                eq_refl eq_refl eq_refl eq_refl Hc eq_refl eq_refl eq_refl) as H.
  eexists. split; [exact H | reflexivity].
Defined.

Lemma invalid_cycles_tolerated_witness :
  Avalon.in_pkt (Avalon.mk_state [18] true 0 None false) = true
  /\ 0 <= Avalon.invalidTimeout timeout3
  /\ Forall (fun w => Avalon.in_reset w = false /\ Avalon.is_valid timeout3 w = false)
            [no_word; no_word]
  /\ Avalon._monitor_recv timeout3 [no_word; no_word]
       (Avalon.mk_state [18] true 0 None false) (Monitor.init None None tt)
     = inr (Avalon.mk_state [18] true (0 + Z.of_nat 2) None false,
            Monitor.init (T := Avalon.transaction) None None tt).
Proof.
  assert (Hq : Forall (fun w => Avalon.in_reset w = false
                                /\ Avalon.is_valid timeout3 w = false)
                      [no_word; no_word]).
  { repeat (constructor; [split; reflexivity|]). constructor. }
  assert (Hpos : 0 <= Avalon.invalidTimeout timeout3) by (cbn; lia).
  assert (Hcnt : 0 <= Avalon.invalid_cyclecount (Avalon.mk_state [18] true 0 None false))
    by (cbn; lia).
  assert (Hlt : Avalon.invalidTimeout timeout3 = 0
                \/ Avalon.invalid_cyclecount (Avalon.mk_state [18] true 0 None false)
                   + Z.of_nat (List.length [no_word; no_word])
                   < Avalon.invalidTimeout timeout3)
    by (right; cbn; lia).
  split; [reflexivity|]. split; [exact Hpos|]. split; [exact Hq|].
  exact (proj1 (invalid_cycles_tolerated timeout3 [no_word; no_word]
                  (Avalon.mk_state [18] true 0 None false) (Monitor.init None None tt)
                  eq_refl Hcnt Hpos Hq) Hlt).
Defined.

(** What a constructor returned, [d] if it raised. *)
Definition constructed {E A : Type} (r : E + A) (d : A) : A :=
  match r with inr a => a | inl _ => d end.

Lemma queue_in_arrival_order_witness :
  Monitor._callbacks (Monitor.init (T := nat) None None tt) = []
  /\ exists m',
       recv_each [3; 5]%nat (Monitor.init None None tt) = inr m'
       /\ Monitor._recvQ m' = [3; 5]%nat
       /\ __getitem__ m' (-1) = Some 5%nat.
Proof.
  split; [reflexivity|].
  destruct (queue_in_arrival_order [3; 5]%nat (Monitor.init None None tt) eq_refl)
    as (m' & Hrun & Hq & _ & _ & _ & Hlast).
  exists m'. split; [exact Hrun|]. split; [exact Hq|].
  apply Hlast; [reflexivity | discriminate].
Defined.

Lemma callbacks_bypass_queue_witness :
  recv_each [7; 9]%nat (Monitor.add_callback scoreboard (Monitor.init None None []))
  = inr (constructed
           (recv_each [7; 9]%nat
              (Monitor.add_callback scoreboard (Monitor.init None None [])))
           (Monitor.init None None []))
  /\ Monitor._recvQ
       (constructed
          (recv_each [7; 9]%nat
             (Monitor.add_callback scoreboard (Monitor.init None None [])))
          (Monitor.init None None []))
     = [].
Proof.
  split; [reflexivity|].
  exact (proj1 (callbacks_bypass_queue scoreboard [7; 9]%nat
                  (Monitor.init None None [])
                  (constructed
                     (recv_each [7; 9]%nat
                        (Monitor.add_callback scoreboard (Monitor.init None None [])))
                     (Monitor.init None None []))
                  eq_refl)).
Defined.

(** An entity with the signals of the bus [stream_in]: valid, data and
    empty, but no ready. *)
Definition dut : CocotbBus.SimHandle :=
  fun name =>
    if String.eqb name "stream_in_valid" then Some 0%nat
    else if String.eqb name "stream_in_data" then Some 1%nat
    else if String.eqb name "stream_in_empty" then Some 2%nat
    else None.

Definition stream_in : CocotbBus.t :=
  constructed
    (CocotbBus.__init__ dut (Some "stream_in"%string)
       (CocotbBus.NameList ["valid"; "data"]%string)
       (CocotbBus.NameList ["ready"; "empty"]%string) "_" None)
    (CocotbBus.mk dut None [] []).

Lemma stream_in_constructed :
  CocotbBus.__init__ dut (Some "stream_in"%string)
    (CocotbBus.NameList ["valid"; "data"]%string)
    (CocotbBus.NameList ["ready"; "empty"]%string) "_" None
  = inr stream_in.
Proof. vm_compute. reflexivity. Qed.

Lemma bus_binds_signals_witness :
  CocotbBus.__init__ dut (Some "stream_in"%string)
    (CocotbBus.NameList ["valid"; "data"]%string)
    (CocotbBus.NameList ["ready"; "empty"]%string) "_" None
  = inr stream_in
  /\ PyDict.get (CocotbBus._signals stream_in) "empty" = Some 2%nat
  /\ PyDict.get (CocotbBus._signals stream_in) "ready" = None.
Proof.
  split; [exact stream_in_constructed|].
  pose proof (bus_binds_signals dut (Some "stream_in"%string) "_" None
                (CocotbBus.NameList ["valid"; "data"]%string)
                (CocotbBus.NameList ["ready"; "empty"]%string) stream_in
                eq_refl eq_refl stream_in_constructed) as H.
  split; [exact (H "empty"%string) | exact (H "ready"%string)].
Defined.

Lemma bus_needs_required_signals_witness :
  dut (CocotbBus.signame (Some "stream_in"%string) "_" None "ready") = None
  /\ forall b,
       CocotbBus.__init__ dut (Some "stream_in"%string)
         (CocotbBus.NameList ["valid"; "ready"]%string)
         (CocotbBus.NameList ["empty"]%string) "_" None
       <> inr b.
Proof.
  split; [reflexivity|].
  intros b Hb.
  exact (proj1 (proj1 (bus_needs_required_signals dut (Some "stream_in"%string) "_" None
                         (CocotbBus.NameList ["valid"; "ready"]%string)
                         (CocotbBus.NameList ["empty"]%string)))
               (ex_intro _ b Hb) "ready"%string (or_intror (or_introl eq_refl))
               eq_refl).
Defined.

Lemma typed_bus_alias_is_required_witness :
  distinct (PyDict.keys [("ready", "rdy")]%string) = true
  /\ In ("ready", "rdy")%string [("ready", "rdy")]%string
  /\ dut (CocotbBus.signame (Some "stream_in"%string) "_" None "rdy") = None
  /\ exists sig_name,
       CocotbBus.TypedBus__init__
         (CocotbBus.NameList ["valid"; "data"]%string)
         (CocotbBus.NameList ["ready"; "empty"]%string)
         dut (Some "stream_in"%string) [("ready", "rdy")]%string false "_" None
       = inl (CocotbBus.AttributeError
                (CocotbBus.signame (Some "stream_in"%string) "_" None sig_name
                 ++ " contains no such object")).
Proof.
  split; [reflexivity|]. split; [left; reflexivity|]. split; [reflexivity|].
  destruct (typed_bus_alias_is_required dut (Some "stream_in"%string) "_" None
              (CocotbBus.NameList ["valid"; "data"]%string)
              (CocotbBus.NameList ["ready"; "empty"]%string)
              [("ready", "rdy")]%string "ready" "rdy"
              eq_refl (or_introl eq_refl) eq_refl)
    as (sn & _ & Hrun).
  exists sn. exact Hrun.
Defined.

(** An object with a value for valid and one for empty, none for data. *)
Definition beat : CocotbBus.pyobject := [("valid", 1); ("empty", 3)]%string.

Lemma strict_drive_stops_at_missing_witness :
  CocotbBus._signals stream_in
  = [("valid", 0%nat)]%string ++ ("data", 1%nat)%string :: [("empty", 2%nat)]%string
  /\ PyDict.get beat "data" = None
  /\ (exists msg,
        CocotbBus.drive stream_in beat true
        = ([(0%nat, 1)], Some (CocotbBus.AttributeError msg)))
  /\ CocotbBus.drive stream_in beat false = ([(0%nat, 1); (2%nat, 3)], None).
Proof.
  assert (Hpre : forall a, In a (PyDict.keys [("valid", 0%nat)]%string) ->
                           PyDict.get beat a <> None).
  { intros a [<-|[]]. discriminate. }
  split; [reflexivity|]. split; [reflexivity|].
  exact (strict_drive_stops_at_missing stream_in beat
           [("valid", 0%nat)]%string [("empty", 2%nat)]%string "data" 1%nat
           eq_refl Hpre eq_refl).
Defined.

Lemma drive_then_capture_witness :
  NoDup (map snd (CocotbBus._signals stream_in))
  /\ CocotbBus.drive stream_in beat false = ([(0%nat, 1); (2%nat, 3)], None)
  /\ CocotbBus._Capture__getattr__
       (CocotbBus.capture stream_in
          (CocotbBus.settle [(0%nat, 1); (2%nat, 3)] (fun _ => 0)))
       "empty"
     = inr 3.
Proof.
  assert (Hnd : NoDup (map snd (CocotbBus._signals stream_in))).
  { repeat (constructor; [cbn; intuition discriminate|]). constructor. }
  split; [exact Hnd|]. split; [reflexivity|].
  exact (drive_then_capture stream_in beat false [(0%nat, 1); (2%nat, 3)]
           (fun _ => 0) Hnd eq_refl "empty"%string).
Defined.
